(** * promise2: promises, worker pool and combinators over Go channels

    A shallow embedding of [phucps89/go-promise2].  Goroutines are modelled
    by explicit state passing: every blocking point of the source (a channel
    operation, a [select], a [sync.WaitGroup] wait) is one atomic step of a
    step function, and a run of the program is a list of scheduler events.
    A [select] with several ready cases is resolved by the scheduler, as the
    Go runtime does (one ready case is picked, pseudo-randomly). *)

From Stdlib Require Import String.
From stdpp Require Import base numbers option list strings pretty.


(** ** errors.go *)

Inductive error : Type :=
  | ErrTaskPanicked
  | ErrPoolClosed
  | ErrAllPromisesRejected
  | context_Canceled
  | context_DeadlineExceeded
  | errors_New (msg : string)
  | AsError (ae : AggregateError)
with AggregateError : Type :=
  | NewAggregateError (errs : list error).

(** The message carried by the three package-level sentinels. *)
Definition sentinel_message (e : error) : string :=
  match e with
  | ErrTaskPanicked => "task panicked during execution"
  | ErrPoolClosed => "worker pool is closed"
  | ErrAllPromisesRejected => "all promises were rejected"
  | _ => EmptyString
  end%string.

Definition Errors (ae : AggregateError) : list error :=
  match ae with NewAggregateError errs => errs end.


(** ** Channels

    A buffered channel: the queued elements, the capacity given to [make]
    and whether [close] was called. *)

Record chan (A : Type) : Type := mkChan {
  buf : list A;
  cap : nat;
  closed : bool
}.
Arguments mkChan {A} _ _ _.
Arguments buf {A} _.
Arguments cap {A} _.
Arguments closed {A} _.

Definition make_chan {A : Type} (n : nat) : chan A := mkChan [] n false.

Inductive send_result (A : Type) : Type :=
  | SendOk (c : chan A)
  | SendBlocks
  | SendPanics.
Arguments SendOk {A} _.
Arguments SendBlocks {A}.
Arguments SendPanics {A}.

(** [c <- x]: a send on a closed channel proceeds by panicking; otherwise it
    proceeds when the buffer has room. *)
Definition chan_send {A : Type} (c : chan A) (x : A) : send_result A :=
  if closed c then SendPanics
  else if length (buf c) <? cap c
       then SendOk (mkChan (buf c ++ [x]) (cap c) false)
       else SendBlocks.

Inductive recv_result (A : Type) : Type :=
  | RecvOk (x : A) (c : chan A)
  | RecvClosed
  | RecvBlocks.
Arguments RecvOk {A} _ _.
Arguments RecvClosed {A}.
Arguments RecvBlocks {A}.

(** [x, ok := <-c]: buffered elements are delivered first, also after
    [close]; an empty closed channel yields the zero value with [ok = false]. *)
Definition chan_recv {A : Type} (c : chan A) : recv_result A :=
  match buf c with
  | x :: rest => RecvOk x (mkChan rest (cap c) (closed c))
  | [] => if closed c then RecvClosed else RecvBlocks
  end.

Definition chan_close {A : Type} (c : chan A) : chan A :=
  mkChan (buf c) (cap c) true.

(** ** context.Context, as far as [Await] looks at it *)

Inductive Context : Type :=
  | context_Background
  | context_WithCancel (fired : option error).

(** [ctx.Err()]: [nil] until the token fires. *)
Definition ctx_Err (ctx : Context) : option error :=
  match ctx with
  | context_Background => None
  | context_WithCancel fired => fired
  end.

(** Whether [<-ctx.Done()] can proceed. *)
Definition ctx_Done (ctx : Context) : bool := bool_decide (is_Some (ctx_Err ctx)).

(** ** promise.go *)

(** What calling a user function does: it returns its two values or it
    panics. *)
Inductive call_outcome (R : Type) : Type :=
  | Returns (r : R)
  | Panics.
Arguments Returns {R} _.
Arguments Panics {R}.

(** How a goroutine's body ends.  A panic that leaves the goroutine's
    top-level function is fatal to the whole process. *)
Inductive goroutine_end (S : Type) : Type :=
  | Finished (s : S)
  | Blocked
  | ProcessCrash.
Arguments Finished {S} _.
Arguments Blocked {S}.
Arguments ProcessCrash {S}.

Section Promise.

Context {T : Type}.
(** The zero value of [T] ([var zero T]). *)
Variable zero : T.

Record Result : Type := mkResult {
  Value : T;
  Err : option error
}.

Record Promise : Type := mkPromise {
  resultChan : chan Result;
  once : bool
}.

(** [&Promise[T]{resultChan: make(chan Result[T], 1)}] *)
Definition new_promise : Promise := mkPromise (make_chan 1) false.

(** The goroutine started by [NewPromise]: [val, err := fn()] and then
    [p.resultChan <- Result[T]{Value: val, Err: err}].  There is no
    deferred function. *)
Definition NewPromise_goroutine (fn : call_outcome (T * option error)) (p : Promise)
  : goroutine_end Promise :=
  match fn with
  | Panics => ProcessCrash
  | Returns (val, err) =>
      match chan_send (resultChan p) (mkResult val err) with
      | SendOk c => Finished (mkPromise c (once p))
      | SendBlocks => Blocked
      | SendPanics => ProcessCrash
      end
  end.

Definition NewPromise (fn : call_outcome (T * option error)) : goroutine_end Promise :=
  NewPromise_goroutine fn new_promise.

(** [p.once.Do(func() { p.resultChan <- r })].  [None] stands for a send
    that cannot proceed inside [Do]. *)
Definition once_send (r : Result) (p : Promise) : option Promise :=
  if once p then Some p
  else match chan_send (resultChan p) r with
       | SendOk c => Some (mkPromise c true)
       | _ => None
       end.

(** The two callbacks built by [NewPromiseWithExecutor]. *)
Definition resolve (val : T) : Promise → option Promise :=
  once_send (mkResult val None).

Definition reject (err : error) : Promise → option Promise :=
  once_send (mkResult zero (Some err)).

(** An executor is seen through the callback invocations it makes, in the
    order in which [sync.Once] serialises them, and through how it ends. *)
Inductive callback : Type :=
  | call_resolve (val : T)
  | call_reject (err : error).

Definition invoke (c : callback) : Promise → option Promise :=
  match c with
  | call_resolve val => resolve val
  | call_reject err => reject err
  end.

Definition result_of (c : callback) : Result :=
  match c with
  | call_resolve val => mkResult val None
  | call_reject err => mkResult zero (Some err)
  end.

Fixpoint invoke_all (cs : list callback) (p : Promise) : option Promise :=
  match cs with
  | [] => Some p
  | c :: cs' =>
      match invoke c p with
      | Some p' => invoke_all cs' p'
      | None => None
      end
  end.

(** The goroutine started by [NewPromiseWithExecutor]: it builds the two
    callbacks and calls [executor(resolve, reject)], with no deferred
    function.  [calls] are the invocations made before the executor returns
    or panics. *)
Definition NewPromiseWithExecutor_goroutine
    (calls : list callback) (ending : call_outcome unit) (p : Promise)
  : goroutine_end Promise :=
  match invoke_all calls p with
  | None => Blocked
  | Some p' =>
      match ending with
      | Returns _ => Finished p'
      | Panics => ProcessCrash
      end
  end.

Definition NewPromiseWithExecutor (calls : list callback) (ending : call_outcome unit)
  : goroutine_end Promise :=
  NewPromiseWithExecutor_goroutine calls ending new_promise.

(** *** Await

    [select { case result := <-p.resultChan: ...; case <-ctx.Done(): ... }] *)

Inductive await_case : Type :=
  | case_result
  | case_ctx_done.

(** The cases of the [select] that can proceed. *)
Definition Await_ready (p : Promise) (ctx : Context) : list await_case :=
  (match chan_recv (resultChan p) with
   | RecvBlocks => []
   | _ => [case_result]
   end) ++
  (if ctx_Done ctx then [case_ctx_done] else []).

(** [Await] when the runtime picks [pick]; [None] when that case cannot
    proceed.  The result is the promise afterwards and the returned pair. *)
Definition Await (pick : await_case) (p : Promise) (ctx : Context)
  : option (Promise * (T * option error)) :=
  match pick with
  | case_result =>
      match chan_recv (resultChan p) with
      | RecvOk result c => Some (mkPromise c (once p), (Value result, Err result))
      | RecvClosed => Some (p, (zero, None))
      | RecvBlocks => None
      end
  | case_ctx_done =>
      if ctx_Done ctx then Some (p, (zero, ctx_Err ctx)) else None
  end.

End Promise.

Arguments Result : clear implicits.
Arguments Promise : clear implicits.
Arguments callback : clear implicits.

(** ** Vocabulary of the statements *)

(** The channel of [p] is as [make] left it: nothing was sent, or what was
    sent has been received. *)
Definition unsettled {T : Type} (p : Promise T) : Prop :=
  resultChan p = make_chan 1.

(** The channel of [p] holds the settlement [r], not yet received. *)
Definition holds {T : Type} (r : Result T) (p : Promise T) : Prop :=
  resultChan p = mkChan [r] 1 false.

Definition fulfilled_with {T : Type} (v : T) (p : Promise T) : Prop :=
  holds (mkResult v None) p.

Definition rejected_with {T : Type} (zero : T) (e : error) (p : Promise T) : Prop :=
  holds (mkResult zero (Some e)) p.


(** *** Then, Map, Catch, Finally

    Each builds a promise with [NewPromiseWithExecutor] whose executor starts
    one goroutine; that goroutine awaits the source with
    [context.Background()] and then settles the new promise.  The functions
    below are that goroutine, run from the moment its [Await] can return; the
    state is the pair of the source and of the new promise. *)

Section Chaining.

Context {T : Type}.
Variable zero : T.

Abbreviation Promise := (Promise T).

Definition chain_end (src : Promise) (out : option Promise)
  : goroutine_end (Promise * Promise) :=
  match out with
  | Some out' => Finished (src, out')
  | None => Blocked
  end.

Definition Then_goroutine (fn : T → call_outcome (option error)) (src out : Promise)
  : goroutine_end (Promise * Promise) :=
  match Await zero case_result src context_Background with
  | None => Blocked
  | Some (src', (val, Some err)) => chain_end src' (reject zero err out)
  | Some (src', (val, None)) =>
      match fn val with
      | Panics => ProcessCrash
      | Returns (Some err) => chain_end src' (reject zero err out)
      | Returns None => chain_end src' (resolve val out)
      end
  end.

Definition Map_goroutine (fn : T → call_outcome (T * option error)) (src out : Promise)
  : goroutine_end (Promise * Promise) :=
  match Await zero case_result src context_Background with
  | None => Blocked
  | Some (src', (val, Some err)) => chain_end src' (reject zero err out)
  | Some (src', (val, None)) =>
      match fn val with
      | Panics => ProcessCrash
      | Returns (newVal, Some err) => chain_end src' (reject zero err out)
      | Returns (newVal, None) => chain_end src' (resolve newVal out)
      end
  end.

Definition Catch_goroutine (fn : error → call_outcome (T * option error)) (src out : Promise)
  : goroutine_end (Promise * Promise) :=
  match Await zero case_result src context_Background with
  | None => Blocked
  | Some (src', (val, None)) => chain_end src' (resolve val out)
  | Some (src', (val, Some err)) =>
      match fn err with
      | Panics => ProcessCrash
      | Returns (newVal, Some err') => chain_end src' (reject zero err' out)
      | Returns (newVal, None) => chain_end src' (resolve newVal out)
      end
  end.

Definition Finally_goroutine (fn : call_outcome unit) (src out : Promise)
  : goroutine_end (Promise * Promise) :=
  match Await zero case_result src context_Background with
  | None => Blocked
  | Some (src', (val, err)) =>
      match fn with
      | Panics => ProcessCrash
      | Returns _ =>
          match err with
          | Some e => chain_end src' (reject zero e out)
          | None => chain_end src' (resolve val out)
          end
      end
  end.

End Chaining.

(** ** pool.go *)

Module Pool.
Section Pool.

Context {T : Type}.
Variable zero : T.

Abbreviation Result := (Result T).
Abbreviation Promise := (Promise T).

(** Promises live on the heap; a [chan Result[T]] held by a task is the
    channel of the promise at that address. *)
Abbreviation heap := (list Promise).

Record task : Type := mkTask {
  fn : call_outcome (T * option error);
  ch : nat
}.

Record WorkerPool : Type := mkPool {
  taskQueue : chan task;
  wg : nat;
  done : chan unit;
  workers : nat
}.

(** How a function body ends: normally, or unwinding with a panic, or not
    at all (blocked for ever on a channel). *)
Inductive body_end : Type :=
  | Normal (h : heap)
  | Panicking (h : heap)
  | Stuck.

(** [c <- r] where [c] is the channel of the promise at address [a]. *)
Definition heap_send (a : nat) (r : Result) (h : heap) : body_end :=
  match h !! a with
  | None => Stuck
  | Some p =>
      match chan_send (resultChan p) r with
      | SendOk c => Normal (<[a := mkPromise c (once p)]> h)
      | SendBlocks => Stuck
      | SendPanics => Panicking h
      end
  end.

(** The statements of [executeTask] after the [defer]. *)
Definition executeTask_body (t : task) (h : heap) : body_end :=
  match fn t with
  | Panics => Panicking h
  | Returns (val, err) => heap_send (ch t) (mkResult val err) h
  end.

(** [executeTask]: the deferred function runs when the body ends; when the
    body is panicking, [recover()] is non-nil, the panic stops and
    [Result[T]{Err: ErrTaskPanicked}] is sent. *)
Definition executeTask (t : task) (h : heap) : body_end :=
  match executeTask_body t h with
  | Normal h' => Normal h'
  | Panicking h' => heap_send (ch t) (mkResult zero (Some ErrTaskPanicked)) h'
  | Stuck => Stuck
  end.

(** Program points of the goroutines around one pool. *)
Inductive worker_pc : Type :=
  | worker_select
  | worker_execute (t : task)
  | worker_returned.

Inductive submit_pc : Type :=
  | submit_select (t : task)
  | submit_returned.

Inductive close_pc : Type :=
  | close_not_called
  | close_done_closed
  | close_queue_closed
  | close_returned.

Record state : Type := mkState {
  pool : WorkerPool;
  promises : heap;
  worker_pcs : list worker_pc;
  submit_pcs : list submit_pc;
  closing : close_pc;
  crashed : bool
}.

(** [NewWorkerPool(numWorkers)], up to the return: the workers are started
    and stand before their first [select]. *)
Definition NewWorkerPool (numWorkers : Z) : state :=
  let n := Z.to_nat (if (numWorkers <=? 0)%Z then 1%Z else numWorkers) in
  mkState (mkPool (make_chan (n * 2)) n (make_chan 0) n)
          [] (replicate n worker_select) [] close_not_called false.

Inductive select_case : Type :=
  | case_done
  | case_taskQueue.

Inductive event : Type :=
  | ev_Submit (f : call_outcome (T * option error))
  | ev_submit (i : nat) (pick : select_case)
  | ev_worker (w : nat) (pick : select_case)
  | ev_execute (w : nat)
  | ev_Close.

Definition set_pool (s : state) (p : WorkerPool) : state :=
  mkState p (promises s) (worker_pcs s) (submit_pcs s) (closing s) (crashed s).

Definition set_worker (s : state) (w : nat) (pc : worker_pc) : state :=
  mkState (pool s) (promises s) (<[w := pc]> (worker_pcs s)) (submit_pcs s)
          (closing s) (crashed s).

Definition set_submit (s : state) (i : nat) (pc : submit_pc) : state :=
  mkState (pool s) (promises s) (worker_pcs s) (<[i := pc]> (submit_pcs s))
          (closing s) (crashed s).

Definition set_promises (s : state) (h : heap) : state :=
  mkState (pool s) h (worker_pcs s) (submit_pcs s) (closing s) (crashed s).

Definition set_closing (s : state) (pc : close_pc) : state :=
  mkState (pool s) (promises s) (worker_pcs s) (submit_pcs s) pc (crashed s).

Definition crash (s : state) : state :=
  mkState (pool s) (promises s) (worker_pcs s) (submit_pcs s) (closing s) true.

Definition set_taskQueue (p : WorkerPool) (q : chan task) : WorkerPool :=
  mkPool q (wg p) (done p) (workers p).

(** [defer p.wg.Done()] followed by the worker's return. *)
Definition worker_return (s : state) (w : nat) : state :=
  let p := pool s in
  set_worker (set_pool s (mkPool (taskQueue p) (wg p - 1) (done p) (workers p)))
             w worker_returned.

(** [Submit(fn)] on the caller's side: the promise is allocated and the
    goroutine is started; it stands before its [select]. *)
Definition Submit (f : call_outcome (T * option error)) (s : state) : state :=
  let a := length (promises s) in
  mkState (pool s) (promises s ++ [new_promise]) (worker_pcs s)
          (submit_pcs s ++ [submit_select (mkTask f a)]) (closing s) (crashed s).

(** The [select] of the goroutine started by [Submit]. *)
Definition submit_step (i : nat) (pick : select_case) (s : state) : option state :=
  match submit_pcs s !! i with
  | Some (submit_select t) =>
      match pick with
      | case_taskQueue =>
          match chan_send (taskQueue (pool s)) t with
          | SendOk q =>
              Some (set_submit (set_pool s (set_taskQueue (pool s) q)) i submit_returned)
          | SendPanics => Some (crash s)
          | SendBlocks => None
          end
      | case_done =>
          match chan_recv (done (pool s)) with
          | RecvBlocks => None
          | _ =>
              match heap_send (ch t) (mkResult zero (Some ErrPoolClosed)) (promises s) with
              | Normal h => Some (set_submit (set_promises s h) i submit_returned)
              | Panicking _ => Some (crash s)
              | Stuck => None
              end
          end
      end
  | _ => None
  end.

(** The [select] of [worker]. *)
Definition worker_step (w : nat) (pick : select_case) (s : state) : option state :=
  match worker_pcs s !! w with
  | Some worker_select =>
      match pick with
      | case_done =>
          match chan_recv (done (pool s)) with
          | RecvBlocks => None
          | _ => Some (worker_return s w)
          end
      | case_taskQueue =>
          match chan_recv (taskQueue (pool s)) with
          | RecvOk t q =>
              Some (set_worker (set_pool s (set_taskQueue (pool s) q)) w (worker_execute t))
          | RecvClosed => Some (worker_return s w)
          | RecvBlocks => None
          end
      end
  | _ => None
  end.

(** [p.executeTask(t)] in [worker], then back to the [select]. *)
Definition execute_step (w : nat) (s : state) : option state :=
  match worker_pcs s !! w with
  | Some (worker_execute t) =>
      match executeTask t (promises s) with
      | Normal h => Some (set_worker (set_promises s h) w worker_select)
      | Panicking _ => Some (crash s)
      | Stuck => None
      end
  | _ => None
  end.

(** [Close()], one statement at a time: [close(p.done)],
    [close(p.taskQueue)], [p.wg.Wait()] and the return.  Closing a closed
    channel panics. *)
Definition Close_step (s : state) : option state :=
  let p := pool s in
  match closing s with
  | close_not_called =>
      if closed (done p) then Some (crash s)
      else Some (set_closing
                   (set_pool s (mkPool (taskQueue p) (wg p) (chan_close (done p)) (workers p)))
                   close_done_closed)
  | close_done_closed =>
      if closed (taskQueue p) then Some (crash s)
      else Some (set_closing (set_pool s (set_taskQueue p (chan_close (taskQueue p))))
                             close_queue_closed)
  | close_queue_closed =>
      if wg p =? 0 then Some (set_closing s close_returned) else None
  | close_returned => None
  end.

(** One step of the system; nothing runs once the process has crashed. *)
Definition step (e : event) (s : state) : option state :=
  if crashed s then None
  else match e with
       | ev_Submit f => Some (Submit f s)
       | ev_submit i pick => submit_step i pick s
       | ev_worker w pick => worker_step w pick s
       | ev_execute w => execute_step w s
       | ev_Close => Close_step s
       end.

Fixpoint run (sched : list event) (s : state) : option state :=
  match sched with
  | [] => Some s
  | e :: sched' =>
      match step e s with
      | Some s' => run sched' s'
      | None => None
      end
  end.

(** The tasks that were admitted to the queue and not yet taken. *)
Definition queued (s : state) : list task := buf (taskQueue (pool s)).

(** What an [Await] on the promise at address [a] can return in state [s],
    for a given choice of the [select]. *)
Definition Await_at (pick : await_case) (a : nat) (ctx : Context) (s : state)
  : option (T * option error) :=
  match promises s !! a with
  | Some p => snd <$> Await zero pick p ctx
  | None => None
  end.

(** The pool after [Close] has returned, with the task of the promise at
    address [a] never taken: no worker is left, both channels are closed and
    no goroutine holds a task for [a]. *)
Record abandoned (a : nat) (s : state) : Prop := mkAbandoned {
  ab_workers : Forall (λ c, c = worker_returned) (worker_pcs s);
  ab_closing : closing s = close_returned;
  ab_queue : closed (taskQueue (pool s)) = true;
  ab_promise : promises s !! a = Some new_promise;
  ab_submits : ∀ i t, submit_pcs s !! i = Some (submit_select t) → ch t ≠ a
}.

End Pool.
End Pool.

(** ** combinators.go *)

(** [type Status string] and its two constants. *)
Definition Status : Type := string.
Definition StatusFulfilled : Status := "fulfilled"%string.
Definition StatusRejected : Status := "rejected"%string.

Record PromiseStatus (T : Type) : Type := mkPromiseStatus {
  status : Status;
  status_Value : T;
  status_Err : option error
}.
Arguments mkPromiseStatus {T} _ _ _.
Arguments status {T} _.
Arguments status_Value {T} _.
Arguments status_Err {T} _.

(** The input promises of a combinator live on a heap and are named by
    their addresses, so that one promise can be passed several times.  Next
    to the heap stand the producers that have not delivered yet: the result
    the goroutine of input [a] is about to send on [a]'s channel. *)
Record world (T : Type) : Type := mkWorld {
  heap : list (Promise T);
  producers : list (option (Result T))
}.
Arguments mkWorld {T} _ _.
Arguments heap {T} _.
Arguments producers {T} _.

(** [sync.WaitGroup] waiter of [All] and [AllSettled]:
    [go func() { wg.Wait(); resolve(results) }()]. *)
Inductive waiter_pc : Type :=
  | waiter_Wait
  | waiter_resolve
  | waiter_returned.

(** Steps the waiter still has to take. *)
Definition waiter_weight (c : waiter_pc) : nat :=
  match c with
  | waiter_Wait => 2
  | waiter_resolve => 1
  | waiter_returned => 0
  end.

(** One for a producer that has not delivered yet. *)
Definition pending_weight {T : Type} (o : option (Result T)) : nat :=
  match o with
  | Some _ => 1
  | None => 0
  end.

Section World.

Context {T : Type}.
Variable zero : T.

(** The producer of the promise at [a] sends its result. *)
Definition settle (a : nat) (w : world T) : option (world T) :=
  match producers w !! a, heap w !! a with
  | Some (Some r), Some p =>
      match chan_send (resultChan p) r with
      | SendOk c =>
          Some (mkWorld (<[a := mkPromise c (once p)]> (heap w))
                        (<[a := None]> (producers w)))
      | _ => None
      end
  | _, _ => None
  end.

(** [p.Await(ctx)] on the promise at [a]. *)
Definition Await_at (pick : await_case) (a : nat) (ctx : Context) (w : world T)
  : option (world T * (T * option error)) :=
  match heap w !! a with
  | Some p =>
      match Await zero pick p ctx with
      | Some (p', r) => Some (mkWorld (<[a := p']> (heap w)) (producers w), r)
      | None => None
      end
  | None => None
  end.

(** [Await] as the runtime resolves it: blocked ([None]) when no case can
    proceed, the only ready case when there is one, and [prefer] when both
    can proceed. *)
Definition Await_sched (prefer : await_case) (a : nat) (ctx : Context) (w : world T)
  : option (world T * (T * option error)) :=
  match heap w !! a with
  | Some p =>
      match Await_ready p ctx with
      | [] => None
      | [c] => Await_at c a ctx w
      | _ => Await_at prefer a ctx w
      end
  | None => None
  end.

End World.

(** ** Vocabulary for the inputs of a combinator *)

(** The input at address [a] has been settled with [r] and nobody has
    received the settlement yet. *)
Definition settled_input {T : Type} (w : world T) (a : nat) (r : Result T) : Prop :=
  ∃ p, heap w !! a = Some p ∧ holds r p.

(** The input at address [a] will be settled with [r]: either its producer
    is about to send [r] on the untouched channel, or [r] waits in the
    channel. *)
Definition delivers {T : Type} (w : world T) (a : nat) (r : Result T) : Prop :=
  ∃ p, heap w !! a = Some p
       ∧ ((producers w !! a = Some (Some r) ∧ unsettled p)
          ∨ (producers w !! a = Some None ∧ holds r p)).

Definition is_fulfilled {T : Type} (r : Result T) : Prop := Err r = None.

(** *** Sequence *)

Module Sequence.
Section Sequence.

Context {T : Type}.
Variable zero : T.
Variable ctx : Context.
(** How the [select] of the [i]-th [Await] is resolved when both cases can
    proceed. *)
Variable prefer : nat → await_case.

Record loop_state : Type := mkLoop {
  the_world : world T;
  results : list T;
  out : Promise (list T);
  awaited : list nat
}.

(** The [for i, promise := range promises] loop from index [i] on, followed
    by [resolve(results)].  [awaited] records the promises on which [Await]
    was called. *)
Fixpoint loop (promises : list nat) (i : nat) (s : loop_state)
  : goroutine_end loop_state :=
  match promises with
  | [] =>
      match resolve (results s) (out s) with
      | Some o => Finished (mkLoop (the_world s) (results s) o (awaited s))
      | None => Blocked
      end
  | promise :: rest =>
      match Await_sched zero (prefer i) promise ctx (the_world s) with
      | None => Blocked
      | Some (w, (val, Some err)) =>
          match reject [] err (out s) with
          | Some o => Finished (mkLoop w (results s) o (awaited s ++ [promise]))
          | None => Blocked
          end
      | Some (w, (val, None)) =>
          loop rest (S i)
               (mkLoop w (<[i := val]> (results s)) (out s) (awaited s ++ [promise]))
      end
  end.

(** The executor of [Sequence], run by the goroutine of
    [NewPromiseWithExecutor] on the fresh promise. *)
Definition Sequence (promises : list nat) (w : world T) : goroutine_end loop_state :=
  let n := length promises in
  loop promises 0 (mkLoop w (replicate n zero) new_promise []).

End Sequence.
End Sequence.

(** *** All *)

Module All.
Section All.

Context {T : Type}.
Variable zero : T.
Variable ctx : Context.
Variable promises : list nat.

(** Program points of [go func(idx int, p *Promise[T])]. *)
Inductive pc : Type :=
  | at_Await
  | got (val : T) (err : option error)
  | at_deferred_Done
  | returned.

Record state : Type := mkState {
  the_world : world T;
  observers : list pc;
  results : list T;
  errOnce : bool;
  wg : nat;
  waiter : waiter_pc;
  out : Promise (list T)
}.

Inductive event : Type :=
  | ev_settle (a : nat)
  | ev_Await (idx : nat) (pick : await_case)
  | ev_body (idx : nat)
  | ev_Done (idx : nat)
  | ev_waiter.

(** The executor up to its return: with no input it resolves at
    once; otherwise [results], the guards and the wait group are set up and
    the [n] observers and the waiter are started. *)
Definition start (w : world T) : option state :=
  let n := length promises in
  if n =? 0 then
    match resolve [] new_promise with
    | Some o => Some (mkState w [] [] false 0 waiter_returned o)
    | None => None
    end
  else
    Some (mkState w (replicate n at_Await) (replicate n zero) false n
                  waiter_Wait new_promise).

Definition set_observer (s : state) (idx : nat) (c : pc) : state :=
  mkState (the_world s) (<[idx := c]> (observers s)) (results s) (errOnce s)
          (wg s) (waiter s) (out s).

Definition step (e : event) (s : state) : option state :=
  match e with
  | ev_settle a =>
      match settle a (the_world s) with
      | Some w =>
          Some (mkState w (observers s) (results s) (errOnce s) (wg s) (waiter s) (out s))
      | None => None
      end
  | ev_Await idx pick =>
      match observers s !! idx, promises !! idx with
      | Some at_Await, Some p =>
          match Await_at zero pick p ctx (the_world s) with
          | Some (w, (val, err)) =>
              Some (mkState w (<[idx := got val err]> (observers s)) (results s)
                            (errOnce s) (wg s) (waiter s) (out s))
          | None => None
          end
      | _, _ => None
      end
  | ev_body idx =>
      match observers s !! idx with
      | Some (got val (Some err)) =>
          (* errOnce.Do(func() { reject(err) }); return *)
          if errOnce s then Some (set_observer s idx at_deferred_Done)
          else match reject [] err (out s) with
               | Some o =>
                   Some (mkState (the_world s) (<[idx := at_deferred_Done]> (observers s))
                                 (results s) true (wg s) (waiter s) o)
               | None => None
               end
      | Some (got val None) =>
          (* mu.Lock(); results[idx] = val; mu.Unlock() *)
          Some (mkState (the_world s) (<[idx := at_deferred_Done]> (observers s))
                        (<[idx := val]> (results s)) (errOnce s) (wg s) (waiter s) (out s))
      | _ => None
      end
  | ev_Done idx =>
      match observers s !! idx with
      | Some at_deferred_Done =>
          if wg s =? 0 then None
          else Some (mkState (the_world s) (<[idx := returned]> (observers s)) (results s)
                             (errOnce s) (wg s - 1) (waiter s) (out s))
      | _ => None
      end
  | ev_waiter =>
      match waiter s with
      | waiter_Wait =>
          if wg s =? 0
          then Some (mkState (the_world s) (observers s) (results s) (errOnce s) (wg s)
                             waiter_resolve (out s))
          else None
      | waiter_resolve =>
          match resolve (results s) (out s) with
          | Some o =>
              Some (mkState (the_world s) (observers s) (results s) (errOnce s) (wg s)
                            waiter_returned o)
          | None => None
          end
      | waiter_returned => None
      end
  end.

Fixpoint run (sched : list event) (s : state) : option state :=
  match sched with
  | [] => Some s
  | e :: sched' =>
      match step e s with
      | Some s' => run sched' s'
      | None => None
      end
  end.

(** Every goroutine of the combinator has returned. *)
Definition quiescent (s : state) : Prop :=
  Forall (λ c, c = returned) (observers s) ∧ waiter s = waiter_returned.

(** **** Invariants of the runs of [All] *)

(** One for an observer that has not called [wg.Done()] yet. *)
Definition alive (c : pc) : nat :=
  match c with
  | returned => 0
  | _ => 1
  end.

(** Steps an observer still has to take. *)
Definition weight (c : pc) : nat :=
  match c with
  | at_Await => 3
  | got _ _ => 2
  | at_deferred_Done => 1
  | returned => 0
  end.

(** Steps left in the whole system; every step takes one away. *)
Definition measure (s : state) : nat :=
  sum_list (pending_weight <$> producers (the_world s))
  + sum_list (weight <$> observers s)
  + waiter_weight (waiter s).

(** What holds in every reachable state, whatever the inputs do. *)
Record inv (s : state) : Prop := mkInv {
  inv_observers : length (observers s) = length promises;
  inv_results : length (results s) = length promises;
  inv_wg : wg s = sum_list (alive <$> observers s);
  inv_waiter : waiter s ≠ waiter_Wait → wg s = 0;
  inv_out_fresh : errOnce s = false → waiter s ≠ waiter_returned → out s = new_promise;
  inv_out_once : once (out s) = false → out s = new_promise
}.



End All.
End All.

(** *** AllSettled *)

Module AllSettled.
Section AllSettled.

Context {T : Type}.
Variable zero : T.
Variable ctx : Context.
Variable promises : list nat.

Inductive pc : Type :=
  | at_Await
  | got (val : T) (err : option error)
  | at_deferred_Done
  | returned.

Record state : Type := mkState {
  the_world : world T;
  observers : list pc;
  results : list (PromiseStatus T);
  wg : nat;
  waiter : waiter_pc;
  out : Promise (list (PromiseStatus T))
}.

Inductive event : Type :=
  | ev_settle (a : nat)
  | ev_Await (idx : nat) (pick : await_case)
  | ev_body (idx : nat)
  | ev_Done (idx : nat)
  | ev_waiter.

(** The zero value of [PromiseStatus[T]], which fills [make([]PromiseStatus[T], n)]. *)
Definition zero_status : PromiseStatus T := mkPromiseStatus EmptyString zero None.

Definition start (w : world T) : option state :=
  let n := length promises in
  if n =? 0 then
    match resolve [] new_promise with
    | Some o => Some (mkState w [] [] 0 waiter_returned o)
    | None => None
    end
  else
    Some (mkState w (replicate n at_Await) (replicate n zero_status) n
                  waiter_Wait new_promise).

(** The entry written under [mu]. *)
Definition entry (val : T) (err : option error) : PromiseStatus T :=
  match err with
  | Some e => mkPromiseStatus StatusRejected zero (Some e)
  | None => mkPromiseStatus StatusFulfilled val None
  end.

Definition step (e : event) (s : state) : option state :=
  match e with
  | ev_settle a =>
      match settle a (the_world s) with
      | Some w => Some (mkState w (observers s) (results s) (wg s) (waiter s) (out s))
      | None => None
      end
  | ev_Await idx pick =>
      match observers s !! idx, promises !! idx with
      | Some at_Await, Some p =>
          match Await_at zero pick p ctx (the_world s) with
          | Some (w, (val, err)) =>
              Some (mkState w (<[idx := got val err]> (observers s)) (results s)
                            (wg s) (waiter s) (out s))
          | None => None
          end
      | _, _ => None
      end
  | ev_body idx =>
      match observers s !! idx with
      | Some (got val err) =>
          Some (mkState (the_world s) (<[idx := at_deferred_Done]> (observers s))
                        (<[idx := entry val err]> (results s)) (wg s) (waiter s) (out s))
      | _ => None
      end
  | ev_Done idx =>
      match observers s !! idx with
      | Some at_deferred_Done =>
          if wg s =? 0 then None
          else Some (mkState (the_world s) (<[idx := returned]> (observers s)) (results s)
                             (wg s - 1) (waiter s) (out s))
      | _ => None
      end
  | ev_waiter =>
      match waiter s with
      | waiter_Wait =>
          if wg s =? 0
          then Some (mkState (the_world s) (observers s) (results s) (wg s)
                             waiter_resolve (out s))
          else None
      | waiter_resolve =>
          match resolve (results s) (out s) with
          | Some o =>
              Some (mkState (the_world s) (observers s) (results s) (wg s)
                            waiter_returned o)
          | None => None
          end
      | waiter_returned => None
      end
  end.

Fixpoint run (sched : list event) (s : state) : option state :=
  match sched with
  | [] => Some s
  | e :: sched' =>
      match step e s with
      | Some s' => run sched' s'
      | None => None
      end
  end.

Definition quiescent (s : state) : Prop :=
  Forall (λ c, c = returned) (observers s) ∧ waiter s = waiter_returned.

(** **** Invariants of the runs of [AllSettled] *)

Definition alive (c : pc) : nat :=
  match c with
  | returned => 0
  | _ => 1
  end.

Definition weight (c : pc) : nat :=
  match c with
  | at_Await => 3
  | got _ _ => 2
  | at_deferred_Done => 1
  | returned => 0
  end.

Definition measure (s : state) : nat :=
  sum_list (pending_weight <$> producers (the_world s))
  + sum_list (weight <$> observers s)
  + waiter_weight (waiter s).

(** What holds in every reachable state, whatever the inputs and the token
    do. *)
Record inv (s : state) : Prop := mkInv {
  inv_observers : length (observers s) = length promises;
  inv_results : length (results s) = length promises;
  inv_wg : wg s = sum_list (alive <$> observers s);
  inv_waiter : waiter s ≠ waiter_Wait → wg s = 0;
  inv_out_fresh : waiter s ≠ waiter_returned → out s = new_promise;
  inv_out_resolved : waiter s = waiter_returned →
                     out s = mkPromise (mkChan [mkResult (results s) None] 1 false) true
}.

(** Where the observer [idx] of input [a] stands when that input is settled
    with [r]. *)
Definition slot_settled (s : state) (idx a : nat) (r : Result T) : Prop :=
  match observers s !! idx with
  | Some at_Await => delivers (the_world s) a r
  | Some (got val err) => val = Value r ∧ err = Err r
  | Some at_deferred_Done | Some returned =>
      results s !! idx = Some (entry (Value r) (Err r))
  | None => False
  end.

(** What holds in every reachable state when the inputs are settled with
    [rs]. *)
Definition inv_settled (rs : list (Result T)) (s : state) : Prop :=
  ∀ idx a r, promises !! idx = Some a → rs !! idx = Some r → slot_settled s idx a r.

End AllSettled.
End AllSettled.

(** *** Any *)

Module Any.
Section Any.

Context {T : Type}.
Variable zero : T.
Variable ctx : Context.
Variable promises : list nat.

(** Program points of [go func(p *Promise[T])]; [counted] is the point
    after [mu.Unlock()], holding the local [allRejected]. *)
Inductive pc : Type :=
  | at_Await
  | got (val : T) (err : option error)
  | counted (allRejected : bool)
  | returned.

Record state : Type := mkState {
  the_world : world T;
  observers : list pc;
  errors : list error;
  rejectedCount : nat;
  once_guard : bool;
  out : Promise T
}.

Inductive event : Type :=
  | ev_settle (a : nat)
  | ev_Await (idx : nat) (pick : await_case)
  | ev_body (idx : nat).

Definition start (w : world T) : option state :=
  let n := length promises in
  if n =? 0 then
    match reject zero ErrAllPromisesRejected new_promise with
    | Some o => Some (mkState w [] [] 0 false o)
    | None => None
    end
  else
    Some (mkState w (replicate n at_Await) [] 0 false new_promise).

Definition step (e : event) (s : state) : option state :=
  let n := length promises in
  match e with
  | ev_settle a =>
      match settle a (the_world s) with
      | Some w =>
          Some (mkState w (observers s) (errors s) (rejectedCount s) (once_guard s) (out s))
      | None => None
      end
  | ev_Await idx pick =>
      match observers s !! idx, promises !! idx with
      | Some at_Await, Some p =>
          match Await_at zero pick p ctx (the_world s) with
          | Some (w, (val, err)) =>
              Some (mkState w (<[idx := got val err]> (observers s)) (errors s)
                            (rejectedCount s) (once_guard s) (out s))
          | None => None
          end
      | _, _ => None
      end
  | ev_body idx =>
      match observers s !! idx with
      | Some (got val None) =>
          (* once.Do(func() { resolve(val) }); return *)
          if once_guard s
          then Some (mkState (the_world s) (<[idx := returned]> (observers s)) (errors s)
                             (rejectedCount s) true (out s))
          else match resolve val (out s) with
               | Some o =>
                   Some (mkState (the_world s) (<[idx := returned]> (observers s))
                                 (errors s) (rejectedCount s) true o)
               | None => None
               end
      | Some (got val (Some err)) =>
          (* mu.Lock(); errors = append(errors, err); rejectedCount++;
             allRejected := rejectedCount == n; mu.Unlock() *)
          let count := S (rejectedCount s) in
          Some (mkState (the_world s) (<[idx := counted (count =? n)]> (observers s))
                        (errors s ++ [err]) count (once_guard s) (out s))
      | Some (counted true) =>
          (* once.Do(func() { reject(NewAggregateError(errors)) }) *)
          if once_guard s
          then Some (mkState (the_world s) (<[idx := returned]> (observers s)) (errors s)
                             (rejectedCount s) true (out s))
          else match reject zero (AsError (NewAggregateError (errors s))) (out s) with
               | Some o =>
                   Some (mkState (the_world s) (<[idx := returned]> (observers s))
                                 (errors s) (rejectedCount s) true o)
               | None => None
               end
      | Some (counted false) =>
          Some (mkState (the_world s) (<[idx := returned]> (observers s)) (errors s)
                        (rejectedCount s) (once_guard s) (out s))
      | _ => None
      end
  end.

Fixpoint run (sched : list event) (s : state) : option state :=
  match sched with
  | [] => Some s
  | e :: sched' =>
      match step e s with
      | Some s' => run sched' s'
      | None => None
      end
  end.

Definition quiescent (s : state) : Prop :=
  Forall (λ c, c = returned) (observers s).

(** **** Invariants of the runs of [Any] *)

(** One for an observer that has not yet gone past its [Await] result. *)
Definition slack (c : pc) : nat :=
  match c with
  | at_Await | got _ _ => 1
  | _ => 0
  end.

(** A bound on the steps an observer still has to take. *)
Definition weight (c : pc) : nat :=
  match c with
  | at_Await => 4
  | got _ _ => 3
  | counted _ => 1
  | returned => 0
  end.

Definition measure (s : state) : nat :=
  sum_list (pending_weight <$> producers (the_world s))
  + sum_list (weight <$> observers s).

(** What holds in every reachable state, whatever the inputs and the token
    do. *)
Record inv (s : state) : Prop := mkInv {
  inv_observers : length (observers s) = length promises;
  inv_count : rejectedCount s = length (errors s);
  inv_slack : rejectedCount s + sum_list (slack <$> observers s) ≤ length promises;
  inv_counted : ∀ idx, observers s !! idx = Some (counted true) →
                       rejectedCount s = length promises;
  inv_open : once_guard s = false → observers s ≠ [] → out s = new_promise;
  inv_closed : once_guard s = true →
               (∃ v, fulfilled_with v (out s))
               ∨ (rejectedCount s = length promises
                  ∧ rejected_with zero (AsError (NewAggregateError (errors s))) (out s))
}.




End Any.
End Any.


(** *** Race *)

Module Race.
Section Race.

Context {T : Type}.
Variable zero : T.
Variable ctx : Context.
Variable promises : list nat.

(** Program points of [go func(p *Promise[T])]. *)
Inductive pc : Type :=
  | at_Await
  | got (val : T) (err : option error)
  | returned.

Record state : Type := mkState {
  the_world : world T;
  observers : list pc;
  once_guard : bool;
  out : Promise T
}.

Inductive event : Type :=
  | ev_settle (a : nat)
  | ev_Await (idx : nat) (pick : await_case)
  | ev_body (idx : nat).

(** The executor up to its return: with no input it resolves with the zero
    value; otherwise one observer per input is started. *)
Definition start (w : world T) : option state :=
  if length promises =? 0 then
    match resolve zero new_promise with
    | Some o => Some (mkState w [] false o)
    | None => None
    end
  else
    Some (mkState w (replicate (length promises) at_Await) false new_promise).

Definition step (e : event) (s : state) : option state :=
  match e with
  | ev_settle a =>
      match settle a (the_world s) with
      | Some w => Some (mkState w (observers s) (once_guard s) (out s))
      | None => None
      end
  | ev_Await idx pick =>
      match observers s !! idx, promises !! idx with
      | Some at_Await, Some p =>
          match Await_at zero pick p ctx (the_world s) with
          | Some (w, (val, err)) =>
              Some (mkState w (<[idx := got val err]> (observers s))
                            (once_guard s) (out s))
          | None => None
          end
      | _, _ => None
      end
  | ev_body idx =>
      match observers s !! idx with
      | Some (got val err) =>
          (* once.Do(func() { if err != nil { reject(err) } else { resolve(val) } }) *)
          if once_guard s
          then Some (mkState (the_world s) (<[idx := returned]> (observers s))
                             true (out s))
          else match (match err with
                      | Some e => reject zero e (out s)
                      | None => resolve val (out s)
                      end) with
               | Some o =>
                   Some (mkState (the_world s) (<[idx := returned]> (observers s))
                                 true o)
               | None => None
               end
      | _ => None
      end
  end.

Fixpoint run (sched : list event) (s : state) : option state :=
  match sched with
  | [] => Some s
  | e :: sched' =>
      match step e s with
      | Some s' => run sched' s'
      | None => None
      end
  end.

Definition quiescent (s : state) : Prop :=
  Forall (λ c, c = returned) (observers s).

(** What [reject] or [resolve] stores for an [Await] result. *)
Definition settlement (val : T) (err : option error) : Result T :=
  match err with
  | Some e => mkResult zero (Some e)
  | None => mkResult val None
  end.

(** **** Invariants of the runs of [Race] *)

Definition weight (c : pc) : nat :=
  match c with
  | at_Await => 2
  | got _ _ => 1
  | returned => 0
  end.

Definition measure (s : state) : nat :=
  sum_list (pending_weight <$> producers (the_world s))
  + sum_list (weight <$> observers s).

(** What holds in every reachable state, whatever the inputs and the token
    do. *)
Record inv (s : state) : Prop := mkInv {
  inv_observers : length (observers s) = length promises;
  inv_open : once_guard s = false → observers s ≠ [] → out s = new_promise;
  inv_returned : ∀ idx, observers s !! idx = Some returned → once_guard s = true
}.

(** Where the observer [idx] of input [a] stands when that input settles
    with [r]. *)
Definition slot_settled (s : state) (idx a : nat) (r : Result T) : Prop :=
  match observers s !! idx with
  | Some at_Await => delivers (the_world s) a r
  | Some (got val err) => val = Value r ∧ err = Err r
  | Some returned => True
  | None => False
  end.

(** What holds in every reachable state when the inputs settle with [rs]. *)
Record inv_settled (rs : list (Result T)) (s : state) : Prop := mkInvSettled {
  invs_slots : ∀ idx a r,
      promises !! idx = Some a → rs !! idx = Some r → slot_settled s idx a r;
  invs_closed : once_guard s = true →
                ∃ idx r, rs !! idx = Some r
                         ∧ holds (settlement (Value r) (Err r)) (out s)
}.

End Race.
End Race.

(** ** pool.go, continued *)

Module PoolMore.
Section PoolMore.

Import Pool.

Context {T : Type}.
Variable zero : T.

Record PoolStats : Type := mkPoolStats {
  NumWorkers : nat;
  QueueSize : nat;
  QueueCapacity : nat
}.

(** [Stats()]: [p.workers], [len(p.taskQueue)] and [cap(p.taskQueue)]. *)
Definition Stats (s : state (T:=T)) : PoolStats :=
  mkPoolStats (workers (pool s))
              (length (buf (taskQueue (pool s))))
              (cap (taskQueue (pool s))).

(** The task a goroutine holds, if it holds one. *)
Definition submit_task (c : submit_pc (T:=T)) : option task :=
  match c with
  | submit_select t => Some t
  | submit_returned => None
  end.

Definition worker_task (c : worker_pc (T:=T)) : option task :=
  match c with
  | worker_execute t => Some t
  | _ => None
  end.

(** The tasks on their way: held by a [Submit] goroutine, queued, or held
    by a worker. *)
Definition in_flight (s : state (T:=T)) : list task :=
  omap submit_task (submit_pcs s)
  ++ buf (taskQueue (pool s))
  ++ omap worker_task (worker_pcs s).

(** What the worker sends for a task. *)
Definition task_result (t : task (T:=T)) : Result T :=
  match fn t with
  | Returns (val, err) => mkResult val err
  | Panics => mkResult zero (Some ErrTaskPanicked)
  end.

(** What holds in every reachable state of a pool. *)
Record inv (s : state (T:=T)) : Prop := mkInv {
  inv_workers : 1 ≤ workers (pool s);
  inv_worker_pcs : length (worker_pcs s) = workers (pool s);
  inv_cap : cap (taskQueue (pool s)) = workers (pool s) * 2;
  inv_queue : length (buf (taskQueue (pool s))) ≤ cap (taskQueue (pool s));
  inv_owner : NoDup (ch <$> in_flight s);
  inv_fresh : ∀ t, t ∈ in_flight s → promises s !! ch t = Some new_promise
}.

(** What holds as long as [Close] has not been called. *)
Record open (s : state (T:=T)) : Prop := mkOpen {
  open_closing : closing s = close_not_called;
  open_done : done (pool s) = make_chan 0;
  open_queue : closed (taskQueue (pool s)) = false;
  open_crashed : crashed s = false;
  open_workers : Forall (λ c, c ≠ worker_returned) (worker_pcs s);
  open_wg : wg (pool s) = workers (pool s)
}.

Definition is_Close (e : event (T:=T)) : bool :=
  match e with
  | ev_Close => true
  | _ => false
  end.

(** The loop of [Pool]:
    [for i, task := range tasks { promises[i] = pool.Submit(task) }],
    from index [i] on.  A slot of [promises] is [nil] ([None]) until it is
    assigned. *)
Fixpoint Pool_loop (tasks : list (call_outcome (T * option error))) (i : nat)
    (promises : list (option nat)) (s : state (T:=T))
  : state * list (option nat) :=
  match tasks with
  | [] => (s, promises)
  | task :: rest =>
      let a := length (Pool.promises s) in
      Pool_loop rest (S i) (<[i := Some a]> promises) (Submit task s)
  end.

(** [Pool] up to the call of [All]: the pool afterwards and the promises
    handed to [All]. *)
Definition Pool_submits (tasks : list (call_outcome (T * option error)))
    (s : state (T:=T)) : state * list (option nat) :=
  Pool_loop tasks 0 (replicate (length tasks) None) s.

End PoolMore.
End PoolMore.

(** ** errors.go, continued: the [Error] methods *)

Section ErrorString.

(** What [%v] prints for each element. *)
Variable message : error → string.

(** [fmt.Sprintf("[%d] %v", i, err)] *)
Definition Sprintf_entry (i : nat) (err : error) : string :=
  ("[" +:+ pretty i +:+ "] " +:+ message err)%string.

(** The loop of [AggregateError.Error] over [ae.errors] from index [i] on;
    [sb] is the content of the [strings.Builder]. *)
Fixpoint Error_loop (sb : string) (i : nat) (errs : list error) : string :=
  match errs with
  | [] => sb
  | err :: rest =>
      let sb := if 0 <? i then (sb +:+ "; ")%string else sb in
      Error_loop (sb +:+ Sprintf_entry i err) (S i) rest
  end.

Definition Error_of_list (errs : list error) : string :=
  if length errs =? 0 then "aggregate error: no errors"%string
  else Error_loop "aggregate error: " 0 errs.

End ErrorString.

(** [err.Error()]: the text given to [errors.New], the texts of the two
    context errors, and [AggregateError.Error] for an aggregate. *)
Fixpoint error_Error (e : error) : string :=
  match e with
  | ErrTaskPanicked => "task panicked during execution"
  | ErrPoolClosed => "worker pool is closed"
  | ErrAllPromisesRejected => "all promises were rejected"
  | context_Canceled => "context canceled"
  | context_DeadlineExceeded => "context deadline exceeded"
  | errors_New msg => msg
  | AsError (NewAggregateError errs) => Error_of_list error_Error errs
  end%string.

Definition AggregateError_Error (ae : AggregateError) : string :=
  Error_of_list error_Error (Errors ae).

(** The entries of [Error()], numbered from [i] on. *)
Fixpoint entries_from (message : error → string) (i : nat) (errs : list error)
  : list string :=
  match errs with
  | [] => []
  | err :: rest => Sprintf_entry message i err :: entries_from message (S i) rest
  end.

(** Every string preceded by ["; "]. *)
Fixpoint separated (l : list string) : string :=
  match l with
  | [] => EmptyString
  | x :: rest => ("; " +:+ x +:+ separated rest)%string
  end.

(** ** pool.go, continued: [Close] and the wait group *)

Module PoolClose.
Section PoolClose.

Import Pool.

Context {T : Type}.

(** One for a worker that has not run its deferred [p.wg.Done()]. *)
Definition worker_alive (c : worker_pc (T:=T)) : nat :=
  match c with
  | worker_returned => 0
  | _ => 1
  end.

(** How far [Close] has come, read off the two channels and the workers. *)
Record inv (s : state (T:=T)) : Prop := mkInv {
  inv_wg : wg (pool s) = sum_list (worker_alive <$> worker_pcs s);
  inv_done : closing s ≠ close_not_called → closed (done (pool s)) = true;
  inv_queue : closing s = close_queue_closed ∨ closing s = close_returned →
              closed (taskQueue (pool s)) = true;
  inv_returned : closing s = close_returned →
                 Forall (λ c, c = worker_returned) (worker_pcs s)
}.

End PoolClose.
End PoolClose.

(** *** All, continued: an input that is rejected *)

Module AllMore.
Section AllMore.

Import All.

Context {T : Type}.
Variable promises : list nat.

(** Where the observer [idx] of input [a] stands when that input settles
    with [r]. *)
Definition slot_settled (s : state (T:=T)) (idx a : nat) (r : Result T) : Prop :=
  match observers s !! idx with
  | Some at_Await => delivers (the_world s) a r
  | Some (got val err) => val = Value r ∧ err = Err r
  | Some at_deferred_Done | Some returned => True
  | None => False
  end.

Definition past_body (c : pc (T:=T)) : Prop :=
  c = at_deferred_Done ∨ c = returned.

(** What holds in every reachable state when the inputs settle with [rs]
    and the input at index [k] is rejected. *)
Record inv_rejecting (rs : list (Result T)) (k : nat) (s : state (T:=T)) : Prop :=
  mkInvRejecting {
  invj_slots : ∀ idx a r,
      promises !! idx = Some a → rs !! idx = Some r → slot_settled s idx a r;
  invj_k : ∀ c, observers s !! k = Some c → past_body c → errOnce s = true;
  invj_closed : errOnce s = true →
                ∃ idx r e, rs !! idx = Some r ∧ Err r = Some e
                           ∧ rejected_with [] e (out s)
}.

End AllMore.
End AllMore.

(** *** Any, continued: an input that is fulfilled *)

Module AnyMore.
Section AnyMore.

Import Any.

Context {T : Type}.
Variable promises : list nat.

Definition slot_settled (s : state (T:=T)) (idx a : nat) (r : Result T) : Prop :=
  match observers s !! idx with
  | Some at_Await => delivers (the_world s) a r
  | Some (got val err) => val = Value r ∧ err = Err r
  | Some (counted allRejected) => allRejected = false ∧ Err r ≠ None
  | Some returned => True
  | None => False
  end.

(** What holds in every reachable state when the inputs settle with [rs]
    and the input at index [k] is fulfilled. *)
Record inv_fulfilling (rs : list (Result T)) (k : nat) (s : state (T:=T)) : Prop :=
  mkInvFulfilling {
  invg_slots : ∀ idx a r,
      promises !! idx = Some a → rs !! idx = Some r → slot_settled s idx a r;
  invg_k : observers s !! k = Some returned →
           once_guard s = true
           ∧ rejectedCount s + sum_list (slack <$> observers s) < length promises;
  invg_closed : once_guard s = true →
                ∃ idx r, rs !! idx = Some r ∧ Err r = None
                         ∧ fulfilled_with (Value r) (out s)
}.

End AnyMore.
End AnyMore.

(** *** Race over inputs that never settle *)

(** The input at address [a] never settles: its channel is as [make] left
    it and no producer is about to send on it. *)
Definition never_settles {T : Type} (w : world T) (a : nat) : Prop :=
  ∃ p, heap w !! a = Some p ∧ unsettled p ∧ ∀ r, producers w !! a ≠ Some (Some r).

Module RaceMore.
Section RaceMore.

Import Race.

Context {T : Type}.
Variable zero : T.
Variable ctx : Context.
Variable promises : list nat.

(** What holds in every reachable state when no input ever settles: an
    observer gets past its [Await] only through the token. *)
Record inv_pending (s : state (T:=T)) : Prop := mkInvPending {
  invp_inputs : ∀ a, a ∈ promises → never_settles (the_world s) a;
  invp_got : ∀ idx val err,
      observers s !! idx = Some (got val err) →
      val = zero ∧ err = ctx_Err ctx ∧ is_Some (ctx_Err ctx);
  invp_closed : once_guard s = true →
                ∃ e, ctx_Err ctx = Some e ∧ rejected_with zero e (out s)
}.

End RaceMore.
End RaceMore.
(** * Properties *)

(** ** Promises *)

Section PromiseFacts.

Context {T : Type}.
Variable zero : T.

Lemma once_send_fresh (r : Result T) :
  once_send r new_promise = Some (mkPromise (mkChan [r] 1 false) true).
Proof. reflexivity. Qed.

Lemma once_send_done (r : Result T) (p : Promise T) :
  once p = true → once_send r p = Some p.
Proof. intros Hp. unfold once_send. by rewrite Hp. Qed.

Lemma invoke_done (c : callback T) (p : Promise T) :
  once p = true → invoke zero c p = Some p.
Proof. destruct c; apply once_send_done. Qed.

Lemma invoke_all_done (cs : list (callback T)) (p : Promise T) :
  once p = true → invoke_all zero cs p = Some p.
Proof.
  intros Hp. induction cs as [|c cs IH]; [done|].
  cbn [invoke_all]. by rewrite invoke_done.
Qed.

Lemma invoke_fresh (c : callback T) :
  invoke zero c new_promise
  = Some (mkPromise (mkChan [result_of zero c] 1 false) true).
Proof. by destruct c. Qed.

(** C5.  Whichever callback of an executor-made promise is invoked first
    settles it with that outcome; every later invocation, before or after a
    reader took the settlement, leaves the promise as it is. *)
Theorem executor_first_callback_wins (c : callback T) (cs : list (callback T)) :
  NewPromiseWithExecutor zero (c :: cs) (Returns ())
  = Finished (mkPromise (mkChan [result_of zero c] 1 false) true)
  ∧ (∀ (p : Promise T) (c' : callback T), once p = true → invoke zero c' p = Some p).
Proof.
  split; [|intros p c'; apply invoke_done].
  unfold NewPromiseWithExecutor, NewPromiseWithExecutor_goroutine.
  cbn [invoke_all]. rewrite invoke_fresh. by rewrite invoke_all_done.
Qed.

Lemma Await_ready_unsettled (p : Promise T) (ctx : Context) :
  unsettled p →
  Await_ready p ctx = if ctx_Done ctx then [case_ctx_done] else [].
Proof. unfold unsettled, Await_ready. by intros ->. Qed.

Lemma Await_ready_holds (r : Result T) (p : Promise T) (ctx : Context) :
  holds r p →
  Await_ready p ctx = case_result :: (if ctx_Done ctx then [case_ctx_done] else []).
Proof. unfold holds, Await_ready. by intros ->. Qed.

Lemma Await_unsettled (pick : await_case) (p p' : Promise T) (ctx : Context) res :
  unsettled p →
  Await zero pick p ctx = Some (p', res) →
  p' = p ∧ res = (zero, ctx_Err ctx) ∧ is_Some (ctx_Err ctx).
Proof.
  unfold unsettled, Await. intros Hp. destruct pick.
  - by rewrite Hp.
  - unfold ctx_Done. case_bool_decide; [|done]. by intros [= <- <-].
Qed.

Lemma Await_holds (r : Result T) (p : Promise T) (ctx : Context) :
  holds r p →
  Await zero case_result p ctx
  = Some (mkPromise (make_chan 1) (once p), (Value r, Err r)).
Proof. unfold holds, Await. by intros ->. Qed.

(** C4, as the code has it.  With a token that has already fired, [Await] on
    a promise that has not settled returns the cancellation error at once
    and leaves the promise alone; on a promise whose settlement is waiting in
    the channel both cases of the [select] can proceed, so either the
    settlement or the cancellation error is returned. *)
Theorem Await_fired_token (p : Promise T) (ctx : Context) :
  ctx_Done ctx = true →
  (unsettled p →
     Await_ready p ctx = [case_ctx_done]
     ∧ Await zero case_ctx_done p ctx = Some (p, (zero, ctx_Err ctx))
     ∧ is_Some (ctx_Err ctx))
  ∧ (∀ r, holds r p →
       Await_ready p ctx = [case_result; case_ctx_done]
       ∧ Await zero case_result p ctx
         = Some (mkPromise (make_chan 1) (once p), (Value r, Err r))
       ∧ Await zero case_ctx_done p ctx = Some (p, (zero, ctx_Err ctx))).
Proof.
  intros Hctx. split.
  - intros Hp. rewrite (Await_ready_unsettled _ _ Hp), Hctx.
    unfold Await. rewrite Hctx. repeat split.
    unfold ctx_Done in Hctx. by case_bool_decide.
  - intros r Hr. rewrite (Await_ready_holds _ _ _ Hr), Hctx.
    rewrite (Await_holds _ _ _ Hr). unfold Await. by rewrite Hctx.
Qed.

Lemma chain_end_src (src src' out' : Promise T) (o : option (Promise T)) :
  chain_end src o = Finished (src', out') → src' = src.
Proof. destruct o; [by intros [= <- _]|done]. Qed.

(** C10.  A settlement is received once.  The first [Await] on a settled
    promise returns the settlement and empties the channel; from then on no
    [Await] on that promise can return anything but the error of its own
    token, and it blocks as long as that token has not fired; callbacks of
    an executor-made promise do not refill the channel.  The goroutines of
    [Then], [Map], [Catch] and [Finally] take the source's settlement in the
    same way: whenever their function returns they finish with the source
    emptied and the new promise settled from what they received, and they
    cannot finish in any other way. *)
Theorem Await_consumes_settlement (r : Result T) (p : Promise T) :
  holds r p →
  let p' := mkPromise (make_chan 1) (once p) in
  Await_ready p context_Background = [case_result]
  ∧ Await zero case_result p context_Background = Some (p', (Value r, Err r))
  ∧ (∀ ctx, ctx_Done ctx = false → Await_ready p' ctx = [])
  ∧ (∀ ctx pick p'' res,
       Await zero pick p' ctx = Some (p'', res) →
       p'' = p' ∧ res = (zero, ctx_Err ctx) ∧ is_Some (ctx_Err ctx))
  ∧ (∀ c, once p = true → invoke zero c p' = Some p')
  ∧ (∀ fn out src' out',
       Then_goroutine zero fn p out = Finished (src', out') → src' = p')
  ∧ (∀ fn out src' out',
       Map_goroutine zero fn p out = Finished (src', out') → src' = p')
  ∧ (∀ fn out src' out',
       Catch_goroutine zero fn p out = Finished (src', out') → src' = p')
  ∧ (∀ fn out src' out',
       Finally_goroutine zero fn p out = Finished (src', out') → src' = p')
  ∧ (∀ fn, Then_goroutine zero (λ v, Returns (fn v)) p new_promise
           = Finished (p', mkPromise (mkChan [match Err r with
                                              | Some e => mkResult zero (Some e)
                                              | None =>
                                                  match fn (Value r) with
                                                  | Some e => mkResult zero (Some e)
                                                  | None => mkResult (Value r) None
                                                  end
                                              end] 1 false) true))
  ∧ (∀ fn, Map_goroutine zero (λ v, Returns (fn v)) p new_promise
           = Finished (p', mkPromise (mkChan [match Err r with
                                              | Some e => mkResult zero (Some e)
                                              | None =>
                                                  match fn (Value r) with
                                                  | (_, Some e) => mkResult zero (Some e)
                                                  | (newVal, None) => mkResult newVal None
                                                  end
                                              end] 1 false) true))
  ∧ (∀ fn, Catch_goroutine zero (λ e, Returns (fn e)) p new_promise
           = Finished (p', mkPromise (mkChan [match Err r with
                                              | Some e0 =>
                                                  match fn e0 with
                                                  | (_, Some e) => mkResult zero (Some e)
                                                  | (newVal, None) => mkResult newVal None
                                                  end
                                              | None => mkResult (Value r) None
                                              end] 1 false) true))
  ∧ Finally_goroutine zero (Returns ()) p new_promise
    = Finished (p', mkPromise (mkChan [match Err r with
                                       | Some e => mkResult zero (Some e)
                                       | None => mkResult (Value r) None
                                       end] 1 false) true).
Proof.
  intros Hr p'.
  assert (Hp' : unsettled p') by done.
  split_and!.
  - by rewrite (Await_ready_holds _ _ _ Hr).
  - apply (Await_holds _ _ _ Hr).
  - intros ctx Hctx. by rewrite (Await_ready_unsettled _ _ Hp'), Hctx.
  - intros ctx pick p'' res. by apply Await_unsettled.
  - intros c Hp. by apply invoke_done.
  - intros fn out src' out'. unfold Then_goroutine.
    rewrite (Await_holds _ _ _ Hr).
    destruct (Err r); [apply chain_end_src|].
    destruct (fn (Value r)) as [[e|]|]; try done; apply chain_end_src.
  - intros fn out src' out'. unfold Map_goroutine.
    rewrite (Await_holds _ _ _ Hr).
    destruct (Err r); [apply chain_end_src|].
    destruct (fn (Value r)) as [[v [e|]]|]; try done; apply chain_end_src.
  - intros fn out src' out'. unfold Catch_goroutine.
    rewrite (Await_holds _ _ _ Hr).
    destruct (Err r) as [e0|]; [|apply chain_end_src].
    destruct (fn e0) as [[v [e|]]|]; try done; apply chain_end_src.
  - intros fn out src' out'. unfold Finally_goroutine.
    rewrite (Await_holds _ _ _ Hr).
    destruct fn; [|done]. destruct (Err r); apply chain_end_src.
  - intros fn. unfold Then_goroutine. rewrite (Await_holds _ _ _ Hr).
    destruct (Err r); [done|]. by destruct (fn (Value r)).
  - intros fn. unfold Map_goroutine. rewrite (Await_holds _ _ _ Hr).
    destruct (Err r); [done|]. by destruct (fn (Value r)) as [newVal [e|]].
  - intros fn. unfold Catch_goroutine. rewrite (Await_holds _ _ _ Hr).
    destruct (Err r) as [e0|]; [|done]. by destruct (fn e0) as [newVal [e|]].
  - unfold Finally_goroutine. rewrite (Await_holds _ _ _ Hr).
    by destruct (Err r).
Qed.

End PromiseFacts.

(** ** Worker pool *)

Section PoolFacts.

Import Pool.

Context {T : Type}.
Variable zero : T.

Lemma invoke_all_fresh (cs : list (callback T)) :
  is_Some (invoke_all zero cs new_promise).
Proof.
  destruct cs as [|c cs]; [by eexists|].
  cbn [invoke_all]. rewrite invoke_fresh, invoke_all_done; [by eexists|done].
Qed.

Lemma heap_send_unsettled (h : list (Promise T)) (a : nat) (p : Promise T) (r : Result T) :
  h !! a = Some p → unsettled p →
  heap_send a r h = Normal (<[a := mkPromise (mkChan [r] 1 false) (once p)]> h).
Proof. unfold heap_send, unsettled. by intros -> ->. Qed.

Lemma executeTask_panicking (t : task (T:=T)) (h : list (Promise T)) (p : Promise T) :
  fn t = Panics → h !! ch t = Some p → unsettled p →
  executeTask zero t h
  = Normal (<[ch t := mkPromise (mkChan [mkResult zero (Some ErrTaskPanicked)] 1 false)
                                (once p)]> h).
Proof.
  intros Hfn Hh Hp. unfold executeTask, executeTask_body. rewrite Hfn.
  by apply heap_send_unsettled.
Qed.

Lemma executeTask_returning (t : task (T:=T)) (h : list (Promise T)) (p : Promise T) val err :
  fn t = Returns (val, err) → h !! ch t = Some p → unsettled p →
  executeTask zero t h
  = Normal (<[ch t := mkPromise (mkChan [mkResult val err] 1 false) (once p)]> h).
Proof.
  intros Hfn Hh Hp. unfold executeTask, executeTask_body. rewrite Hfn.
  by rewrite (heap_send_unsettled _ _ _ _ Hh Hp).
Qed.

(** C1, as the code has it.  A panic of a work function run by a pool worker
    is recovered in [executeTask]: the task's promise receives
    [ErrTaskPanicked], the process goes on and the worker is back at its
    [select].  The goroutines of [NewPromise] and [NewPromiseWithExecutor]
    have no deferred recovery: a panic of their function ends the process. *)
Theorem panic_recovered_in_worker_only
    (s : state (T:=T)) (w : nat) (t : task) (p : Promise T) :
  crashed s = false →
  worker_pcs s !! w = Some (worker_execute t) →
  fn t = Panics →
  promises s !! ch t = Some p →
  unsettled p →
  step zero (ev_execute w) s
  = Some (mkState (pool s)
            (<[ch t := mkPromise (mkChan [mkResult zero (Some ErrTaskPanicked)] 1 false)
                                 (once p)]> (promises s))
            (<[w := worker_select]> (worker_pcs s)) (submit_pcs s) (closing s) false)
  ∧ NewPromise (T:=T) Panics = ProcessCrash
  ∧ (∀ calls, NewPromiseWithExecutor zero calls Panics = ProcessCrash).
Proof.
  intros Hc Hw Hfn Hh Hp. split_and!.
  - unfold step, execute_step. rewrite Hc, Hw.
    rewrite (executeTask_panicking _ _ _ Hfn Hh Hp).
    unfold set_worker, set_promises. cbn. by rewrite Hc.
  - done.
  - intros calls. unfold NewPromiseWithExecutor, NewPromiseWithExecutor_goroutine.
    by destruct (invoke_all_fresh calls) as [p' ->].
Qed.

(** C2, on the code.  Once [Close] has closed [taskQueue], the [select] of a
    later [Submit] has two cases that can proceed: receiving from [done]
    delivers [ErrPoolClosed], and sending on the closed [taskQueue] panics
    in a goroutine without recovery. *)
Theorem Submit_on_closed_pool (s : state (T:=T)) (f : call_outcome (T * option error)) :
  crashed s = false →
  closed (done (pool s)) = true →
  closed (taskQueue (pool s)) = true →
  let s1 := Submit f s in
  let i := length (submit_pcs s) in
  let a := length (promises s) in
  step zero (ev_submit i case_taskQueue) s1 = Some (crash s1)
  ∧ step zero (ev_submit i case_done) s1
    = Some (mkState (pool s)
              (promises s ++ [mkPromise (mkChan [mkResult zero (Some ErrPoolClosed)] 1 false)
                                       false])
              (worker_pcs s) (submit_pcs s ++ [submit_returned]) (closing s) false).
Proof.
  intros Hc Hd Hq s1 i a.
  assert (Hi : submit_pcs s1 !! i = Some (submit_select (mkTask f a))).
  { subst s1 i. cbn. by rewrite lookup_app_r, Nat.sub_diag. }
  split.
  - unfold step, submit_step. cbn [crashed s1 Submit]. rewrite Hc.
    fold s1. rewrite Hi. unfold chan_send. cbn. by rewrite Hq.
  - assert (Hsend : heap_send a (mkResult zero (Some ErrPoolClosed)) (promises s1)
                     = Normal (promises s ++ [mkPromise
                         (mkChan [mkResult zero (Some ErrPoolClosed)] 1 false) false])).
    { unfold heap_send. subst s1 a. unfold Submit. cbn.
      rewrite lookup_app_r, Nat.sub_diag by done. cbn.
      by rewrite insert_app_r_alt, Nat.sub_diag by done. }
    unfold step, submit_step. cbn [crashed s1 Submit]. rewrite Hc.
    fold s1. rewrite Hi. cbn [ch]. rewrite Hsend.
    assert (Hrecv : chan_recv (done (pool s1)) ≠ RecvBlocks).
    { subst s1. cbn [pool Submit]. unfold chan_recv. rewrite Hd.
      by destruct (buf (done (pool s))). }
    unfold set_submit, set_promises. subst s1 i. cbn.
    cbn in Hrecv. rewrite insert_app_r_alt, Nat.sub_diag by done. cbn.
    rewrite Hc. by destruct (chan_recv (done (pool s))).
Qed.

Lemma abandoned_step (a : nat) (e : event) (s s' : state (T:=T)) :
  abandoned a s → step zero e s = Some s' → abandoned a s'.
Proof.
  intros [Hw Hc Hq Hp Hs] Hstep. unfold step in Hstep.
  destruct (crashed s); [done|].
  destruct e as [f|i pick|w pick|w|].
  - simplify_eq. unfold Submit. constructor; cbn; try done.
    + apply lookup_app_l_Some. done.
    + intros i t Hi. apply lookup_app_Some in Hi as [Hi|[_ Hi]]; [by eapply Hs|].
      apply list_lookup_singleton_Some in Hi as [_ Hi]. simplify_eq. cbn.
      apply lookup_lt_Some in Hp. lia.
  - unfold submit_step in Hstep.
    destruct (submit_pcs s !! i) as [[t|]|] eqn:Hi; try done.
    assert (Hother : ∀ j t', <[i:=submit_returned]> (submit_pcs s) !! j
                             = Some (submit_select t') → ch t' ≠ a).
    { intros j t' Hj. destruct (decide (j = i)) as [->|Hne].
      - rewrite list_lookup_insert_eq in Hj by by eapply lookup_lt_Some. done.
      - rewrite list_lookup_insert_ne in Hj by done. by eapply Hs. }
    destruct pick.
    + destruct (chan_recv (done (pool s))); try done;
        unfold heap_send in Hstep;
        destruct (promises s !! ch t) as [p|] eqn:Hch; try done;
        destruct (chan_send (resultChan p) _); simplify_eq;
        constructor; cbn; try done;
        rewrite list_lookup_insert_ne; [done|by eapply Hs|done|by eapply Hs].
    + unfold chan_send in Hstep. rewrite Hq in Hstep. simplify_eq.
      by constructor.
  - unfold worker_step in Hstep.
    destruct (worker_pcs s !! w) as [c|] eqn:Hc'; [|done].
    by rewrite (Forall_lookup_1 _ _ _ _ Hw Hc') in Hstep.
  - unfold execute_step in Hstep.
    destruct (worker_pcs s !! w) as [c|] eqn:Hc'; [|done].
    by rewrite (Forall_lookup_1 _ _ _ _ Hw Hc') in Hstep.
  - unfold Close_step in Hstep. by rewrite Hc in Hstep.
Qed.

Lemma abandoned_run (a : nat) (sched : list event) (s s' : state (T:=T)) :
  abandoned a s → run zero sched s = Some s' → abandoned a s'.
Proof.
  revert s. induction sched as [|e sched IH]; intros s Hab Hrun; cbn in Hrun.
  - by simplify_eq.
  - destruct (step zero e s) as [s1|] eqn:Hstep; [|done].
    eapply IH; [|done]. by eapply abandoned_step.
Qed.

(** C3, on the code.  A worker that finds [done] closed may return from its
    [select] although a task is queued: here [Close] returns with the task
    still in the queue and no worker left, and whatever happens afterwards
    the task's promise is never settled.  A [Submit] between the two [close]
    calls is still admitted. *)
Theorem Close_may_leave_queued_task (f : call_outcome (T * option error)) :
  let dropped :=
    mkState (mkPool (mkChan [mkTask f 0] 2 true) 0 (mkChan [] 0 true) 1)
            [new_promise] [worker_returned] [submit_returned]
            close_returned false in
  run zero [ev_Submit f; ev_submit 0 case_taskQueue;
            ev_Close; ev_worker 0 case_done; ev_Close; ev_Close] (NewWorkerPool 1)
  = Some dropped
  ∧ (∀ sched s, run zero sched dropped = Some s →
                promises s !! 0 = Some new_promise)
  ∧ run zero [ev_Close; ev_Submit f; ev_submit 0 case_taskQueue] (NewWorkerPool 1)
    = Some (mkState (mkPool (mkChan [mkTask f 0] 2 false) 1 (mkChan [] 0 true) 1)
                    [new_promise] [worker_select] [submit_returned]
                    close_done_closed false).
Proof.
  intros dropped. split_and!; [reflexivity| |reflexivity].
  intros sched s Hrun. eapply (ab_promise 0). eapply abandoned_run; [|done].
  constructor; cbn; try done.
  - by repeat constructor.
  - by intros [|[|i]] t.
Qed.

End PoolFacts.

(** ** Sequence *)

Section SequenceFacts.

Import Sequence.

Context {T : Type}.
Variable zero : T.
Variable prefer : nat → await_case.

Abbreviation loop := (loop zero context_Background prefer).


Lemma settled_input_other (w : world T) (a b : nat) (r : Result T) (p : Promise T) :
  a ≠ b →
  settled_input w b r →
  settled_input (mkWorld (<[a := p]> (heap w)) (producers w)) b r.
Proof.
  intros Hab (q & Hq & Hr). exists q. split; [|done].
  cbn. by rewrite list_lookup_insert_ne.
Qed.





End SequenceFacts.

(** ** Inputs of the combinators *)

Section WorldFacts.

Context {T : Type}.
Variable zero : T.

Lemma sum_list_insert {A : Type} (f : A → nat) (l : list A) (i : nat) (x y : A) :
  l !! i = Some x →
  sum_list (f <$> <[i := y]> l) + f x = sum_list (f <$> l) + f y.
Proof.
  revert i. induction l as [|z l IH]; intros [|i] Hi; simplify_eq/=; [lia|].
  specialize (IH i Hi). lia.
Qed.

Lemma sum_list_zero_lookup {A : Type} (f : A → nat) (l : list A) (i : nat) (x : A) :
  sum_list (f <$> l) = 0 → l !! i = Some x → f x = 0.
Proof.
  revert i. induction l as [|z l IH]; intros [|i] Hs Hi; simplify_eq/=; [lia|].
  apply (IH i); [lia|done].
Qed.

Lemma settle_delivers (a b : nat) (w w' : world T) (r : Result T) :
  settle a w = Some w' → delivers w b r → delivers w' b r.
Proof.
  unfold settle. intros Hs (p & Hp & Hd).
  destruct (producers w !! a) as [[r0|]|] eqn:Hpa; try done.
  destruct (heap w !! a) as [p0|] eqn:Hha; try done.
  destruct (chan_send (resultChan p0) r0) as [c| |] eqn:Hsend; try done.
  injection Hs as <-. destruct (decide (a = b)) as [->|Hab].
  - rewrite Hp in Hha. injection Hha as <-.
    destruct Hd as [[Hpend Hun]|[Hnone _]]; [|congruence].
    rewrite Hpa in Hpend. injection Hpend as ->.
    unfold unsettled in Hun. rewrite Hun in Hsend. cbn in Hsend. injection Hsend as <-.
    eexists. split; [cbn; apply list_lookup_insert_eq; by eapply lookup_lt_Some|].
    right. split; [|done]. cbn. apply list_lookup_insert_eq. by eapply lookup_lt_Some.
  - exists p. cbn. rewrite !list_lookup_insert_ne by done. done.
Qed.

Lemma settle_pending (a : nat) (w w' : world T) :
  settle a w = Some w' →
  S (sum_list (pending_weight <$> producers w'))
  = sum_list (pending_weight <$> producers w).
Proof.
  unfold settle. intros Hs.
  destruct (producers w !! a) as [[r0|]|] eqn:Hpa; try done.
  destruct (heap w !! a) as [p0|] eqn:Hha; try done.
  destruct (chan_send (resultChan p0) r0) as [c| |] eqn:Hsend; try done.
  injection Hs as <-. cbn.
  pose proof (sum_list_insert pending_weight _ _ _ None Hpa) as H. cbn in H. lia.
Qed.

Lemma Await_at_producers (pick : await_case) (a : nat) (ctx : Context)
    (w w' : world T) res :
  Await_at zero pick a ctx w = Some (w', res) → producers w' = producers w.
Proof.
  unfold Await_at. intros H. repeat case_match; by simplify_eq.
Qed.

Lemma Await_at_delivers_other (pick : await_case) (a b : nat) (ctx : Context)
    (w w' : world T) res (r : Result T) :
  Await_at zero pick a ctx w = Some (w', res) →
  a ≠ b → delivers w b r → delivers w' b r.
Proof.
  unfold Await_at. intros H Hab (p & Hp & Hd).
  repeat case_match; simplify_eq.
  exists p. cbn. by rewrite list_lookup_insert_ne.
Qed.

(** With [context.Background()] an [Await] returns what the input
    delivers. *)
Lemma Await_at_delivers (pick : await_case) (a : nat) (w w' : world T) res
    (r : Result T) :
  Await_at zero pick a context_Background w = Some (w', res) →
  delivers w a r → res = (Value r, Err r).
Proof.
  unfold Await_at. intros H (p & Hp & Hd). rewrite Hp in H.
  destruct pick; [|done]. cbn in H.
  destruct Hd as [[_ Hun]|[_ Hr]].
  - unfold unsettled in Hun. by rewrite Hun in H.
  - unfold holds in Hr. rewrite Hr in H. cbn in H. by simplify_eq.
Qed.

(** An input that delivers lets its producer or its observer take a
    step. *)
Lemma delivers_progress (a : nat) (ctx : Context) (w : world T) (r : Result T) :
  delivers w a r →
  is_Some (settle a w) ∨ is_Some (Await_at zero case_result a ctx w).
Proof.
  intros (p & Hp & [[Hpend Hun]|[_ Hr]]).
  - left. unfold settle. rewrite Hpend, Hp. unfold unsettled in Hun.
    rewrite Hun. by eexists.
  - right. unfold Await_at. rewrite Hp. unfold holds in Hr. cbn.
    rewrite Hr. by eexists.
Qed.

Lemma Forall2_delivers_lookup (w : world T) (promises : list nat)
    (rs : list (Result T)) (idx a : nat) (r : Result T) :
  Forall2 (delivers w) promises rs →
  promises !! idx = Some a → rs !! idx = Some r → delivers w a r.
Proof. intros Hall Ha Hr. by eapply Forall2_lookup_lr. Qed.

End WorldFacts.

(** ** All *)

Section AllFacts.

Import All.

Context {T : Type}.
Variable zero : T.
Variable promises : list nat.

Lemma All_start_inv (ctx : Context) (w : world T) (s : state) :
  start zero promises w = Some s → inv promises s.
Proof.
  unfold start. destruct (length promises =? 0) eqn:Hn.
  - apply Nat.eqb_eq in Hn. intros [= <-]. by constructor.
  - intros [= <-]. constructor; cbn; rewrite ?length_replicate; try done.
    generalize (length promises). induction n as [|n IH]; cbn; congruence.
Qed.

Lemma All_step_inv (ctx : Context) (e : event) (s s' : state) :
  inv promises s → step zero ctx promises e s = Some s' → inv promises s'.
Proof.
  intros [Hobs Hres Hwg Hwait Hfresh Honce] Hstep.
  destruct e as [a|idx pick|idx|idx|]; cbn in Hstep.
  - destruct (settle a (the_world s)); simplify_eq. by constructor.
  - destruct (observers s !! idx) as [[]|] eqn:Hidx; try done.
    destruct (promises !! idx); try done.
    destruct (Await_at zero pick n ctx (the_world s)) as [[w [val err]]|]; simplify_eq.
    constructor; cbn; rewrite ?length_insert; try done.
    pose proof (sum_list_insert alive _ _ _ (got val err) Hidx) as H. cbn in H. lia.
  - destruct (observers s !! idx) as [[|val [err|]| |]|] eqn:Hidx; try done.
    + pose proof (sum_list_insert alive _ _ _ at_deferred_Done Hidx) as H. cbn in H.
      destruct (errOnce s) eqn:HeO.
      * simplify_eq. unfold set_observer.
        constructor; cbn; rewrite ?length_insert; try done; try lia.
        intros HeO'. congruence.
      * destruct (reject [] err (out s)) as [o|] eqn:Hrej; simplify_eq.
        constructor; cbn; rewrite ?length_insert; try done; [lia|].
        intros Ho. unfold reject, once_send in Hrej.
        destruct (once (out s)) eqn:Hos; [simplify_eq; congruence|].
        rewrite (Honce eq_refl) in Hrej. cbn in Hrej. by simplify_eq.
    + simplify_eq.
      pose proof (sum_list_insert alive _ _ _ at_deferred_Done Hidx) as H. cbn in H.
      constructor; cbn; rewrite ?length_insert; try done; lia.
  - destruct (observers s !! idx) as [[]|] eqn:Hidx; try done.
    destruct (wg s =? 0) eqn:Hz; simplify_eq. apply Nat.eqb_neq in Hz.
    pose proof (sum_list_insert alive _ _ _ returned Hidx) as H. cbn in H.
    constructor; cbn; rewrite ?length_insert; try done; [lia|].
    intros Hw. specialize (Hwait Hw). lia.
  - destruct (waiter s) eqn:Hw; try done.
    + destruct (wg s =? 0) eqn:Hz; simplify_eq. apply Nat.eqb_eq in Hz.
      constructor; cbn; try done. intros HeO _. by apply Hfresh.
    + destruct (resolve (results s) (out s)) as [o|] eqn:Hrs; simplify_eq.
      constructor; cbn; try done.
      * intros _. by apply Hwait.
      * intros Ho. unfold resolve, once_send in Hrs.
        destruct (once (out s)) eqn:Hos; [simplify_eq; congruence|].
        rewrite (Honce eq_refl) in Hrs. cbn in Hrs. by simplify_eq.
Qed.




Lemma All_run_app (ctx : Context) (sched1 sched2 : list event) (s : state) :
  run zero ctx promises (sched1 ++ sched2) s
  = run zero ctx promises sched1 s ≫= run zero ctx promises sched2.
Proof.
  revert s. induction sched1 as [|e sched1 IH]; intros s; [done|].
  cbn. destruct (step zero ctx promises e s); [apply IH|done].
Qed.

Lemma All_observers_cases (l : list (pc (T:=T))) :
  Forall (λ c, c = returned) l ∨ ∃ idx c, l !! idx = Some c ∧ c ≠ returned.
Proof.
  induction l as [|c l [IH|(idx & c' & Hidx & Hc')]].
  - by left.
  - destruct c; [right; by exists 0, (at_Await (T:=T))
                |right; by exists 0, (got val err)
                |right; by exists 0, (at_deferred_Done (T:=T))
                |left; by constructor].
  - right. by exists (S idx), c'.
Qed.

Lemma All_returned_alive (l : list (pc (T:=T))) :
  Forall (λ c, c = returned) l → sum_list (alive <$> l) = 0.
Proof. induction 1 as [|c l -> _ IH]; [done|]. cbn. by rewrite IH. Qed.

Lemma All_alive_le (l : list (pc (T:=T))) (idx : nat) (c : pc) :
  l !! idx = Some c → alive c ≤ sum_list (alive <$> l).
Proof.
  intros Hidx. pose proof (sum_list_insert alive _ _ _ returned Hidx) as H.
  cbn in H. lia.
Qed.

Lemma All_step_measure (ctx : Context) (e : event) (s s' : state) :
  step zero ctx promises e s = Some s' → S (measure s') = measure s.
Proof.
  intros Hstep. unfold measure.
  destruct e as [a|idx pick|idx|idx|]; unfold step in Hstep.
  - destruct (settle a (the_world s)) as [w|] eqn:Hs; simplify_eq. cbn.
    apply settle_pending in Hs. lia.
  - destruct (observers s !! idx) as [[]|] eqn:Hidx; try done.
    destruct (promises !! idx) as [a|]; try done.
    destruct (Await_at zero pick a ctx (the_world s)) as [[w [val err]]|] eqn:HA;
      simplify_eq. cbn. rewrite (Await_at_producers _ _ _ _ _ _ _ HA).
    pose proof (sum_list_insert weight _ _ _ (got val err) Hidx) as H. cbn in H. lia.
  - destruct (observers s !! idx) as [[|val [err|]| |]|] eqn:Hidx; try done.
    + pose proof (sum_list_insert weight _ _ _ at_deferred_Done Hidx) as H. cbn in H.
      unfold set_observer in Hstep.
      destruct (errOnce s); [|destruct (reject [] err (out s))];
        simplify_eq; cbn; lia.
    + pose proof (sum_list_insert weight _ _ _ at_deferred_Done Hidx) as H. cbn in H.
      simplify_eq. cbn. lia.
  - destruct (observers s !! idx) as [[]|] eqn:Hidx; try done.
    pose proof (sum_list_insert weight _ _ _ returned Hidx) as H. cbn in H.
    destruct (wg s =? 0); simplify_eq. cbn. lia.
  - destruct (waiter s) eqn:Hw; try done.
    + destruct (wg s =? 0); simplify_eq. cbn. lia.
    + destruct (resolve (results s) (out s)); simplify_eq. cbn. lia.
Qed.

(** *** Inputs that are all fulfilled *)

Section Fulfilled.

Variable vs : list T.
Hypothesis promises_NoDup : NoDup promises.
Hypothesis vs_length : length vs = length promises.

Abbreviation step_bg := (step zero context_Background promises).
Abbreviation run_bg := (run zero context_Background promises).







End Fulfilled.


End AllFacts.

(** ** AllSettled *)

Section AllSettledFacts.

Import AllSettled.

Context {T : Type}.
Variable zero : T.
Variable promises : list nat.








(** *** Inputs that all settle *)

Section Settled.

Variable rs : list (Result T).
Hypothesis promises_NoDup : NoDup promises.
Hypothesis rs_length : length rs = length promises.

Abbreviation step_bg := (step zero context_Background promises).
Abbreviation run_bg := (run zero context_Background promises).








End Settled.


End AllSettledFacts.

(** ** Any *)

Section AnyFacts.

Import Any.

Context {T : Type}.
Variable zero : T.
Variable promises : list nat.

Lemma Any_slack_le (l : list (pc (T:=T))) (idx : nat) (c : pc) :
  l !! idx = Some c → slack c ≤ sum_list (slack <$> l).
Proof.
  intros Hidx. pose proof (sum_list_insert slack _ _ _ returned Hidx) as H.
  cbn in H. lia.
Qed.

Lemma Any_start_inv (w : world T) (s : state) :
  start zero promises w = Some s → inv zero promises s.
Proof.
  unfold start. destruct (length promises =? 0) eqn:Hn.
  - apply Nat.eqb_eq in Hn. intros [= <-]. constructor; cbn; try done. lia.
  - intros [= <-]. constructor; cbn; rewrite ?length_replicate; try done.
    + generalize (length promises). induction n as [|n IH]; cbn; lia.
    + intros idx Hidx. apply lookup_replicate in Hidx as [? _]. done.
Qed.

Lemma Any_step_inv (ctx : Context) (e : event) (s s' : state) :
  inv zero promises s → step zero ctx promises e s = Some s' → inv zero promises s'.
Proof.
  intros [Hobs Hcount Hslack Hcounted Hopen Hclosed] Hstep.
  destruct e as [a|idx pick|idx]; unfold step in Hstep.
  - destruct (settle a (the_world s)); simplify_eq. by constructor.
  - destruct (observers s !! idx) as [[]|] eqn:Hidx; try done.
    destruct (promises !! idx); try done.
    destruct (Await_at zero pick n ctx (the_world s)) as [[w [val err]]|]; simplify_eq.
    pose proof (sum_list_insert slack _ _ _ (got val err) Hidx) as H. cbn in H.
    constructor; cbn; rewrite ?length_insert; try done.
    + lia.
    + intros idx' Hidx'. apply (Hcounted idx').
      destruct (decide (idx' = idx)) as [->|Hne].
      * rewrite list_lookup_insert_eq in Hidx' by by eapply lookup_lt_Some. done.
      * by rewrite list_lookup_insert_ne in Hidx'.
    + intros Hg _. apply Hopen; [done|]. intros Hnil. by rewrite Hnil in Hidx.
  - assert (Hne : observers s ≠ []).
    { intros Hnil. rewrite Hnil in Hstep. done. }
    destruct (observers s !! idx) as [[|val [err|]|[]|]|] eqn:Hidx; try done.
    + (* an error goes into the locked section *)
      simplify_eq.
      pose proof (sum_list_insert slack _ _ _
                    (counted (S (rejectedCount s) =? length promises)) Hidx) as H.
      pose proof (Any_slack_le _ _ _ Hidx) as Hle. cbn in H, Hle.
      constructor; cbn; rewrite ?length_insert, ?length_app; cbn; try done.
      * lia.
      * lia.
      * intros idx' Hidx'. destruct (decide (idx' = idx)) as [->|Hne'].
        -- rewrite list_lookup_insert_eq in Hidx' by by eapply lookup_lt_Some.
           injection Hidx' as Heq.
           destruct (length promises) as [|m]; [done|].
           apply Nat.eqb_eq in Heq. lia.
        -- rewrite list_lookup_insert_ne in Hidx' by done.
           specialize (Hcounted idx' Hidx'). lia.
      * intros Hg _. by apply Hopen.
      * intros Hg. destruct (Hclosed Hg) as [Hv|[Hn _]]; [by left|lia].
    + (* a value goes to the guard *)
      pose proof (sum_list_insert slack _ _ _ returned Hidx) as H. cbn in H.
      assert (Hcounted' : ∀ idx', <[idx:=returned]> (observers s) !! idx'
                                  = Some (counted true) →
                                  rejectedCount s = length promises).
      { intros idx' Hidx'. apply (Hcounted idx').
        destruct (decide (idx' = idx)) as [->|Hne'].
        - rewrite list_lookup_insert_eq in Hidx' by by eapply lookup_lt_Some. done.
        - by rewrite list_lookup_insert_ne in Hidx'. }
      destruct (once_guard s) eqn:Hg.
      * simplify_eq. constructor; cbn; rewrite ?length_insert; try done. lia.
      * rewrite (Hopen eq_refl Hne) in Hstep. cbn in Hstep. simplify_eq.
        constructor; cbn; rewrite ?length_insert; try done; [lia|].
        intros _. left. by eexists.
    + (* the last rejection goes to the guard *)
      pose proof (sum_list_insert slack _ _ _ returned Hidx) as H. cbn in H.
      assert (Hcounted' : ∀ idx', <[idx:=returned]> (observers s) !! idx'
                                  = Some (counted true) →
                                  rejectedCount s = length promises).
      { intros idx' _. by apply (Hcounted idx). }
      destruct (once_guard s) eqn:Hg.
      * simplify_eq. constructor; cbn; rewrite ?length_insert; try done. lia.
      * rewrite (Hopen eq_refl Hne) in Hstep. cbn in Hstep. simplify_eq.
        constructor; cbn; rewrite ?length_insert; try done; [lia|].
        intros _. right. split; [by apply (Hcounted idx)|done].
    + simplify_eq.
      pose proof (sum_list_insert slack _ _ _ returned Hidx) as H. cbn in H.
      constructor; cbn; rewrite ?length_insert; try done; [lia| |].
      * intros idx' Hidx'. apply (Hcounted idx').
        destruct (decide (idx' = idx)) as [->|Hne'].
        -- rewrite list_lookup_insert_eq in Hidx' by by eapply lookup_lt_Some. done.
        -- by rewrite list_lookup_insert_ne in Hidx'.
      * intros Hg _. by apply Hopen.
Qed.




Lemma Any_step_measure (ctx : Context) (e : event) (s s' : state) :
  step zero ctx promises e s = Some s' → measure s' < measure s.
Proof.
  intros Hstep. unfold measure.
  destruct e as [a|idx pick|idx]; unfold step in Hstep.
  - destruct (settle a (the_world s)) as [w|] eqn:Hs; simplify_eq. cbn.
    apply settle_pending in Hs. lia.
  - destruct (observers s !! idx) as [[]|] eqn:Hidx; try done.
    destruct (promises !! idx) as [a|]; try done.
    destruct (Await_at zero pick a ctx (the_world s)) as [[w [val err]]|] eqn:HA;
      simplify_eq. cbn. rewrite (Await_at_producers _ _ _ _ _ _ _ HA).
    pose proof (sum_list_insert weight _ _ _ (got val err) Hidx) as H. cbn in H. lia.
  - destruct (observers s !! idx) as [[|val [err|]|[]|]|] eqn:Hidx; try done.
    + pose proof (sum_list_insert weight _ _ _
                    (counted (S (rejectedCount s) =? length promises)) Hidx) as H.
      cbn in H. simplify_eq. cbn. lia.
    + pose proof (sum_list_insert weight _ _ _ returned Hidx) as H. cbn in H.
      destruct (once_guard s); [|destruct (resolve val (out s))];
        simplify_eq; cbn; lia.
    + pose proof (sum_list_insert weight _ _ _ returned Hidx) as H. cbn in H.
      destruct (once_guard s); [|destruct (reject _ _ (out s))];
        simplify_eq; cbn; lia.
    + pose proof (sum_list_insert weight _ _ _ returned Hidx) as H. cbn in H.
      simplify_eq. cbn. lia.
Qed.


Lemma Any_observers_cases (l : list (pc (T:=T))) :
  Forall (λ c, c = returned) l ∨ ∃ idx c, l !! idx = Some c ∧ c ≠ returned.
Proof.
  induction l as [|c l [IH|(idx & c' & Hidx & Hc')]].
  - by left.
  - destruct c; [right; by exists 0, (at_Await (T:=T))
                |right; by exists 0, (got val err)
                |right; by exists 0, (counted (T:=T) allRejected)
                |left; by constructor].
  - right. by exists (S idx), c'.
Qed.




(** *** Inputs that are all rejected *)

Section Rejected.

Variable rs : list (Result T).
Variable es : list error.
Hypothesis promises_NoDup : NoDup promises.
Hypothesis rs_rejected : Forall2 (λ r e, Err r = Some e) rs es.
Hypothesis rs_length : length rs = length promises.

Abbreviation step_bg := (step zero context_Background promises).
Abbreviation run_bg := (run zero context_Background promises).










End Rejected.



End AnyFacts.

(** * Concrete runs *)

(** C1, at a panicking function.  [NewPromise] and [NewPromiseWithExecutor]
    do not turn the panic into a rejection with [ErrTaskPanicked]: the
    process ends. *)
Lemma NewPromise_panic_crashes :
  NewPromise (T:=nat) Panics = ProcessCrash
  ∧ NewPromiseWithExecutor 0 [] Panics = ProcessCrash
  ∧ ¬ (∃ p, NewPromise (T:=nat) Panics = Finished p
            ∧ rejected_with 0 ErrTaskPanicked p).
Proof.
  split_and!; [reflexivity|reflexivity|].
  intros (p & Hp & _). discriminate Hp.
Qed.

(** The pool with one worker that has taken a panicking task. *)
Lemma panic_recovered_in_worker_only_witness :
  let s := Pool.mkState (Pool.mkPool (mkChan [] 2 false) 1 (make_chan 0) 1)
             [new_promise] [Pool.worker_execute (Pool.mkTask Panics 0)]
             [Pool.submit_returned] Pool.close_not_called false in
  Pool.run 0 [Pool.ev_Submit Panics; Pool.ev_submit 0 Pool.case_taskQueue;
              Pool.ev_worker 0 Pool.case_taskQueue] (Pool.NewWorkerPool 1) = Some s
  ∧ Pool.step 0 (Pool.ev_execute 0) s
    = Some (Pool.mkState (Pool.mkPool (mkChan [] 2 false) 1 (make_chan 0) 1)
              [mkPromise (mkChan [mkResult 0 (Some ErrTaskPanicked)] 1 false) false]
              [Pool.worker_select] [Pool.submit_returned] Pool.close_not_called false).
Proof.
  intros s. split; [reflexivity|].
  apply (panic_recovered_in_worker_only 0 s 0 (Pool.mkTask Panics 0) new_promise);
    reflexivity.
Defined.

(** The pool with one worker after [Close] has returned. *)
Lemma Submit_on_closed_pool_witness :
  let s := Pool.mkState (Pool.mkPool (mkChan [] 2 true) 0 (mkChan [] 0 true) 1)
             [] [Pool.worker_returned] [] Pool.close_returned false in
  let f := Returns (1, None) in
  Pool.run 0 [Pool.ev_Close; Pool.ev_worker 0 Pool.case_done;
              Pool.ev_Close; Pool.ev_Close] (Pool.NewWorkerPool (T:=nat) 1) = Some s
  ∧ Pool.step 0 (Pool.ev_submit 0 Pool.case_taskQueue) (Pool.Submit f s)
    = Some (Pool.crash (Pool.Submit f s)).
Proof.
  intros s f. split; [reflexivity|].
  apply (Submit_on_closed_pool 0 s f); reflexivity.
Defined.

(** C4, at a settled promise.  With the token fired and the settlement
    [(42, nil)] waiting in the channel, the [select] may take the
    settlement: [Await] then returns the value and not the cancellation
    error. *)
Lemma Await_fired_token_returns_value :
  let p := mkPromise (mkChan [mkResult 42 None] 1 false) false in
  let ctx := context_WithCancel (Some context_Canceled) in
  ctx_Done ctx = true
  ∧ case_result ∈ Await_ready p ctx
  ∧ Await 0 case_result p ctx = Some (new_promise, (42, None))
  ∧ ¬ (∀ pick p' res,
         Await 0 pick p ctx = Some (p', res) → res = (0, Some context_Canceled)).
Proof.
  intros p ctx. split_and!; [reflexivity|by left|reflexivity|].
  intros H. specialize (H case_result new_promise (42, None) eq_refl).
  discriminate H.
Qed.

Lemma Await_fired_token_witness :
  let ctx := context_WithCancel (Some context_DeadlineExceeded) in
  let settled := mkPromise (mkChan [mkResult 7 None] 1 false) false in
  Await_ready (T:=nat) new_promise ctx = [case_ctx_done]
  ∧ Await 0 case_ctx_done new_promise ctx
    = Some (new_promise, (0, Some context_DeadlineExceeded))
  ∧ Await_ready settled ctx = [case_result; case_ctx_done]
  ∧ Await 0 case_result settled ctx = Some (new_promise, (7, None))
  ∧ Await 0 case_ctx_done settled ctx
    = Some (settled, (0, Some context_DeadlineExceeded)).
Proof.
  intros ctx settled.
  destruct (Await_fired_token 0 new_promise ctx eq_refl) as [Hpending _].
  destruct (Hpending eq_refl) as (H1 & H2 & _).
  destruct (Await_fired_token 0 settled ctx eq_refl) as [_ Hsettled].
  destruct (Hsettled (mkResult 7 None) eq_refl) as (H3 & H4 & H5).
  exact (conj H1 (conj H2 (conj H3 (conj H4 H5)))).
Defined.

Lemma executor_first_callback_wins_witness :
  NewPromiseWithExecutor 0 [call_reject (errors_New "late"); call_resolve 1;
                            call_resolve 2] (Returns ())
  = Finished (mkPromise (mkChan [mkResult 0 (Some (errors_New "late"))] 1 false) true)
  ∧ invoke 0 (call_resolve 3) (mkPromise (make_chan 1) true)
    = Some (mkPromise (make_chan 1) true).
Proof.
  destruct (executor_first_callback_wins 0 (call_reject (errors_New "late"))
              [call_resolve 1; call_resolve 2]) as [H1 H2].
  exact (conj H1 (H2 (mkPromise (make_chan 1) true) (call_resolve 3) eq_refl)).
Defined.

Lemma Await_consumes_settlement_witness :
  let p := mkPromise (mkChan [mkResult 5 None] 1 false) false in
  Await 0 case_result p context_Background = Some (new_promise, (5, None))
  ∧ Await_ready (T:=nat) new_promise (context_WithCancel None) = []
  ∧ Then_goroutine 0 (λ _, Returns None) p new_promise
    = Finished (new_promise, mkPromise (mkChan [mkResult 5 None] 1 false) true)
  ∧ Map_goroutine 0 (λ v, Returns (v + v, None)) p new_promise
    = Finished (new_promise, mkPromise (mkChan [mkResult 10 None] 1 false) true)
  ∧ Catch_goroutine 0 (λ _, Returns (7, None)) p new_promise
    = Finished (new_promise, mkPromise (mkChan [mkResult 5 None] 1 false) true)
  ∧ Finally_goroutine 0 (Returns ()) p new_promise
    = Finished (new_promise, mkPromise (mkChan [mkResult 5 None] 1 false) true).
Proof.
  intros p.
  destruct (Await_consumes_settlement 0 (mkResult 5 None) p eq_refl)
    as (_ & H2 & H3 & _ & _ & _ & _ & _ & _ & H10 & H11 & H12 & H13).
  exact (conj H2 (conj (H3 (context_WithCancel None) eq_refl)
          (conj (H10 (λ _, None))
          (conj (H11 (λ v, (v + v, None)))
          (conj (H12 (λ _, (7, None))) H13))))).
Defined.

(** Three inputs whose producers have not delivered yet. *)





(** After the task was left behind, a later [Submit] is answered with
    [ErrPoolClosed] and the first promise stays as it was. *)
Lemma Close_may_leave_queued_task_witness :
  let f := Returns (1, None) in
  ∃ s, Pool.run 0
         [Pool.ev_Submit f; Pool.ev_submit 0 Pool.case_taskQueue;
          Pool.ev_Close; Pool.ev_worker 0 Pool.case_done; Pool.ev_Close; Pool.ev_Close;
          Pool.ev_Submit f; Pool.ev_submit 1 Pool.case_done]
         (Pool.NewWorkerPool (T:=nat) 1) = Some s
       ∧ Pool.closing s = Pool.close_returned
       ∧ Pool.queued s = [Pool.mkTask f 0]
       ∧ Pool.promises s !! 0 = Some new_promise.
Proof.
  intros f.
  destruct (Close_may_leave_queued_task 0 f) as (_ & Hnever & _).
  eexists. split; [vm_compute; reflexivity|].
  split; [reflexivity|]. split; [reflexivity|].
  apply (Hnever [Pool.ev_Submit f; Pool.ev_submit 1 Pool.case_done]).
  vm_compute. reflexivity.
Defined.


(** * Further properties *)

(** ** Race *)

Section RaceFacts.

Import Race.

Context {T : Type}.
Variable zero : T.
Variable promises : list nat.

Lemma Race_observers_cases (l : list (pc (T:=T))) :
  Forall (λ c, c = returned) l ∨ ∃ idx c, l !! idx = Some c ∧ c ≠ returned.
Proof.
  induction l as [|c l [IH|(idx & c' & Hidx & Hc')]].
  - by left.
  - destruct c; [right; by exists 0, (at_Await (T:=T))
                |right; by exists 0, (got val err)
                |left; by constructor].
  - right. by exists (S idx), c'.
Qed.

Lemma Race_start_inv (w : world T) (s : state) :
  start zero promises w = Some s → inv promises s.
Proof.
  unfold start. destruct (length promises =? 0) eqn:Hn.
  - apply Nat.eqb_eq in Hn. intros [= <-]. by constructor.
  - intros [= <-]. constructor; cbn; rewrite ?length_replicate; try done.
    intros idx Hidx. apply lookup_replicate in Hidx as [? _]. done.
Qed.

Lemma Race_settle_fresh (val : T) (err : option error) :
  match err with
  | Some e => reject zero e new_promise
  | None => resolve val new_promise
  end = Some (mkPromise (mkChan [settlement zero val err] 1 false) true).
Proof. by destruct err. Qed.

Lemma Race_step_inv (ctx : Context) (e : event) (s s' : state) :
  inv promises s → step zero ctx promises e s = Some s' → inv promises s'.
Proof.
  intros [Hobs Hopen Hret] Hstep.
  destruct e as [a|idx pick|idx]; unfold step in Hstep.
  - destruct (settle a (the_world s)); simplify_eq. by constructor.
  - destruct (observers s !! idx) as [[]|] eqn:Hidx; try done.
    destruct (promises !! idx); try done.
    destruct (Await_at zero pick n ctx (the_world s)) as [[w [val err]]|]; simplify_eq.
    constructor; cbn; rewrite ?length_insert; try done.
    + intros Hg _. apply Hopen; [done|]. intros Hnil. by rewrite Hnil in Hidx.
    + intros idx' Hidx'. apply (Hret idx').
      destruct (decide (idx' = idx)) as [->|Hne].
      * rewrite list_lookup_insert_eq in Hidx' by by eapply lookup_lt_Some. done.
      * by rewrite list_lookup_insert_ne in Hidx'.
  - assert (Hne : observers s ≠ []).
    { intros Hnil. rewrite Hnil in Hstep. done. }
    destruct (observers s !! idx) as [[|val err|]|] eqn:Hidx; try done.
    destruct (once_guard s) eqn:Hg.
    + simplify_eq. constructor; cbn; rewrite ?length_insert; done.
    + rewrite (Hopen eq_refl Hne), Race_settle_fresh in Hstep. simplify_eq.
      constructor; cbn; rewrite ?length_insert; done.
Qed.

Lemma Race_run_inv (ctx : Context) (sched : list event) (s s' : state) :
  inv promises s → run zero ctx promises sched s = Some s' → inv promises s'.
Proof.
  revert s. induction sched as [|e sched IH]; intros s Hinv Hrun; cbn in Hrun.
  - by simplify_eq.
  - destruct (step zero ctx promises e s) as [s1|] eqn:Hstep; [|done].
    eapply IH; [|done]. by eapply Race_step_inv.
Qed.

Lemma Race_step_out_settled (ctx : Context) (e : event) (s s' : state) :
  once (out s) = true → step zero ctx promises e s = Some s' → out s' = out s.
Proof.
  intros Ho Hstep. destruct e as [a|idx pick|idx]; unfold step in Hstep.
  - destruct (settle a (the_world s)); by simplify_eq.
  - repeat case_match; by simplify_eq.
  - destruct (observers s !! idx) as [[|val err|]|]; try done.
    destruct (once_guard s); [by simplify_eq|].
    unfold reject, resolve in Hstep.
    destruct err; rewrite (once_send_done _ _ Ho) in Hstep; by simplify_eq.
Qed.

Lemma Race_run_out_settled (ctx : Context) (sched : list event) (s s' : state) :
  once (out s) = true → run zero ctx promises sched s = Some s' → out s' = out s.
Proof.
  revert s. induction sched as [|e sched IH]; intros s Ho Hrun; cbn in Hrun.
  - by simplify_eq.
  - destruct (step zero ctx promises e s) as [s1|] eqn:Hstep; [|done].
    pose proof (Race_step_out_settled _ _ _ _ Ho Hstep) as H1.
    rewrite <- H1. apply IH; [by rewrite H1|done].
Qed.

Lemma Race_step_measure (ctx : Context) (e : event) (s s' : state) :
  step zero ctx promises e s = Some s' → S (measure s') = measure s.
Proof.
  intros Hstep. unfold measure.
  destruct e as [a|idx pick|idx]; unfold step in Hstep.
  - destruct (settle a (the_world s)) as [w|] eqn:Hs; simplify_eq. cbn.
    apply settle_pending in Hs. lia.
  - destruct (observers s !! idx) as [[]|] eqn:Hidx; try done.
    destruct (promises !! idx) as [a|]; try done.
    destruct (Await_at zero pick a ctx (the_world s)) as [[w [val err]]|] eqn:HA;
      simplify_eq. cbn. rewrite (Await_at_producers _ _ _ _ _ _ _ HA).
    pose proof (sum_list_insert weight _ _ _ (got val err) Hidx) as H. cbn in H. lia.
  - destruct (observers s !! idx) as [[|val err|]|] eqn:Hidx; try done.
    pose proof (sum_list_insert weight _ _ _ returned Hidx) as H. cbn in H.
    destruct (once_guard s); [simplify_eq; cbn; lia|].
    destruct (match err with Some e => _ | None => _ end); simplify_eq. cbn. lia.
Qed.

(** The first observer at the open guard settles [Race] with what its
    [Await] returned, a value or an error, and no later step changes the
    result; with no input [Race] fulfills at once with the zero value. *)
Theorem Race_first_settled_wins (w : world T) :
  Race.start zero [] w
  = Some (mkState w [] false (mkPromise (mkChan [mkResult zero None] 1 false) true))
  ∧ (∀ ctx s0 sched s idx val err,
       start zero promises w = Some s0 →
       run zero ctx promises sched s0 = Some s →
       observers s !! idx = Some (got val err) →
       once_guard s = false →
       ∃ s', step zero ctx promises (ev_body idx) s = Some s'
             ∧ holds (settlement zero val err) (out s')
             ∧ ∀ sched' s'',
                 run zero ctx promises sched' s' = Some s'' → out s'' = out s').
Proof.
  split; [done|].
  intros ctx s0 sched s idx val err Hs0 Hrun Hidx Hg.
  pose proof (Race_start_inv w s0 Hs0) as Hinv0.
  pose proof (Race_run_inv ctx sched s0 s Hinv0 Hrun) as Hinv.
  assert (Hne : observers s ≠ []).
  { intros Hnil. by rewrite Hnil in Hidx. }
  eexists. split_and!.
  - unfold step. rewrite Hidx, Hg, (inv_open _ _ Hinv Hg Hne), Race_settle_fresh.
    done.
  - done.
  - intros sched' s'' Hrun'. by eapply Race_run_out_settled.
Qed.

(** *** Inputs that all settle *)

Section Settled.

Variable rs : list (Result T).
Hypothesis promises_NoDup : NoDup promises.
Hypothesis rs_length : length rs = length promises.

Abbreviation step_bg := (step zero context_Background promises).
Abbreviation run_bg := (run zero context_Background promises).

Lemma Race_start_settled (w : world T) :
  promises ≠ [] →
  Forall2 (delivers w) promises rs →
  ∃ s, start zero promises w = Some s ∧ inv_settled zero promises rs s.
Proof.
  intros Hne Hall. unfold start. destruct (length promises =? 0) eqn:Hn.
  - apply Nat.eqb_eq in Hn. by apply nil_length_inv in Hn.
  - eexists. split; [done|]. constructor; cbn; [|done].
    intros idx a r Ha Hr. unfold slot_settled. cbn.
    rewrite lookup_replicate_2 by by eapply lookup_lt_Some.
    by eapply (Forall2_lookup_lr _ _ _ _ _ _ Hall).
Qed.

Lemma Race_slot_frame (s s' : state) (idx a : nat) (r : Result T) :
  observers s' !! idx = observers s !! idx →
  (delivers (the_world s) a r → delivers (the_world s') a r) →
  slot_settled s idx a r → slot_settled s' idx a r.
Proof.
  unfold slot_settled. intros -> Hd.
  destruct (observers s !! idx) as [[]|]; auto.
Qed.

Lemma Race_step_settled (e : event) (s s' : state) :
  inv promises s → inv_settled zero promises rs s →
  step_bg e s = Some s' → inv_settled zero promises rs s'.
Proof.
  intros [Hobs Hopen Hret] [Hslots Hclosed] Hstep.
  destruct e as [a|idx pick|idx]; unfold step in Hstep.
  - destruct (settle a (the_world s)) as [w|] eqn:Hs; simplify_eq.
    constructor; cbn; [|done].
    intros idx b r Hb Hr.
    apply (Race_slot_frame s); [done| |by apply Hslots].
    cbn. intros Hd. by eapply settle_delivers.
  - destruct (observers s !! idx) as [[]|] eqn:Hidx; try done.
    destruct (promises !! idx) as [a|] eqn:Ha; try done.
    destruct (Await_at zero pick a context_Background (the_world s))
      as [[w [val err]]|] eqn:HA; simplify_eq.
    constructor; cbn; [|done].
    intros idx' b r Hb Hr. destruct (decide (idx' = idx)) as [->|Hne].
    + assert (b = a) as -> by congruence.
      specialize (Hslots idx a r Ha Hr).
      unfold slot_settled in *. rewrite Hidx in Hslots. cbn.
      rewrite list_lookup_insert_eq by by eapply lookup_lt_Some.
      pose proof (Await_at_delivers _ _ _ _ _ _ _ HA Hslots) as Hres'.
      by simplify_eq.
    + apply (Race_slot_frame s); [| |by apply Hslots]; cbn.
      * by rewrite list_lookup_insert_ne.
      * eapply Await_at_delivers_other; [done|].
        intros ->. apply Hne. by eapply NoDup_lookup.
  - assert (Hne : observers s ≠ []).
    { intros Hnil. rewrite Hnil in Hstep. done. }
    destruct (observers s !! idx) as [[|val err|]|] eqn:Hidx; try done.
    assert (Hlt : idx < length promises).
    { rewrite <- Hobs. by eapply lookup_lt_Some. }
    destruct (lookup_lt_is_Some_2 promises idx Hlt) as [a Ha].
    destruct (lookup_lt_is_Some_2 rs idx) as [r Hr]; [lia|].
    pose proof (Hslots idx a r Ha Hr) as Hslot.
    unfold slot_settled in Hslot. rewrite Hidx in Hslot. destruct Hslot as [-> ->].
    assert (Hslots' : ∀ idx' b r',
               promises !! idx' = Some b → rs !! idx' = Some r' →
               match <[idx:=returned]> (observers s) !! idx' with
               | Some at_Await => delivers (the_world s) b r'
               | Some (got val err) => val = Value r' ∧ err = Err r'
               | Some returned => True
               | None => False
               end).
    { intros idx' b r' Hb Hr'. destruct (decide (idx' = idx)) as [->|Hne'].
      - by rewrite list_lookup_insert_eq by lia.
      - rewrite list_lookup_insert_ne by done. by apply (Hslots idx' b r'). }
    destruct (once_guard s) eqn:Hg.
    + simplify_eq. by constructor.
    + rewrite (Hopen eq_refl Hne), Race_settle_fresh in Hstep. simplify_eq.
      constructor; [done|]. intros _. by exists idx, r.
Qed.

Lemma Race_run_settled (sched : list event) (s s' : state) :
  inv promises s → inv_settled zero promises rs s →
  run_bg sched s = Some s' → inv promises s' ∧ inv_settled zero promises rs s'.
Proof.
  revert s. induction sched as [|e sched IH]; intros s Hinv Hf Hrun; cbn in Hrun.
  - by simplify_eq.
  - destruct (step_bg e s) as [s1|] eqn:Hstep; [|done].
    eapply IH; [| |done].
    + by eapply Race_step_inv.
    + by eapply Race_step_settled.
Qed.

Lemma Race_progress (s : state) :
  inv promises s → inv_settled zero promises rs s →
  quiescent s ∨ ∃ e s', step_bg e s = Some s'.
Proof.
  intros [Hobs Hopen Hret] [Hslots Hclosed].
  destruct (Race_observers_cases (observers s)) as [Hall|(idx & c & Hidx & Hc)];
    [by left|right].
  assert (Hne : observers s ≠ []).
  { intros Hnil. by rewrite Hnil in Hidx. }
  assert (Hlt : idx < length promises).
  { rewrite <- Hobs. by eapply lookup_lt_Some. }
  destruct (lookup_lt_is_Some_2 promises idx Hlt) as [a Ha].
  destruct (lookup_lt_is_Some_2 rs idx) as [r Hr]; [lia|].
  pose proof (Hslots idx a r Ha Hr) as Hslot.
  unfold slot_settled in Hslot. rewrite Hidx in Hslot.
  destruct c as [|val err|]; [| |done].
  - destruct (delivers_progress zero a context_Background _ _ Hslot)
      as [[w' Hs]|[[w' [val err]] HA]].
    + exists (ev_settle a). unfold step. rewrite Hs. by eexists.
    + exists (ev_Await idx case_result). unfold step.
      rewrite Hidx, Ha, HA. by eexists.
  - exists (ev_body idx). unfold step. rewrite Hidx.
    destruct (once_guard s) eqn:Hg; [by eexists|].
    rewrite (Hopen eq_refl Hne), Race_settle_fresh. by eexists.
Qed.

Lemma Race_completes (n : nat) :
  ∀ s, measure s < n → inv promises s → inv_settled zero promises rs s →
       ∃ sched s', run_bg sched s = Some s' ∧ quiescent s'.
Proof.
  induction n as [|n IH]; intros s Hm Hinv Hf; [lia|].
  destruct (Race_progress s Hinv Hf) as [Hq|(e & s' & Hstep)].
  - by exists [], s.
  - destruct (IH s') as (sched & s'' & Hrun & Hq).
    + apply Race_step_measure in Hstep. lia.
    + by eapply Race_step_inv.
    + by eapply Race_step_settled.
    + exists (e :: sched), s''. cbn. by rewrite Hstep.
Qed.

End Settled.

(** With at least one input, the inputs being distinct promises that settle
    with [rs], then under [context.Background()] and whatever the order in
    which producers and observers run, the result of [Race] is never
    anything but the settlement of one of the inputs (an error is passed on
    with the zero value); every run can be continued until all observers
    have returned, and then [Race] is settled. *)
Theorem Race_settles_with_an_input (w : world T) (rs : list (Result T)) :
  promises ≠ [] →
  NoDup promises →
  Forall2 (delivers w) promises rs →
  ∃ s0, start zero promises w = Some s0
        ∧ ∀ sched s,
            run zero context_Background promises sched s0 = Some s →
            (once (out s) = true ∨ quiescent s →
               ∃ idx r, rs !! idx = Some r
                        ∧ holds (settlement zero (Value r) (Err r)) (out s))
            ∧ ∃ sched' s',
                run zero context_Background promises sched' s = Some s'
                ∧ quiescent s'.
Proof.
  intros Hne Hnd Hall.
  assert (Hlen : length rs = length promises) by (symmetry; by eapply Forall2_length).
  destruct (Race_start_settled rs w Hne Hall) as (s0 & Hs0 & Hf0).
  exists s0. split; [done|]. intros sched s Hrun.
  pose proof (Race_start_inv w s0 Hs0) as Hinv0.
  destruct (Race_run_settled rs Hnd Hlen sched s0 s Hinv0 Hf0 Hrun) as [Hinv Hf].
  assert (Hobs : observers s ≠ []).
  { intros Hnil. apply Hne. apply nil_length_inv.
    rewrite <- (inv_observers _ _ Hinv). by rewrite Hnil. }
  split.
  - intros Hsettled. apply (invs_closed _ _ _ _ Hf).
    destruct Hsettled as [Ho|Hq].
    + destruct (once_guard s) eqn:Hg; [done|].
      by rewrite (inv_open _ _ Hinv Hg Hobs) in Ho.
    + unfold quiescent in Hq.
      destruct (observers s) as [|c l] eqn:Hl; [done|].
      apply (inv_returned _ _ Hinv 0). rewrite Hl. cbn.
      by rewrite (Forall_inv Hq).
  - eapply (Race_completes rs Hnd Hlen (S (measure s))); [lia|done|done].
Qed.

End RaceFacts.

(** ** Worker pool, continued *)

Section PoolMoreFacts.

Import Pool PoolMore.

Context {T : Type}.
Variable zero : T.

Lemma omap_insert_None {A B : Type} (f : A → option B) (l : list A) (i : nat) (x y : A) :
  l !! i = Some x → f x = None → f y = None →
  omap f (<[i:=y]> l) = omap f l.
Proof.
  revert i. induction l as [|z l IH]; intros [|i] Hi Hx Hy; simplify_eq/=.
  - by rewrite Hx, Hy.
  - by rewrite (IH i).
Qed.

Lemma omap_insert_take {A B : Type} (f : A → option B) (l : list A) (i : nat)
    (x y : A) (b : B) :
  l !! i = Some x → f x = Some b → f y = None →
  omap f l ≡ₚ b :: omap f (<[i:=y]> l).
Proof.
  revert i. induction l as [|z l IH]; intros [|i] Hi Hx Hy; simplify_eq/=.
  - by rewrite Hx, Hy.
  - destruct (f z); [|by apply IH].
    rewrite (IH i Hi Hx Hy). apply perm_swap.
Qed.

Lemma omap_insert_put {A B : Type} (f : A → option B) (l : list A) (i : nat)
    (x y : A) (b : B) :
  l !! i = Some x → f x = None → f y = Some b →
  omap f (<[i:=y]> l) ≡ₚ b :: omap f l.
Proof.
  revert i. induction l as [|z l IH]; intros [|i] Hi Hx Hy; simplify_eq/=.
  - by rewrite Hx, Hy.
  - destruct (f z); [|by apply IH].
    rewrite (IH i Hi Hx Hy). apply perm_swap.
Qed.

Lemma omap_worker_select (n : nat) :
  omap (worker_task (T:=T)) (replicate n worker_select) = [].
Proof. induction n as [|n IH]; [done|]. cbn. by rewrite IH. Qed.

Lemma NewWorkerPool_inv (numWorkers : Z) : inv (NewWorkerPool (T:=T) numWorkers).
Proof.
  unfold NewWorkerPool.
  set (n := Z.to_nat (if (numWorkers <=? 0)%Z then 1%Z else numWorkers)).
  assert (1 ≤ n).
  { subst n. destruct (numWorkers <=? 0)%Z eqn:Hle; [lia|].
    apply Z.leb_gt in Hle. lia. }
  constructor; cbn; rewrite ?length_replicate; try done; try lia.
  - unfold in_flight. cbn. rewrite omap_worker_select. constructor.
  - intros t. unfold in_flight. cbn. rewrite omap_worker_select.
    intros Ht. by apply elem_of_nil in Ht.
Qed.

(** A task leaves the system: its promise is written, the others stay. *)
Lemma inv_fresh_leave (s : state (T:=T)) (t : task) (rest : list task)
    (p : Promise T) :
  in_flight s ≡ₚ t :: rest →
  NoDup (ch <$> in_flight s) →
  (∀ t', t' ∈ in_flight s → promises s !! ch t' = Some new_promise) →
  NoDup (ch <$> rest)
  ∧ ∀ t', t' ∈ rest → <[ch t := p]> (promises s) !! ch t' = Some new_promise.
Proof.
  intros Hperm Hnd Hfresh. rewrite Hperm in Hnd. cbn in Hnd.
  apply NoDup_cons in Hnd as [Hnotin Hnd]. split; [done|].
  intros t' Ht'. rewrite list_lookup_insert_ne.
  - apply Hfresh. rewrite Hperm. by right.
  - intros Heq. apply Hnotin. rewrite Heq. by apply list_elem_of_fmap_2.
Qed.

Lemma Pool_step_inv (e : event) (s s' : state (T:=T)) :
  inv s → step zero e s = Some s' → inv s'.
Proof.
  intros [Hw Hlen Hcap Hq Hnd Hfresh] Hstep. unfold step in Hstep.
  destruct (crashed s); [done|].
  destruct e as [f|i pick|w pick|w|].
  - (* Submit *)
    simplify_eq. unfold Submit.
    assert (Hfl : in_flight (T:=T)
                    {| pool := pool s; promises := promises s ++ [new_promise];
                       worker_pcs := worker_pcs s;
                       submit_pcs := submit_pcs s
                                     ++ [submit_select (mkTask f (length (promises s)))];
                       closing := closing s; crashed := false |}
                  ≡ₚ mkTask f (length (promises s)) :: in_flight s).
    { unfold in_flight. cbn. rewrite omap_app. cbn.
      rewrite <- !app_assoc. cbn. by rewrite <- Permutation_middle. }
    constructor; cbn; try done.
    + rewrite Hfl. cbn. apply NoDup_cons. split; [|done].
      intros Hin. apply list_elem_of_fmap in Hin as (t & Heq & Ht).
      specialize (Hfresh t Ht). apply lookup_lt_Some in Hfresh. lia.
    + intros t Ht. rewrite Hfl in Ht. apply elem_of_cons in Ht as [->|Ht].
      * cbn. by rewrite lookup_app_r, Nat.sub_diag.
      * apply lookup_app_l_Some. by apply Hfresh.
  - (* the select of Submit *)
    unfold submit_step in Hstep.
    destruct (submit_pcs s !! i) as [[t|]|] eqn:Hi; try done.
    pose proof (omap_insert_take submit_task _ _ _ submit_returned t Hi eq_refl eq_refl)
      as Hperm.
    destruct pick.
    + assert (Hleave : in_flight s
                ≡ₚ t :: (omap submit_task (<[i:=submit_returned]> (submit_pcs s))
                         ++ buf (taskQueue (pool s)) ++ omap worker_task (worker_pcs s))).
      { unfold in_flight. by rewrite Hperm. }
      destruct (chan_recv (done (pool s))) as [u d| |]; try done;
        unfold heap_send in Hstep;
        destruct (promises s !! ch t) as [p|] eqn:Hch; try done;
        destruct (chan_send (resultChan p) _) as [c'| |]; simplify_eq;
        try (by constructor);
        destruct (inv_fresh_leave s t _ (mkPromise c' (once p)) Hleave Hnd Hfresh)
          as [Hnd' Hfresh'];
        by constructor.
    + unfold chan_send in Hstep.
      destruct (closed (taskQueue (pool s))); [simplify_eq; by constructor|].
      destruct (length (buf (taskQueue (pool s))) <? cap (taskQueue (pool s))) eqn:Hroom;
        simplify_eq.
      apply Nat.ltb_lt in Hroom.
      assert (Hfl : in_flight (T:=T)
                (set_submit (set_pool s (set_taskQueue (pool s)
                   (mkChan (buf (taskQueue (pool s)) ++ [t])
                           (cap (taskQueue (pool s))) false))) i submit_returned)
              ≡ₚ in_flight s).
      { unfold in_flight. cbn. rewrite Hperm.
        rewrite <- !app_assoc. cbn.
        rewrite (app_assoc _ _ (t :: _)), (app_assoc _ _ (omap worker_task _)).
        symmetry. apply Permutation_middle. }
      constructor; cbn; try done.
      * rewrite length_app. cbn. lia.
      * by rewrite Hfl.
      * intros t' Ht'. rewrite Hfl in Ht'. by apply Hfresh.
  - (* the select of a worker *)
    unfold worker_step in Hstep.
    destruct (worker_pcs s !! w) as [[| |]|] eqn:Hwk; try done.
    assert (Hret : inv (worker_return s w)).
    { unfold worker_return, set_worker, set_pool. constructor; cbn;
        rewrite ?length_insert; try done.
      - unfold in_flight. cbn.
        by rewrite (omap_insert_None worker_task _ _ _ _ Hwk).
      - intros t. unfold in_flight. cbn.
        rewrite (omap_insert_None worker_task _ _ _ _ Hwk) by done. apply Hfresh. }
    destruct pick.
    + destruct (chan_recv (done (pool s))); by simplify_eq.
    + unfold chan_recv in Hstep.
      destruct (buf (taskQueue (pool s))) as [|t q] eqn:Hbuf.
      * destruct (closed (taskQueue (pool s))); by simplify_eq.
      * simplify_eq.
        assert (Hfl : in_flight (T:=T)
                  (set_worker (set_pool s (set_taskQueue (pool s)
                     (mkChan q (cap (taskQueue (pool s)))
                             (closed (taskQueue (pool s)))))) w (worker_execute t))
                ≡ₚ in_flight s).
        { unfold in_flight. cbn. rewrite Hbuf.
          rewrite (omap_insert_put worker_task _ _ _ (worker_execute t) t Hwk)
            by done.
          cbn. by rewrite <- Permutation_middle. }
        constructor; cbn; rewrite ?length_insert; try done.
        -- cbn in Hq. lia.
        -- by rewrite Hfl.
        -- intros t' Ht'. rewrite Hfl in Ht'. by apply Hfresh.
  - (* executeTask *)
    unfold execute_step in Hstep.
    destruct (worker_pcs s !! w) as [[|t|]|] eqn:Hwk; try done.
    pose proof (omap_insert_take worker_task _ _ _ worker_select t Hwk eq_refl eq_refl)
      as Hperm.
    assert (Hleave : in_flight s
              ≡ₚ t :: (omap submit_task (submit_pcs s)
                       ++ buf (taskQueue (pool s))
                       ++ omap worker_task (<[w:=worker_select]> (worker_pcs s)))).
    { unfold in_flight. rewrite Hperm. by rewrite <- !Permutation_middle. }
    assert (Ht : promises s !! ch t = Some new_promise).
    { apply Hfresh. rewrite Hleave. by left. }
    assert (Hexec : executeTask zero t (promises s)
                    = Normal (<[ch t := mkPromise (mkChan [task_result zero t] 1 false)
                                                  false]> (promises s))).
    { unfold task_result. destruct (fn t) as [[val err]|] eqn:Hfn.
      - by rewrite (executeTask_returning zero t _ new_promise val err Hfn Ht).
      - by rewrite (executeTask_panicking zero t _ new_promise Hfn Ht). }
    rewrite Hexec in Hstep. simplify_eq.
    destruct (inv_fresh_leave s t _
                (mkPromise (mkChan [task_result zero t] 1 false) false)
                Hleave Hnd Hfresh) as [Hnd' Hfresh'].
    constructor; cbn; rewrite ?length_insert; done.
  - (* Close *)
    unfold Close_step in Hstep.
    destruct (closing s).
    + destruct (closed (done (pool s))); simplify_eq; by constructor.
    + destruct (closed (taskQueue (pool s))); simplify_eq; by constructor.
    + destruct (wg (pool s) =? 0); simplify_eq; by constructor.
    + done.
Qed.

Lemma Pool_run_inv (sched : list event) (s s' : state (T:=T)) :
  inv s → run zero sched s = Some s' → inv s'.
Proof.
  revert s. induction sched as [|e sched IH]; intros s Hinv Hrun; cbn in Hrun.
  - by simplify_eq.
  - destruct (step zero e s) as [s1|] eqn:Hstep; [|done].
    eapply IH; [|done]. by eapply Pool_step_inv.
Qed.

Lemma Pool_step_workers (e : event) (s s' : state (T:=T)) :
  step zero e s = Some s' → workers (pool s') = workers (pool s).
Proof.
  intros Hstep. unfold step in Hstep. destruct (crashed s); [done|].
  destruct e as [f|i pick|w pick|w|].
  - by simplify_eq.
  - unfold submit_step in Hstep. repeat case_match; by simplify_eq.
  - unfold worker_step in Hstep. repeat case_match; by simplify_eq.
  - unfold execute_step in Hstep. repeat case_match; by simplify_eq.
  - unfold Close_step in Hstep. repeat case_match; by simplify_eq.
Qed.

Lemma Pool_run_workers (sched : list event) (s s' : state (T:=T)) :
  run zero sched s = Some s' → workers (pool s') = workers (pool s).
Proof.
  revert s. induction sched as [|e sched IH]; intros s Hrun; cbn in Hrun.
  - by simplify_eq.
  - destruct (step zero e s) as [s1|] eqn:Hstep; [|done].
    rewrite (IH s1 Hrun). by eapply Pool_step_workers.
Qed.

(** In every state a pool can reach, [Stats] reports the worker count fixed
    by [NewWorkerPool] (at least one: a count of zero or less makes one
    worker), a queue capacity of twice that count, and a queue size that
    does not exceed the capacity. *)
Theorem Stats_within_bounds (numWorkers : Z) (sched : list event) (s : state (T:=T)) :
  run zero sched (NewWorkerPool numWorkers) = Some s →
  NumWorkers (Stats s) = Z.to_nat (Z.max 1 numWorkers)
  ∧ QueueCapacity (Stats s) = NumWorkers (Stats s) * 2
  ∧ QueueSize (Stats s) ≤ QueueCapacity (Stats s).
Proof.
  intros Hrun.
  pose proof (Pool_run_inv sched _ s (NewWorkerPool_inv numWorkers) Hrun) as Hinv.
  pose proof (Pool_run_workers sched _ s Hrun) as Hw.
  unfold Stats. cbn [NumWorkers QueueCapacity QueueSize].
  split_and!.
  - rewrite Hw. unfold NewWorkerPool. cbn.
    destruct (numWorkers <=? 0)%Z eqn:Hle; [apply Z.leb_le in Hle|apply Z.leb_gt in Hle];
      lia.
  - apply (inv_cap _ Hinv).
  - apply (inv_queue _ Hinv).
Qed.

(** In every state a pool can reach, a worker that has taken a task can
    run it: [executeTask] neither blocks nor brings the process down, and it
    writes the function's result, or [ErrTaskPanicked] when the function
    panics, into that task's promise, which nobody had written before; the
    worker is then back at its [select]. *)
Theorem worker_settles_its_task (numWorkers : Z) (sched : list event)
    (s : state (T:=T)) (w : nat) (t : task) :
  run zero sched (NewWorkerPool numWorkers) = Some s →
  crashed s = false →
  worker_pcs s !! w = Some (worker_execute t) →
  promises s !! ch t = Some new_promise
  ∧ step zero (ev_execute w) s
    = Some (mkState (pool s)
              (<[ch t := mkPromise (mkChan [task_result zero t] 1 false) false]>
                 (promises s))
              (<[w := worker_select]> (worker_pcs s)) (submit_pcs s) (closing s) false).
Proof.
  intros Hrun Hc Hwk.
  pose proof (Pool_run_inv sched _ s (NewWorkerPool_inv numWorkers) Hrun) as Hinv.
  assert (Ht : promises s !! ch t = Some new_promise).
  { apply (inv_fresh _ Hinv). unfold in_flight.
    rewrite !elem_of_app. right. right.
    apply list_elem_of_omap. exists (worker_execute t). split; [|done].
    by eapply list_elem_of_lookup_2. }
  split; [done|].
  unfold step, execute_step. rewrite Hc, Hwk.
  assert (Hexec : executeTask zero t (promises s)
                  = Normal (<[ch t := mkPromise (mkChan [task_result zero t] 1 false)
                                                false]> (promises s))).
  { unfold task_result. destruct (fn t) as [[val err]|] eqn:Hfn.
    - by rewrite (executeTask_returning zero t _ new_promise val err Hfn Ht).
    - by rewrite (executeTask_panicking zero t _ new_promise Hfn Ht). }
  rewrite Hexec. unfold set_worker, set_promises. cbn. by rewrite Hc.
Qed.

Lemma NewWorkerPool_open (numWorkers : Z) : open (NewWorkerPool (T:=T) numWorkers).
Proof.
  unfold NewWorkerPool. constructor; cbn; try done.
  apply Forall_replicate. done.
Qed.

Lemma Pool_step_open (e : event) (s s' : state (T:=T)) :
  is_Close e = false → inv s → open s → step zero e s = Some s' → open s'.
Proof.
  intros He Hinv [Hcl Hdone Hqu Hcr Hwk Hwg] Hstep.
  pose proof (Pool_step_inv e s s' Hinv Hstep) as Hinv'.
  unfold step in Hstep. rewrite Hcr in Hstep.
  destruct e as [f|i pick|w pick|w|]; [| | | |done].
  - simplify_eq. by constructor.
  - unfold submit_step in Hstep.
    destruct (submit_pcs s !! i) as [[t|]|] eqn:Hi; try done.
    destruct pick.
    + by rewrite Hdone in Hstep.
    + unfold chan_send in Hstep. rewrite Hqu in Hstep.
      destruct (length (buf (taskQueue (pool s))) <? cap (taskQueue (pool s)));
        simplify_eq. by constructor.
  - unfold worker_step in Hstep.
    destruct (worker_pcs s !! w) as [[| |]|] eqn:Hw; try done.
    destruct pick.
    + by rewrite Hdone in Hstep.
    + unfold chan_recv in Hstep. rewrite Hqu in Hstep.
      destruct (buf (taskQueue (pool s))) as [|t q]; simplify_eq.
      constructor; cbn; try done. by apply Forall_insert.
  - unfold execute_step in Hstep.
    destruct (worker_pcs s !! w) as [[|t|]|] eqn:Hw; try done.
    assert (Ht : promises s !! ch t = Some new_promise).
    { apply (inv_fresh _ Hinv). unfold in_flight.
      rewrite !elem_of_app. right. right.
      apply list_elem_of_omap. exists (worker_execute t). split; [|done].
      by eapply list_elem_of_lookup_2. }
    assert (Hexec : ∃ h, executeTask zero t (promises s) = Normal h).
    { destruct (fn t) as [[val err]|] eqn:Hfn.
      - rewrite (executeTask_returning zero t _ new_promise val err Hfn Ht) by done.
        by eexists.
      - rewrite (executeTask_panicking zero t _ new_promise Hfn Ht) by done.
        by eexists. }
    destruct Hexec as [h Hexec]. rewrite Hexec in Hstep. simplify_eq.
    constructor; cbn; try done. by apply Forall_insert.
Qed.

(** As long as [Close] is not called, whatever the submitted functions do,
    panics included: the process is not brought down, no worker returns, no
    [Submit] takes the [done] case (the one that answers [ErrPoolClosed]) and
    no worker does. *)
Theorem pool_runs_until_Close (numWorkers : Z) (sched : list event)
    (s : state (T:=T)) :
  Forall (λ e, is_Close e = false) sched →
  run zero sched (NewWorkerPool numWorkers) = Some s →
  crashed s = false
  ∧ Forall (λ c, c ≠ worker_returned) (worker_pcs s)
  ∧ length (worker_pcs s) = Z.to_nat (Z.max 1 numWorkers)
  ∧ (∀ i, step zero (ev_submit i case_done) s = None)
  ∧ (∀ w, step zero (ev_worker w case_done) s = None).
Proof.
  intros Hsched Hrun.
  assert (Hgen : ∀ sched s0 s1,
             Forall (λ e, is_Close e = false) sched →
             inv s0 → open s0 → run zero sched s0 = Some s1 → inv s1 ∧ open s1).
  { clear. intros sched. induction sched as [|e sched IH];
      intros s0 s1 Hsched Hinv Hopen Hrun; cbn in Hrun.
    - by simplify_eq.
    - apply Forall_cons in Hsched as [He Hsched].
      destruct (step zero e s0) as [s2|] eqn:Hstep; [|done].
      apply (IH s2 s1 Hsched); [| |done].
      + by eapply Pool_step_inv.
      + by eapply Pool_step_open. }
  destruct (Hgen sched _ s Hsched (NewWorkerPool_inv numWorkers)
              (NewWorkerPool_open numWorkers) Hrun)
    as [Hinv [Hcl Hdone Hqu Hcr Hwk Hwg]].
  split_and!; try done.
  - rewrite (inv_worker_pcs _ Hinv), (Pool_run_workers sched _ s Hrun).
    unfold NewWorkerPool. cbn.
    destruct (numWorkers <=? 0)%Z eqn:Hle; [apply Z.leb_le in Hle|apply Z.leb_gt in Hle];
      lia.
  - intros i. unfold step, submit_step. rewrite Hcr, Hdone.
    by destruct (submit_pcs s !! i) as [[]|].
  - intros w. unfold step, worker_step. rewrite Hcr, Hdone.
    by destruct (worker_pcs s !! w) as [[]|].
Qed.

Lemma Pool_loop_spec (tasks : list (call_outcome (T * option error))) :
  ∀ (filled : list (option nat)) (s : state (T:=T)),
    Pool_loop tasks (length filled) (filled ++ replicate (length tasks) None) s
    = (mkState (pool s) (promises s ++ replicate (length tasks) new_promise)
               (worker_pcs s)
               (submit_pcs s
                ++ imap (λ i f, submit_select (mkTask f (length (promises s) + i))) tasks)
               (closing s) (crashed s),
       filled ++ (Some <$> seq (length (promises s)) (length tasks))).
Proof.
  induction tasks as [|task tasks IH]; intros filled s.
  - cbn. rewrite !app_nil_r. by destruct s.
  - cbn [Pool_loop length replicate].
    rewrite insert_app_r_alt, Nat.sub_diag by done. cbn [insert list_insert].
    replace (filled ++ Some (length (promises s)) :: replicate (length tasks) None)
      with ((filled ++ [Some (length (promises s))]) ++ replicate (length tasks) None)
      by by rewrite <- app_assoc.
    replace (S (length filled)) with (length (filled ++ [Some (length (promises s))]))
      by (rewrite length_app; cbn; lia).
    rewrite IH. unfold Submit. cbn. rewrite length_app. cbn.
    rewrite <- !app_assoc. cbn. rewrite Nat.add_0_r, Nat.add_1_r.
    f_equal. f_equal. f_equal. f_equal.
    apply imap_ext. intros i f _. cbn. do 2 f_equal. lia.
Qed.

(** [Pool] starts one [Submit] per task, in task order, and hands [All] one
    promise per task: promises that did not exist before, that are pairwise
    distinct and not yet settled.  The pool itself is not touched by the
    calls. *)
Theorem Pool_submits_one_promise_per_task
    (tasks : list (call_outcome (T * option error))) (s : state (T:=T)) :
  let n := length (promises s) in
  let addresses := seq n (length tasks) in
  Pool_submits tasks s
  = (mkState (pool s) (promises s ++ replicate (length tasks) new_promise)
             (worker_pcs s)
             (submit_pcs s ++ imap (λ i f, submit_select (mkTask f (n + i))) tasks)
             (closing s) (crashed s),
     Some <$> addresses)
  ∧ NoDup addresses
  ∧ Forall (λ a, promises s !! a = None
                 ∧ (promises s ++ replicate (length tasks) new_promise) !! a
                   = Some new_promise) addresses.
Proof.
  intros n addresses. split_and!.
  - unfold Pool_submits. apply (Pool_loop_spec tasks [] s).
  - apply NoDup_seq.
  - apply Forall_forall. intros a Ha. apply elem_of_seq in Ha. split.
    + apply lookup_ge_None. lia.
    + rewrite lookup_app_r by lia. apply lookup_replicate_2. lia.
Qed.

End PoolMoreFacts.

(** ** Promises, continued *)

Section ChainingFacts.

Context {T : Type}.
Variable zero : T.

(** What a fresh executor-made promise holds after [resolve] or [reject]. *)
Abbreviation fulfilled v := (mkPromise (mkChan [mkResult v None] 1 false) true).
Abbreviation rejected e := (mkPromise (mkChan [mkResult zero (Some e)] 1 false) true).
(** The source after its settlement was received. *)
Abbreviation drained src := (mkPromise (T:=T) (make_chan 1) (once src)).

(** A function that returns [(v, err)] settles the promise of [NewPromise]
    with exactly that pair, and [Await] with [context.Background()] returns
    it: the value is passed on as the function returned it, also next to an
    error.  With any token, the [select] of [Await] can take the
    settlement. *)
Theorem NewPromise_Await (v : T) (err : option error) :
  ∃ p, NewPromise (Returns (v, err)) = Finished p
       ∧ holds (mkResult v err) p
       ∧ Await_ready p context_Background = [case_result]
       ∧ (∀ pick p' res,
            Await zero pick p context_Background = Some (p', res) →
            res = (v, err) ∧ unsettled p')
       ∧ (∀ ctx, Await zero case_result p ctx = Some (new_promise, (v, err))).
Proof.
  eexists. split_and!; [reflexivity|done|done| |done].
  intros [] p' res H; cbn in H; [|done]. by simplify_eq.
Qed.

(** [Then]: when the source is rejected the new promise is rejected with
    the same error and [fn] is not called, whatever [fn] is; when the source
    is fulfilled, [fn] is called on the value, and the new promise is
    fulfilled with the source's value when [fn] returns [nil] and rejected
    with [fn]'s error otherwise.  A panic of [fn] is not recovered.  As long
    as the source is not settled the goroutine waits. *)
Theorem Then_settles (fn : T → call_outcome (option error)) (r : Result T)
    (src : Promise T) :
  holds r src →
  (∀ e, Err r = Some e →
        Then_goroutine zero fn src new_promise = Finished (drained src, rejected e))
  ∧ (Err r = None → fn (Value r) = Returns None →
       Then_goroutine zero fn src new_promise
       = Finished (drained src, fulfilled (Value r)))
  ∧ (∀ e, Err r = None → fn (Value r) = Returns (Some e) →
       Then_goroutine zero fn src new_promise = Finished (drained src, rejected e))
  ∧ (Err r = None → fn (Value r) = Panics →
       Then_goroutine zero fn src new_promise = ProcessCrash)
  ∧ (∀ src', unsettled src' → Then_goroutine zero fn src' new_promise = Blocked).
Proof.
  intros Hr. unfold Then_goroutine. rewrite (Await_holds _ _ _ _ Hr).
  split_and!.
  - by intros e ->.
  - by intros -> ->.
  - by intros e -> ->.
  - by intros -> ->.
  - intros src' Hs. unfold Await, unsettled in *. by rewrite Hs.
Qed.

(** [Map]: a rejected source rejects the new promise with the same error
    without calling [fn]; on a fulfilled source the new promise is fulfilled
    with the value [fn] returns, or rejected with [fn]'s error, the value
    returned next to that error being dropped. *)
Theorem Map_settles (fn : T → call_outcome (T * option error)) (r : Result T)
    (src : Promise T) :
  holds r src →
  (∀ e, Err r = Some e →
        Map_goroutine zero fn src new_promise = Finished (drained src, rejected e))
  ∧ (∀ newVal, Err r = None → fn (Value r) = Returns (newVal, None) →
       Map_goroutine zero fn src new_promise = Finished (drained src, fulfilled newVal))
  ∧ (∀ newVal e, Err r = None → fn (Value r) = Returns (newVal, Some e) →
       Map_goroutine zero fn src new_promise = Finished (drained src, rejected e))
  ∧ (Err r = None → fn (Value r) = Panics →
       Map_goroutine zero fn src new_promise = ProcessCrash).
Proof.
  intros Hr. unfold Map_goroutine. rewrite (Await_holds _ _ _ _ Hr).
  split_and!.
  - by intros e ->.
  - by intros newVal -> ->.
  - by intros newVal e -> ->.
  - by intros -> ->.
Qed.

(** [Catch]: a fulfilled source passes its value on without calling [fn];
    on a rejected source [fn] is called on the error, and the new promise is
    fulfilled with the value [fn] returns, or rejected with the error [fn]
    returns. *)
Theorem Catch_settles (fn : error → call_outcome (T * option error)) (r : Result T)
    (src : Promise T) :
  holds r src →
  (Err r = None →
     Catch_goroutine zero fn src new_promise
     = Finished (drained src, fulfilled (Value r)))
  ∧ (∀ e newVal, Err r = Some e → fn e = Returns (newVal, None) →
       Catch_goroutine zero fn src new_promise = Finished (drained src, fulfilled newVal))
  ∧ (∀ e newVal e', Err r = Some e → fn e = Returns (newVal, Some e') →
       Catch_goroutine zero fn src new_promise = Finished (drained src, rejected e'))
  ∧ (∀ e, Err r = Some e → fn e = Panics →
       Catch_goroutine zero fn src new_promise = ProcessCrash).
Proof.
  intros Hr. unfold Catch_goroutine. rewrite (Await_holds _ _ _ _ Hr).
  split_and!.
  - by intros ->.
  - by intros e newVal -> ->.
  - by intros e newVal e' -> ->.
  - by intros e -> ->.
Qed.

(** [Finally]: when [fn] returns, a fulfilled source passes its value on
    and a rejected one its error (with the zero value); when [fn] panics the
    process ends, whatever the source holds. *)
Theorem Finally_settles (r : Result T) (src : Promise T) :
  holds r src →
  (Err r = None →
     Finally_goroutine zero (Returns ()) src new_promise
     = Finished (drained src, fulfilled (Value r)))
  ∧ (∀ e, Err r = Some e →
       Finally_goroutine zero (Returns ()) src new_promise
       = Finished (drained src, rejected e))
  ∧ Finally_goroutine zero Panics src new_promise = ProcessCrash.
Proof.
  intros Hr. unfold Finally_goroutine. rewrite (Await_holds _ _ _ _ Hr).
  split_and!.
  - by intros ->.
  - by intros e ->.
  - done.
Qed.

End ChainingFacts.

(** ** Sequence, continued *)

Section SequenceMoreFacts.

Import Sequence.

Context {T : Type}.
Variable zero : T.
Variable prefer : nat → await_case.

(** With no input [Sequence] fulfills with the empty sequence without any
    [Await], whatever the token.  With a token that has fired and a first
    input that is not settled, it rejects with the token's error after that
    one [Await]: no later input is awaited and the inputs are left as they
    were. *)
Theorem Sequence_fired_token (ctx : Context) (w : world T) :
  Sequence zero ctx prefer [] w
  = Finished (mkLoop w [] (mkPromise (mkChan [mkResult [] None] 1 false) true) [])
  ∧ ∀ (a : nat) (rest : list nat) (p : Promise T) (e : error),
      ctx_Err ctx = Some e →
      heap w !! a = Some p →
      unsettled p →
      Sequence zero ctx prefer (a :: rest) w
      = Finished (mkLoop w (replicate (S (length rest)) zero)
                    (mkPromise (mkChan [mkResult [] (Some e)] 1 false) true) [a]).
Proof.
  split; [done|]. intros a rest p e He Ha Hp.
  unfold Sequence. cbn [loop length]. unfold Await_sched. cbn [the_world].
  rewrite Ha. rewrite (Await_ready_unsettled _ _ Hp).
  assert (Hdone : ctx_Done ctx = true).
  { unfold ctx_Done. rewrite He. by apply bool_decide_eq_true. }
  rewrite Hdone. unfold Await_at, Await. rewrite Ha, Hdone, He. cbn.
  rewrite list_insert_id by done. by destruct w.
Qed.

(** With a token that has not fired, [Sequence] does not go past an input
    that is not settled: after the inputs before it, all fulfilled, it waits
    at that input, whatever the later inputs hold. *)
Theorem Sequence_waits_at_unsettled_input (ctx : Context) (w : world T)
    (before : list nat) (vs : list (Result T)) (a : nat) (rest : list nat)
    (p : Promise T) :
  ctx_Err ctx = None →
  NoDup (before ++ a :: rest) →
  Forall2 (settled_input w) before vs →
  Forall is_fulfilled vs →
  heap w !! a = Some p →
  unsettled p →
  Sequence zero ctx prefer (before ++ a :: rest) w = Blocked.
Proof.
  intros He Hnd Hall Hok Ha Hp. unfold Sequence.
  assert (Hdone : ctx_Done ctx = false).
  { unfold ctx_Done. rewrite He. apply bool_decide_eq_false. by intros [? ?]. }
  generalize (replicate (length (before ++ a :: rest)) zero).
  generalize (@nil nat). generalize 0.
  revert w vs Hnd Hall Hok Ha.
  induction before as [|b before IH]; intros w vs Hnd Hall Hok Ha i aw res.
  - cbn [app loop]. unfold Await_sched. cbn [the_world]. rewrite Ha.
    by rewrite (Await_ready_unsettled _ _ Hp), Hdone.
  - apply Forall2_cons_inv_l in Hall as (r & vs' & (q & Hq & Hr) & Hall & ->).
    apply Forall_cons in Hok as [Hr_ok Hok].
    cbn [app] in Hnd. apply NoDup_cons in Hnd as [Hb Hnd].
    cbn [app loop]. unfold Await_sched. cbn [the_world]. rewrite Hq.
    rewrite (Await_ready_holds _ _ _ Hr), Hdone. cbn [app].
    unfold Await_at. rewrite Hq, (Await_holds _ _ _ _ Hr).
    unfold is_fulfilled in Hr_ok. rewrite Hr_ok.
    apply (IH _ vs'); try done.
    + apply Forall2_same_length_lookup. split; [by eapply Forall2_length|].
      intros j c rc Hc Hrc. apply settled_input_other.
      * intros ->. apply Hb. apply elem_of_app. left.
        by eapply list_elem_of_lookup_2.
      * by eapply Forall2_lookup_lr.
    + cbn. rewrite list_lookup_insert_ne; [done|].
      intros ->. apply Hb. apply elem_of_app. right. by left.
Qed.

End SequenceMoreFacts.

(** ** AggregateError, continued *)

Section ErrorFacts.

Lemma string_app_assoc (s1 s2 s3 : string) :
  ((s1 +:+ s2) +:+ s3 = s1 +:+ s2 +:+ s3)%string.
Proof.
  induction s1 as [|c s1 IH]; [done|].
  change (String c ((s1 +:+ s2) +:+ s3) = String c (s1 +:+ s2 +:+ s3))%string.
  by rewrite IH.
Qed.

Lemma string_app_nil_r (s : string) : (s +:+ "")%string = s.
Proof.
  induction s as [|c s IH]; [done|].
  change (String c (s +:+ "") = String c s)%string. by rewrite IH.
Qed.

Lemma Error_loop_separated (message : error → string) (errs : list error) :
  ∀ (sb : string) (i : nat),
    Error_loop message sb (S i) errs
    = (sb +:+ separated (entries_from message (S i) errs))%string.
Proof.
  induction errs as [|err errs IH]; intros sb i.
  - cbn. by rewrite string_app_nil_r.
  - change (Error_loop message sb (S i) (err :: errs))
      with (Error_loop message ((sb +:+ "; ") +:+ Sprintf_entry message (S i) err)%string
              (S (S i)) errs).
    rewrite IH. cbn [entries_from separated].
    by rewrite !string_app_assoc.
Qed.

Lemma concat_separated (x : string) (l : list string) :
  String.concat "; " (x :: l) = (x +:+ separated l)%string.
Proof.
  revert x. induction l as [|y l IH]; intros x.
  - cbn. by rewrite string_app_nil_r.
  - change (String.concat "; " (x :: y :: l))
      with (x +:+ "; " +:+ String.concat "; " (y :: l))%string.
    by rewrite IH.
Qed.

Lemma entries_from_imap (message : error → string) (errs : list error) :
  ∀ i, entries_from message i errs
       = imap (λ j e, ("[" +:+ pretty (i + j) +:+ "] " +:+ message e)%string) errs.
Proof.
  induction errs as [|err errs IH]; intros i; [done|].
  cbn [entries_from]. rewrite IH, imap_cons. unfold Sprintf_entry.
  rewrite Nat.add_0_r. f_equal.
  apply imap_ext. intros j e _. cbn. by rewrite Nat.add_succ_r.
Qed.

(** [Error()] of an aggregate without errors is the fixed text; otherwise it
    is the prefix followed by the entries ["[i] " + err.Error()], numbered
    from 0 in the order of the list and separated by ["; "], with no
    separator after the last one. *)
Theorem AggregateError_Error_text (errs : list error) :
  AggregateError_Error (NewAggregateError []) = "aggregate error: no errors"%string
  ∧ (errs ≠ [] →
     AggregateError_Error (NewAggregateError errs)
     = ("aggregate error: "
        +:+ String.concat "; "
              (imap (λ i e, "[" +:+ pretty i +:+ "] " +:+ error_Error e) errs))%string).
Proof.
  split; [done|]. intros Hne.
  destruct errs as [|err errs]; [done|].
  unfold AggregateError_Error, Error_of_list. cbn [Errors length Nat.eqb].
  change (Error_loop error_Error "aggregate error: " 0 (err :: errs))
    with (Error_loop error_Error
            ("aggregate error: " +:+ Sprintf_entry error_Error 0 err)%string 1 errs).
  rewrite Error_loop_separated, string_app_assoc.
  pose proof (entries_from_imap error_Error (err :: errs) 0) as Himap.
  change (λ (j : nat) e, ("[" +:+ pretty (0 + j) +:+ "] " +:+ error_Error e)%string)
    with (λ (j : nat) e, ("[" +:+ pretty j +:+ "] " +:+ error_Error e)%string) in Himap.
  rewrite <- Himap.
  cbn [entries_from]. by rewrite concat_separated.
Qed.

End ErrorFacts.

(** ** Worker pool: what [Close] waits for *)

Section PoolCloseFacts.

Import Pool PoolClose.

Context {T : Type}.
Variable zero : T.

Lemma worker_alive_zero (l : list (worker_pc (T:=T))) :
  sum_list (worker_alive <$> l) = 0 → Forall (λ c, c = worker_returned) l.
Proof.
  induction l as [|c l IH]; [by constructor|].
  cbn. intros Hs. constructor; [destruct c; cbn in Hs; by try lia|].
  apply IH. lia.
Qed.

Lemma NewWorkerPool_close_inv (numWorkers : Z) :
  inv (NewWorkerPool (T:=T) numWorkers).
Proof.
  unfold NewWorkerPool. constructor; cbn; try done.
  - generalize (Z.to_nat (if (numWorkers <=? 0)%Z then 1%Z else numWorkers)).
    induction n as [|n IH]; cbn; lia.
  - by intros [|].
Qed.

Lemma Pool_step_close_inv (e : event) (s s' : state (T:=T)) :
  inv s → step zero e s = Some s' → inv s'.
Proof.
  intros [Hwg Hdone Hqueue Hret] Hstep. unfold step in Hstep.
  destruct (crashed s); [done|].
  destruct e as [f|i pick|w pick|w|].
  - simplify_eq. by constructor.
  - unfold submit_step in Hstep.
    destruct (submit_pcs s !! i) as [[t|]|]; try done.
    destruct pick.
    + destruct (chan_recv (done (pool s))); try done;
        destruct (heap_send _ _ _); simplify_eq; by constructor.
    + unfold chan_send in Hstep.
      destruct (closed (taskQueue (pool s))) eqn:Hcl; [simplify_eq; by constructor|].
      destruct (_ <? _); simplify_eq.
      constructor; cbn; try done;
        intros Hc; specialize (Hqueue Hc); congruence.
  - unfold worker_step in Hstep.
    destruct (worker_pcs s !! w) as [[| |]|] eqn:Hw; try done.
    assert (Hnot : closing s ≠ close_returned).
    { intros Hc. specialize (Hret Hc).
      by pose proof (Forall_lookup_1 _ _ _ _ Hret Hw). }
    assert (Hreturn : inv (worker_return s w)).
    { pose proof (sum_list_insert worker_alive _ _ _ worker_returned Hw) as H.
      cbn in H. unfold worker_return, set_worker, set_pool.
      constructor; cbn; try done. lia. }
    destruct pick.
    + destruct (chan_recv (done (pool s))); by simplify_eq.
    + unfold chan_recv in Hstep.
      destruct (buf (taskQueue (pool s))) as [|t q].
      * destruct (closed (taskQueue (pool s))); by simplify_eq.
      * simplify_eq.
        pose proof (sum_list_insert worker_alive _ _ _ (worker_execute t) Hw) as H.
        cbn in H. constructor; cbn; try done. lia.
  - unfold execute_step in Hstep.
    destruct (worker_pcs s !! w) as [[|t|]|] eqn:Hw; try done.
    assert (Hnot : closing s ≠ close_returned).
    { intros Hc. specialize (Hret Hc).
      by pose proof (Forall_lookup_1 _ _ _ _ Hret Hw). }
    pose proof (sum_list_insert worker_alive _ _ _ worker_select Hw) as H. cbn in H.
    destruct (executeTask zero t (promises s)); simplify_eq;
      constructor; cbn; try done; lia.
  - unfold Close_step in Hstep.
    destruct (closing s) eqn:Hc.
    + destruct (closed (done (pool s))); simplify_eq;
        constructor; cbn; rewrite ?Hc; try done; by intros [|].
    + destruct (closed (taskQueue (pool s))); simplify_eq;
        constructor; cbn; rewrite ?Hc; try done;
        try (by intros [|]); intros _; by apply Hdone.
    + destruct (wg (pool s) =? 0) eqn:Hz; simplify_eq. apply Nat.eqb_eq in Hz.
      constructor; cbn; try done.
      * intros _. by apply Hdone.
      * intros _. apply Hqueue. by left.
      * intros _. apply worker_alive_zero. by rewrite <- Hwg.
    + done.
Qed.

Lemma Pool_run_close_inv (sched : list event) (s s' : state (T:=T)) :
  inv s → run zero sched s = Some s' → inv s'.
Proof.
  revert s. induction sched as [|e sched IH]; intros s Hinv Hrun; cbn in Hrun.
  - by simplify_eq.
  - destruct (step zero e s) as [s1|] eqn:Hstep; [|done].
    eapply IH; [|done]. by eapply Pool_step_close_inv.
Qed.

(** When [Close] has returned, both channels are closed and every worker
    has returned: no worker is in the middle of a task, so a task that a
    worker had taken was run to its end before [Close] returned.  While some
    worker has not returned, the wait of [Close] cannot proceed. *)
Theorem Close_waits_for_the_workers (numWorkers : Z) (sched : list event)
    (s : state (T:=T)) :
  run zero sched (NewWorkerPool numWorkers) = Some s →
  (closing s = close_returned →
     Forall (λ c, c = worker_returned) (worker_pcs s)
     ∧ wg (pool s) = 0
     ∧ closed (done (pool s)) = true
     ∧ closed (taskQueue (pool s)) = true)
  ∧ (closing s = close_queue_closed →
     (∃ w c, worker_pcs s !! w = Some c ∧ c ≠ worker_returned) →
     step zero ev_Close s = None).
Proof.
  intros Hrun.
  pose proof (Pool_run_close_inv sched _ s (NewWorkerPool_close_inv numWorkers) Hrun)
    as Hinv.
  split.
  - intros Hc. pose proof (inv_returned _ Hinv Hc) as Hall. split_and!.
    + done.
    + rewrite (inv_wg _ Hinv). clear -Hall.
      induction Hall as [|c l -> _ IH]; [done|]. cbn. by rewrite IH.
    + apply (inv_done _ Hinv). by rewrite Hc.
    + apply (inv_queue _ Hinv). by right.
  - intros Hc (w & c & Hw & Hne). unfold step, Close_step. rewrite Hc.
    destruct (crashed s); [done|].
    pose proof (sum_list_insert worker_alive _ _ _ worker_returned Hw) as H.
    cbn in H.
    assert (worker_alive c = 1) by by destruct c.
    destruct (wg (pool s) =? 0) eqn:Hz; [|done].
    apply Nat.eqb_eq in Hz. rewrite (inv_wg _ Hinv) in Hz. lia.
Qed.

End PoolCloseFacts.

(** ** All, continued: an input that is rejected *)

Section AllMoreFacts.

Import All AllMore.

Context {T : Type}.
Variable zero : T.
Variable promises : list nat.
Variable rs : list (Result T).
Variable k : nat.
Variable rk : Result T.
Variable ek : error.
Hypothesis promises_NoDup : NoDup promises.
Hypothesis k_lookup : rs !! k = Some rk.
Hypothesis k_rejected : Err rk = Some ek.

Abbreviation step_bg := (step zero context_Background promises).
Abbreviation run_bg := (run zero context_Background promises).

Section SameLength.

Hypothesis rs_length : length rs = length promises.

Lemma All_start_rejecting (w : world T) :
  Forall2 (delivers w) promises rs →
  ∃ s, start zero promises w = Some s ∧ inv_rejecting promises rs k s.
Proof.
  intros Hall. unfold start. destruct (length promises =? 0) eqn:Hn.
  - apply Nat.eqb_eq in Hn. apply lookup_lt_Some in k_lookup. lia.
  - eexists. split; [done|]. constructor; cbn; try done.
    + intros idx a r Ha Hr. unfold slot_settled. cbn.
      rewrite lookup_replicate_2 by by eapply lookup_lt_Some.
      by eapply (Forall2_lookup_lr _ _ _ _ _ _ Hall).
    + intros c Hc [-> | ->]; by apply lookup_replicate in Hc as [? _].
Qed.

Lemma AllMore_slot_frame (s s' : state) (idx a : nat) (r : Result T) :
  observers s' !! idx = observers s !! idx →
  (delivers (the_world s) a r → delivers (the_world s') a r) →
  slot_settled s idx a r → slot_settled s' idx a r.
Proof.
  unfold slot_settled. intros -> Hd.
  destruct (observers s !! idx) as [[]|]; auto.
Qed.

(** The slots after observer [idx] has moved to a point past its [Await]. *)
Lemma AllMore_slots_insert (s s' : state) (idx : nat) (c : pc) :
  the_world s' = the_world s →
  observers s' = <[idx := c]> (observers s) →
  idx < length (observers s) →
  past_body c →
  (∀ idx a r, promises !! idx = Some a → rs !! idx = Some r → slot_settled s idx a r) →
  ∀ idx' a r, promises !! idx' = Some a → rs !! idx' = Some r →
              slot_settled s' idx' a r.
Proof.
  intros Hw Ho Hlt Hc Hslots idx' a r Ha Hr.
  destruct (decide (idx' = idx)) as [->|Hne].
  - unfold slot_settled. rewrite Ho, list_lookup_insert_eq by done.
    by destruct Hc as [-> | ->].
  - apply (AllMore_slot_frame s); [|by rewrite Hw|by apply Hslots].
    rewrite Ho. by rewrite list_lookup_insert_ne.
Qed.

Lemma AllMore_k_insert (l : list (pc (T:=T))) (idx : nat) (c' : pc) (P : Prop) :
  (∀ c, l !! k = Some c → past_body c → P) →
  (idx = k → past_body c' → P) →
  ∀ c, <[idx := c']> l !! k = Some c → past_body c → P.
Proof.
  intros Hold Hnew c Hc Hpast. destruct (decide (idx = k)) as [->|Hne].
  - apply list_lookup_insert_Some in Hc as [(_ & <- & _)|(? & _)]; [|done].
    by apply Hnew.
  - rewrite list_lookup_insert_ne in Hc by done. by eapply Hold.
Qed.

Lemma All_step_rejecting (e : event) (s s' : state) :
  inv promises s → inv_rejecting promises rs k s →
  step_bg e s = Some s' → inv_rejecting promises rs k s'.
Proof.
  intros [Hobs Hres Hwg Hwait Hfresh Honce] [Hslots Hk Hclosed] Hstep.
  destruct e as [a|idx pick|idx|idx|]; unfold step in Hstep.
  - destruct (settle a (the_world s)) as [w|] eqn:Hs; simplify_eq.
    constructor; cbn; try done.
    intros idx b r Hb Hr.
    apply (AllMore_slot_frame s); [done| |by apply Hslots].
    cbn. intros Hd. by eapply settle_delivers.
  - destruct (observers s !! idx) as [[]|] eqn:Hidx; try done.
    destruct (promises !! idx) as [a|] eqn:Ha; try done.
    destruct (Await_at zero pick a context_Background (the_world s))
      as [[w [val err]]|] eqn:HA; simplify_eq.
    constructor; cbn; try done.
    + intros idx' b r Hb Hr. destruct (decide (idx' = idx)) as [->|Hne].
      * assert (b = a) as -> by congruence.
        specialize (Hslots idx a r Ha Hr).
        unfold slot_settled in *. rewrite Hidx in Hslots. cbn.
        rewrite list_lookup_insert_eq by by eapply lookup_lt_Some.
        pose proof (Await_at_delivers _ _ _ _ _ _ _ HA Hslots) as Hres'.
        by simplify_eq.
      * apply (AllMore_slot_frame s); [| |by apply Hslots]; cbn.
        -- by rewrite list_lookup_insert_ne.
        -- eapply Await_at_delivers_other; [done|].
           intros ->. apply Hne. by eapply NoDup_lookup.
    + apply AllMore_k_insert; [done|]. by intros _ [|].
  - destruct (observers s !! idx) as [[|val err| |]|] eqn:Hidx; try done.
    assert (Hlt : idx < length promises).
    { rewrite <- Hobs. by eapply lookup_lt_Some. }
    destruct (lookup_lt_is_Some_2 promises idx Hlt) as [a Ha].
    destruct (lookup_lt_is_Some_2 rs idx) as [r Hr]; [lia|].
    pose proof (Hslots idx a r Ha Hr) as Hslot.
    unfold slot_settled in Hslot. rewrite Hidx in Hslot. destruct Hslot as [-> ->].
    destruct (Err r) as [err|] eqn:Herr.
    + destruct (errOnce s) eqn:HeO.
      * simplify_eq. unfold set_observer. constructor; cbn; try done.
        -- eapply (AllMore_slots_insert s); [done|done|lia|by left|done].
        -- intros _. by apply Hclosed.
      * assert (Hw : waiter s ≠ waiter_returned).
        { intros Hw. pose proof (All_alive_le _ _ _ Hidx) as Hle. cbn in Hle.
          rewrite <- Hwg in Hle. rewrite Hwait in Hle; [lia|]. by rewrite Hw. }
        rewrite (Hfresh eq_refl Hw) in Hstep. cbn in Hstep. simplify_eq.
        constructor; cbn; try done.
        -- eapply (AllMore_slots_insert s); [done|done|lia|by left|done].
        -- intros _. by exists idx, r, err.
    + simplify_eq. constructor; cbn; try done.
      * eapply (AllMore_slots_insert s); [done|done|lia|by left|done].
      * apply AllMore_k_insert; [done|].
        intros -> _. rewrite k_lookup in Hr. by simplify_eq.
  - destruct (observers s !! idx) as [[]|] eqn:Hidx; try done.
    destruct (wg s =? 0); simplify_eq.
    constructor; cbn; try done.
    + eapply (AllMore_slots_insert s); [done|done| |by right|done].
      by eapply lookup_lt_Some.
    + apply AllMore_k_insert; [done|].
      intros -> _. apply (Hk at_deferred_Done); [done|by left].
  - destruct (waiter s) eqn:Hw; try done.
    + destruct (wg s =? 0); simplify_eq. by constructor.
    + assert (HeO : errOnce s = true).
      { assert (Hlt : k < length (observers s)).
        { rewrite Hobs, <- rs_length. by eapply lookup_lt_Some. }
        destruct (lookup_lt_is_Some_2 _ _ Hlt) as [c Hc].
        apply (Hk c Hc). right.
        assert (alive c = 0) as Hal.
        { eapply sum_list_zero_lookup; [|done]. rewrite <- Hwg. by apply Hwait. }
        by destruct c. }
      destruct (Hclosed HeO) as (idx & r & e & Hr & He & Hout).
      assert (Ho : once (out s) = true).
      { destruct (once (out s)) eqn:Ho; [done|].
        rewrite (Honce eq_refl) in Hout.
        unfold rejected_with, holds in Hout. done. }
      unfold resolve in Hstep. rewrite (once_send_done _ _ Ho) in Hstep.
      simplify_eq. by constructor.
Qed.

Lemma All_run_rejecting (sched : list event) (s s' : state) :
  inv promises s → inv_rejecting promises rs k s →
  run_bg sched s = Some s' → inv promises s' ∧ inv_rejecting promises rs k s'.
Proof.
  revert s. induction sched as [|e sched IH]; intros s Hinv Hf Hrun; cbn in Hrun.
  - by simplify_eq.
  - destruct (step_bg e s) as [s1|] eqn:Hstep; [|done].
    eapply IH; [| |done].
    + by eapply All_step_inv.
    + by eapply All_step_rejecting.
Qed.

Lemma All_progress_rejecting (s : state) :
  inv promises s → inv_rejecting promises rs k s →
  quiescent s ∨ ∃ e s', step_bg e s = Some s'.
Proof.
  intros [Hobs Hres Hwg Hwait Hfresh Honce] [Hslots Hk Hclosed].
  assert (Hsend : ∀ r, is_Some (once_send r (out s))).
  { intros r. unfold once_send. destruct (once (out s)) eqn:Ho; [by eexists|].
    rewrite (Honce eq_refl). by eexists. }
  destruct (All_observers_cases (observers s)) as [Hall|(idx & c & Hidx & Hc)].
  - destruct (waiter s) eqn:Hw.
    + right. exists ev_waiter. unfold step. rewrite Hw, Hwg.
      rewrite (All_returned_alive _ Hall). by eexists.
    + right. exists ev_waiter. unfold step. rewrite Hw. unfold resolve.
      destruct (Hsend (mkResult (results s) None)) as [o ->]. by eexists.
    + by left.
  - right.
    assert (Hlt : idx < length promises).
    { rewrite <- Hobs. by eapply lookup_lt_Some. }
    destruct (lookup_lt_is_Some_2 promises idx Hlt) as [a Ha].
    destruct (lookup_lt_is_Some_2 rs idx) as [r Hr]; [lia|].
    pose proof (Hslots idx a r Ha Hr) as Hslot.
    unfold slot_settled in Hslot. rewrite Hidx in Hslot.
    destruct c as [|val err| |]; [| | |done].
    + destruct (delivers_progress zero a context_Background _ _ Hslot)
        as [[w' Hs]|[[w' [val err]] HA]].
      * exists (ev_settle a). unfold step. rewrite Hs. by eexists.
      * exists (ev_Await idx case_result). unfold step.
        rewrite Hidx, Ha, HA. by eexists.
    + exists (ev_body idx). unfold step. rewrite Hidx.
      destruct err as [err|]; [|by eexists].
      destruct (errOnce s); [by eexists|]. unfold reject.
      destruct (Hsend (mkResult [] (Some err))) as [o ->]. by eexists.
    + exists (ev_Done idx). unfold step. rewrite Hidx.
      pose proof (All_alive_le _ _ _ Hidx) as Hle. cbn in Hle.
      destruct (wg s =? 0) eqn:Hz; [apply Nat.eqb_eq in Hz; lia|]. by eexists.
Qed.

Lemma All_completes_rejecting (n : nat) :
  ∀ s, measure s = n → inv promises s → inv_rejecting promises rs k s →
       ∃ sched s', run_bg sched s = Some s' ∧ quiescent s'.
Proof.
  induction n as [|n IH]; intros s Hm Hinv Hf.
  - destruct (All_progress_rejecting s Hinv Hf) as [Hq|(e & s' & Hstep)].
    + by exists [], s.
    + apply All_step_measure in Hstep. lia.
  - destruct (All_progress_rejecting s Hinv Hf) as [Hq|(e & s' & Hstep)].
    + by exists [], s.
    + destruct (IH s') as (sched & s'' & Hrun & Hq).
      * apply All_step_measure in Hstep. lia.
      * by eapply All_step_inv.
      * by eapply All_step_rejecting.
      * exists (e :: sched), s''. cbn. by rewrite Hstep.
Qed.

End SameLength.

(** When the inputs are distinct promises that settle, one of them with an
    error, then under [context.Background()] and whatever the order in which
    producers, observers and the waiter run, the result of [All] is never a
    fulfilment: once settled it is a rejection with the error of one of the
    rejected inputs; every run can be continued until all goroutines have
    returned, and then [All] is rejected. *)
Theorem All_rejects_when_an_input_does (w : world T) :
  Forall2 (delivers w) promises rs →
  ∃ s0, start zero promises w = Some s0
        ∧ ∀ sched s,
            run zero context_Background promises sched s0 = Some s →
            (once (out s) = true ∨ quiescent s →
               ∃ idx r e, rs !! idx = Some r ∧ Err r = Some e
                          ∧ rejected_with [] e (out s))
            ∧ ∃ sched' s',
                run zero context_Background promises sched' s = Some s'
                ∧ quiescent s'.
Proof.
  intros Hall. pose proof (eq_sym (Forall2_length _ _ _ Hall)) as rs_length.
  destruct (All_start_rejecting rs_length w Hall) as (s0 & Hs0 & Hf0).
  exists s0. split; [done|]. intros sched s Hrun.
  pose proof (All_start_inv zero promises context_Background w s0 Hs0) as Hinv0.
  destruct (All_run_rejecting rs_length sched s0 s Hinv0 Hf0 Hrun) as [Hinv Hf].
  split.
  - intros Hsettled. apply (invj_closed _ _ _ _ Hf).
    assert (Hlt : k < length (observers s)).
    { rewrite (inv_observers _ _ Hinv), <- rs_length. by eapply lookup_lt_Some. }
    destruct (lookup_lt_is_Some_2 _ _ Hlt) as [c Hc].
    assert (Hzero : wg s = 0 → errOnce s = true).
    { intros Hz. apply (invj_k _ _ _ _ Hf c Hc). right.
      assert (alive c = 0) as Hal.
      { eapply sum_list_zero_lookup; [|done]. by rewrite <- (inv_wg _ _ Hinv). }
      by destruct c. }
    destruct Hsettled as [Ho|[Hq Hw]].
    + destruct (errOnce s) eqn:HeO; [done|].
      destruct (waiter s) eqn:Hw.
      * rewrite (inv_out_fresh _ _ Hinv) in Ho; [done|done|by rewrite Hw].
      * rewrite (inv_out_fresh _ _ Hinv) in Ho; [done|done|by rewrite Hw].
      * apply Hzero. apply (inv_waiter _ _ Hinv). by rewrite Hw.
    + apply Hzero. apply (inv_waiter _ _ Hinv). by rewrite Hw.
  - by eapply (All_completes_rejecting rs_length (measure s)).
Qed.

End AllMoreFacts.

(** ** All: values in input order, or the first error *)

Section AllClaim.

Import All AllMore.

Context {T : Type}.
Variable zero : T.
Variable promises : list nat.


End AllClaim.

(** ** Any, continued: an input that is fulfilled *)

Section AnyMoreFacts.

Import Any AnyMore.

Context {T : Type}.
Variable zero : T.
Variable promises : list nat.
Variable rs : list (Result T).
Variable k : nat.
Variable rk : Result T.
Hypothesis promises_NoDup : NoDup promises.
Hypothesis k_lookup : rs !! k = Some rk.
Hypothesis k_fulfilled : Err rk = None.

Abbreviation any_step_bg := (step zero context_Background promises).
Abbreviation any_run_bg := (run zero context_Background promises).

(** The rejections counted and the observers still to report never grow
    in number. *)
Lemma Any_step_slack (ctx : Context) (e : event) (s s' : state) :
  step zero ctx promises e s = Some s' →
  rejectedCount s' + sum_list (slack <$> observers s')
  ≤ rejectedCount s + sum_list (slack <$> observers s).
Proof.
  intros Hstep. destruct e as [a|idx pick|idx]; unfold step in Hstep.
  - destruct (settle a (the_world s)); simplify_eq. done.
  - destruct (observers s !! idx) as [[]|] eqn:Hidx; try done.
    destruct (promises !! idx); try done.
    destruct (Await_at zero pick n ctx (the_world s)) as [[w [val err]]|]; simplify_eq.
    pose proof (sum_list_insert slack _ _ _ (got val err) Hidx) as H. cbn in *. lia.
  - destruct (observers s !! idx) as [[|val [err|]|[]|]|] eqn:Hidx; try done.
    + simplify_eq.
      pose proof (sum_list_insert slack _ _ _
                    (counted (S (rejectedCount s) =? length promises)) Hidx) as H.
      cbn in *. lia.
    + pose proof (sum_list_insert slack _ _ _ returned Hidx) as H.
      destruct (once_guard s); [|destruct (resolve val (out s))];
        simplify_eq; cbn in *; lia.
    + pose proof (sum_list_insert slack _ _ _ returned Hidx) as H.
      destruct (once_guard s);
        [|destruct (reject zero (AsError (NewAggregateError (errors s))) (out s))];
        simplify_eq; cbn in *; lia.
    + simplify_eq.
      pose proof (sum_list_insert slack _ _ _ returned Hidx) as H. cbn in *. lia.
Qed.

(** The guard [once] is never reopened. *)
Lemma Any_step_guard (ctx : Context) (e : event) (s s' : state) :
  step zero ctx promises e s = Some s' → once_guard s = true → once_guard s' = true.
Proof.
  intros Hstep Hg. destruct e as [a|idx pick|idx]; unfold step in Hstep.
  - destruct (settle a (the_world s)); simplify_eq. done.
  - destruct (observers s !! idx) as [[]|]; try done.
    destruct (promises !! idx); try done.
    destruct (Await_at zero pick n ctx (the_world s)) as [[w [val err]]|]; simplify_eq.
    done.
  - rewrite Hg in Hstep.
    destruct (observers s !! idx) as [[|val [err|]|[]|]|]; by simplify_eq.
Qed.

Lemma Any_two_slack (l : list (pc (T:=T))) (i j : nat) (c d : pc) :
  i ≠ j → l !! i = Some c → l !! j = Some d →
  slack c + slack d ≤ sum_list (slack <$> l).
Proof.
  intros Hne Hi Hj.
  pose proof (sum_list_insert slack _ _ _ returned Hi) as H. cbn in H.
  assert (<[i := returned]> l !! j = Some d) as Hj'.
  { by rewrite list_lookup_insert_ne. }
  pose proof (Any_slack_le _ _ _ Hj'). lia.
Qed.

Section SameLength.

Hypothesis rs_length : length rs = length promises.

Lemma Any_start_fulfilling (w : world T) :
  Forall2 (delivers w) promises rs →
  ∃ s, start zero promises w = Some s ∧ inv_fulfilling promises rs k s.
Proof.
  intros Hall. unfold start. destruct (length promises =? 0) eqn:Hn.
  - apply Nat.eqb_eq in Hn. apply lookup_lt_Some in k_lookup. lia.
  - eexists. split; [done|]. constructor; cbn; try done.
    + intros idx a r Ha Hr. unfold slot_settled. cbn.
      rewrite lookup_replicate_2 by by eapply lookup_lt_Some.
      by eapply (Forall2_lookup_lr _ _ _ _ _ _ Hall).
    + intros Hk. by apply lookup_replicate in Hk as [? _].
Qed.

Lemma AnyMore_slot_frame (s s' : state) (idx a : nat) (r : Result T) :
  observers s' !! idx = observers s !! idx →
  (delivers (the_world s) a r → delivers (the_world s') a r) →
  slot_settled s idx a r → slot_settled s' idx a r.
Proof.
  unfold slot_settled. intros -> Hd.
  destruct (observers s !! idx) as [[]|]; auto.
Qed.

(** The slots after observer [idx] has taken a step of its own. *)
Lemma AnyMore_slots_insert (s s' : state) (idx : nat) (c : pc) :
  the_world s' = the_world s →
  observers s' = <[idx := c]> (observers s) →
  (∀ a r, promises !! idx = Some a → rs !! idx = Some r → slot_settled s' idx a r) →
  (∀ idx a r, promises !! idx = Some a → rs !! idx = Some r → slot_settled s idx a r) →
  ∀ idx' a r, promises !! idx' = Some a → rs !! idx' = Some r →
              slot_settled s' idx' a r.
Proof.
  intros Hw Ho Hc Hslots idx' a r Ha Hr.
  destruct (decide (idx' = idx)) as [->|Hne].
  - by apply Hc.
  - apply (AnyMore_slot_frame s); [|by rewrite Hw|by apply Hslots].
    rewrite Ho. by rewrite list_lookup_insert_ne.
Qed.

(** The observer of the fulfilled input returns only through the guard. *)
Lemma Any_step_fulfilling_k (e : event) (s s' : state) :
  inv zero promises s → inv_fulfilling promises rs k s →
  any_step_bg e s = Some s' →
  observers s' !! k = Some returned →
  once_guard s' = true
  ∧ rejectedCount s' + sum_list (slack <$> observers s') < length promises.
Proof.
  intros Hinv [Hslots Hk Hclosed] Hstep Hk'.
  assert (observers s !! k = Some returned ∨ observers s !! k ≠ Some returned)
    as [Hold|Hnew].
  { destruct (observers s !! k) as [[]|]; (by left) || (by right). }
  { destruct (Hk Hold) as [Hg Hlt]. split.
    - by eapply Any_step_guard.
    - pose proof (Any_step_slack _ _ _ _ Hstep). lia. }
  assert (Hltk : k < length promises).
  { rewrite <- rs_length. by eapply lookup_lt_Some. }
  destruct (lookup_lt_is_Some_2 promises k Hltk) as [a Ha].
  pose proof (Hslots k a rk Ha k_lookup) as Hslot. unfold slot_settled in Hslot.
  pose proof (inv_slack _ _ _ Hinv) as Hslack.
  pose proof (inv_open _ _ _ Hinv) as Hopen.
  destruct e as [b|idx pick|idx]; unfold step in Hstep.
  - destruct (settle b (the_world s)); by simplify_eq.
  - destruct (observers s !! idx) as [[]|] eqn:Hidx; try done.
    destruct (promises !! idx); try done.
    destruct (Await_at zero pick n context_Background (the_world s))
      as [[w [val err]]|]; simplify_eq.
    cbn in Hk'. destruct (decide (idx = k)) as [->|Hne].
    + rewrite list_lookup_insert_eq in Hk' by by eapply lookup_lt_Some. done.
    + by rewrite list_lookup_insert_ne in Hk'.
  - assert (Hne : observers s ≠ []).
    { intros Hnil. rewrite Hnil in Hstep. done. }
    destruct (decide (idx = k)) as [->|Hnek].
    + destruct (observers s !! k) as [[|val [err|]|[]|]|] eqn:Hidx; try done.
      * simplify_eq. cbn in Hk'.
        rewrite list_lookup_insert_eq in Hk' by by eapply lookup_lt_Some. done.
      * pose proof (sum_list_insert slack _ _ _ returned Hidx) as H. cbn in H.
        destruct (once_guard s) eqn:Hg.
        -- simplify_eq. cbn. split; [done|lia].
        -- rewrite (Hopen eq_refl Hne) in Hstep. cbn in Hstep. simplify_eq.
           cbn. split; [done|lia].
      * by destruct Hslot.
      * destruct Hslot as [_ Herr]. by rewrite k_fulfilled in Herr.
    + assert (observers s' !! k = observers s !! k) as Heq.
      { destruct (observers s !! idx) as [[|val [err|]|[]|]|]; try done;
          [|destruct (once_guard s); [|destruct (resolve val (out s))]
           |destruct (once_guard s);
              [|destruct (reject zero (AsError (NewAggregateError (errors s))) (out s))]
           |]; simplify_eq; cbn; by rewrite list_lookup_insert_ne. }
      by rewrite Heq in Hk'.
Qed.

Lemma Any_step_fulfilling (e : event) (s s' : state) :
  inv zero promises s → inv_fulfilling promises rs k s →
  any_step_bg e s = Some s' → inv_fulfilling promises rs k s'.
Proof.
  intros Hinv Hf Hstep.
  pose proof (Any_step_fulfilling_k e s s' Hinv Hf Hstep) as Hk'.
  destruct Hinv as [Hobs Hcount Hslack Hcounted Hopen Hclosed0].
  destruct Hf as [Hslots Hk Hclosed].
  constructor; [|done|].
  - (* the slots *)
    destruct e as [a|idx pick|idx]; unfold step in Hstep.
    + destruct (settle a (the_world s)) as [w|] eqn:Hs; simplify_eq.
      intros idx b r Hb Hr.
      apply (AnyMore_slot_frame s); [done| |by apply Hslots].
      cbn. intros Hd. by eapply settle_delivers.
    + destruct (observers s !! idx) as [[]|] eqn:Hidx; try done.
      destruct (promises !! idx) as [a|] eqn:Ha; try done.
      destruct (Await_at zero pick a context_Background (the_world s))
        as [[w [val err]]|] eqn:HA; simplify_eq.
      intros idx' b r Hb Hr. destruct (decide (idx' = idx)) as [->|Hne].
      * assert (b = a) as -> by congruence.
        specialize (Hslots idx a r Ha Hr).
        unfold slot_settled in *. rewrite Hidx in Hslots. cbn.
        rewrite list_lookup_insert_eq by by eapply lookup_lt_Some.
        pose proof (Await_at_delivers _ _ _ _ _ _ _ HA Hslots) as Hres'.
        by simplify_eq.
      * apply (AnyMore_slot_frame s); [| |by apply Hslots]; cbn.
        -- by rewrite list_lookup_insert_ne.
        -- eapply Await_at_delivers_other; [done|].
           intros ->. apply Hne. by eapply NoDup_lookup.
    + assert (Hlti : idx < length (observers s)).
      { destruct (observers s !! idx) eqn:Hidx; [by eapply lookup_lt_Some|done]. }
      destruct (observers s !! idx) as [[|val [err|]|[]|]|] eqn:Hidx; try done.
      * (* an error is counted: the fulfilled input keeps the count short *)
        simplify_eq. eapply (AnyMore_slots_insert s); [done|done| |done].
        intros a r Ha Hr. pose proof (Hslots idx a r Ha Hr) as Hslot.
        unfold slot_settled in Hslot |- *. rewrite Hidx in Hslot. cbn -[Nat.eqb].
        rewrite list_lookup_insert_eq by done.
        destruct Hslot as [_ Herr]. split; [|by rewrite <- Herr].
        apply Nat.eqb_neq.
        assert (Hnek : idx ≠ k).
        { intros ->. rewrite k_lookup in Hr. simplify_eq. congruence. }
        assert (Hltk : k < length promises).
        { rewrite <- rs_length. by eapply lookup_lt_Some. }
        destruct (lookup_lt_is_Some_2 promises k Hltk) as [ak Hak].
        pose proof (Hslots k ak rk Hak k_lookup) as Hslotk.
        unfold slot_settled in Hslotk.
        destruct (observers s !! k) as [[|valk errk|b|]|] eqn:Hkk; [| | | |done].
        -- pose proof (Any_two_slack _ _ _ _ _ Hnek Hidx Hkk) as H2. cbn in H2. lia.
        -- pose proof (Any_two_slack _ _ _ _ _ Hnek Hidx Hkk) as H2. cbn in H2. lia.
        -- destruct Hslotk as [_ Hc]. by rewrite k_fulfilled in Hc.
        -- destruct (Hk eq_refl) as [_ Hlt].
           pose proof (Any_slack_le _ _ _ Hidx) as Hle. cbn in Hle. lia.
      * assert (Hret : ∀ a r, promises !! idx = Some a → rs !! idx = Some r →
                       slot_settled
                         (mkState (the_world s) (<[idx := returned]> (observers s))
                                  (errors s) (rejectedCount s) true (out s')) idx a r).
        { intros a r _ _. unfold slot_settled. cbn.
          by rewrite list_lookup_insert_eq. }
        destruct (once_guard s); [|destruct (resolve val (out s))]; simplify_eq;
          by eapply (AnyMore_slots_insert s).
      * assert (Hret : ∀ a r, promises !! idx = Some a → rs !! idx = Some r →
                       slot_settled
                         (mkState (the_world s) (<[idx := returned]> (observers s))
                                  (errors s) (rejectedCount s) true (out s')) idx a r).
        { intros a r _ _. unfold slot_settled. cbn.
          by rewrite list_lookup_insert_eq. }
        destruct (once_guard s);
          [|destruct (reject zero (AsError (NewAggregateError (errors s))) (out s))];
          simplify_eq; by eapply (AnyMore_slots_insert s).
      * simplify_eq. eapply (AnyMore_slots_insert s); [done|done| |done].
        intros a r _ _. unfold slot_settled. cbn.
        by rewrite list_lookup_insert_eq.
  - (* the result once the guard is closed *)
    destruct e as [a|idx pick|idx]; unfold step in Hstep.
    + destruct (settle a (the_world s)); simplify_eq. done.
    + destruct (observers s !! idx) as [[]|]; try done.
      destruct (promises !! idx); try done.
      destruct (Await_at zero pick n context_Background (the_world s))
        as [[w [val err]]|]; simplify_eq. done.
    + assert (Hne : observers s ≠ []).
      { intros Hnil. rewrite Hnil in Hstep. done. }
      assert (Hlt : idx < length promises).
      { rewrite <- Hobs.
        destruct (observers s !! idx) eqn:Hidx; [by eapply lookup_lt_Some|done]. }
      destruct (lookup_lt_is_Some_2 promises idx Hlt) as [a Ha].
      destruct (lookup_lt_is_Some_2 rs idx) as [r Hr]; [lia|].
      pose proof (Hslots idx a r Ha Hr) as Hslot. unfold slot_settled in Hslot.
      destruct (observers s !! idx) as [[|val [err|]|[]|]|] eqn:Hidx; try done.
      * simplify_eq. done.
      * destruct Hslot as [-> Herr].
        destruct (once_guard s) eqn:Hg.
        -- simplify_eq. cbn. intros _. by apply Hclosed.
        -- rewrite (Hopen eq_refl Hne) in Hstep. cbn in Hstep. simplify_eq.
           cbn. intros _. by exists idx, r.
      * by destruct Hslot.
      * simplify_eq. done.
Qed.

Lemma Any_run_fulfilling (sched : list event) (s s' : state) :
  inv zero promises s → inv_fulfilling promises rs k s →
  any_run_bg sched s = Some s' →
  inv zero promises s' ∧ inv_fulfilling promises rs k s'.
Proof.
  revert s. induction sched as [|e sched IH]; intros s Hinv Hf Hrun; cbn in Hrun.
  - by simplify_eq.
  - destruct (any_step_bg e s) as [s1|] eqn:Hstep; [|done].
    eapply IH; [| |done].
    + by eapply Any_step_inv.
    + by eapply Any_step_fulfilling.
Qed.

Lemma Any_progress_fulfilling (s : state) :
  inv zero promises s → inv_fulfilling promises rs k s →
  quiescent s ∨ ∃ e s', any_step_bg e s = Some s'.
Proof.
  intros [Hobs Hcount Hslack Hcounted Hopen Hclosed0] [Hslots Hk Hclosed].
  destruct (Any_observers_cases (observers s)) as [Hall|(idx & c & Hidx & Hc)];
    [by left|right].
  assert (Hne : observers s ≠ []).
  { intros Hnil. by rewrite Hnil in Hidx. }
  assert (Hlt : idx < length promises).
  { rewrite <- Hobs. by eapply lookup_lt_Some. }
  destruct (lookup_lt_is_Some_2 promises idx Hlt) as [a Ha].
  destruct (lookup_lt_is_Some_2 rs idx) as [r Hr]; [lia|].
  pose proof (Hslots idx a r Ha Hr) as Hslot.
  unfold slot_settled in Hslot. rewrite Hidx in Hslot.
  destruct c as [|val [err|]|[]|]; [| | | | |done].
  - destruct (delivers_progress zero a context_Background _ _ Hslot)
      as [[w' Hs]|[[w' [val err]] HA]].
    + exists (ev_settle a). unfold step. rewrite Hs. by eexists.
    + exists (ev_Await idx case_result). unfold step.
      rewrite Hidx, Ha, HA. by eexists.
  - exists (ev_body idx). unfold step. rewrite Hidx. by eexists.
  - exists (ev_body idx). unfold step. rewrite Hidx.
    destruct (once_guard s) eqn:Hg; [by eexists|].
    rewrite (Hopen eq_refl Hne). by eexists.
  - by destruct Hslot.
  - exists (ev_body idx). unfold step. rewrite Hidx. by eexists.
Qed.

Lemma Any_completes_fulfilling (n : nat) :
  ∀ s, measure s < n → inv zero promises s → inv_fulfilling promises rs k s →
       ∃ sched s', any_run_bg sched s = Some s' ∧ quiescent s'.
Proof.
  induction n as [|n IH]; intros s Hm Hinv Hf; [lia|].
  destruct (Any_progress_fulfilling s Hinv Hf) as [Hq|(e & s' & Hstep)].
  - by exists [], s.
  - destruct (IH s') as (sched & s'' & Hrun & Hq).
    + apply Any_step_measure in Hstep. lia.
    + by eapply Any_step_inv.
    + by eapply Any_step_fulfilling.
    + exists (e :: sched), s''. cbn. by rewrite Hstep.
Qed.

End SameLength.

(** When the inputs are distinct promises that settle, one of them with a
    value, then under [context.Background()] and whatever the order in
    which producers and observers run, the result of [Any] is never a
    rejection: once settled it is fulfilled with the value of one of the
    fulfilled inputs; every run can be continued until all observers have
    returned, and then [Any] is fulfilled. *)
Theorem Any_fulfills_when_an_input_does (w : world T) :
  Forall2 (delivers w) promises rs →
  ∃ s0, start zero promises w = Some s0
        ∧ ∀ sched s,
            run zero context_Background promises sched s0 = Some s →
            (once (out s) = true ∨ quiescent s →
               ∃ idx r, rs !! idx = Some r ∧ Err r = None
                        ∧ fulfilled_with (Value r) (out s))
            ∧ ∃ sched' s',
                run zero context_Background promises sched' s = Some s'
                ∧ quiescent s'.
Proof.
  intros Hall. pose proof (eq_sym (Forall2_length _ _ _ Hall)) as rs_length.
  destruct (Any_start_fulfilling rs_length w Hall) as (s0 & Hs0 & Hf0).
  exists s0. split; [done|]. intros sched s Hrun.
  pose proof (Any_start_inv zero promises w s0 Hs0) as Hinv0.
  destruct (Any_run_fulfilling rs_length sched s0 s Hinv0 Hf0 Hrun) as [Hinv Hf].
  split.
  - intros Hsettled. apply (invg_closed _ _ _ _ Hf).
    assert (Hlt : k < length (observers s)).
    { rewrite (inv_observers _ _ _ Hinv), <- rs_length. by eapply lookup_lt_Some. }
    destruct Hsettled as [Ho|Hq].
    + destruct (once_guard s) eqn:Hg; [done|].
      rewrite (inv_open _ _ _ Hinv) in Ho; [done|done|].
      intros Hnil. rewrite Hnil in Hlt. cbn in Hlt. lia.
    + destruct (lookup_lt_is_Some_2 _ _ Hlt) as [c Hc].
      pose proof (proj1 (Forall_lookup _ _) Hq k c Hc) as Hret. cbn in Hret.
      subst c. by destruct (invg_k _ _ _ _ Hf Hc).
  - eapply (Any_completes_fulfilling rs_length (S (measure s))); [lia|done|done].
Qed.

End AnyMoreFacts.

(** ** Race, continued: inputs that never settle *)

Section RaceMoreFacts.

Import Race RaceMore.

Context {T : Type}.
Variable zero : T.
Variable promises : list nat.

Lemma settle_never_settles (a b : nat) (w w' : world T) :
  settle b w = Some w' → never_settles w a → never_settles w' a.
Proof.
  unfold settle. intros Hs (p & Hp & Hu & Hprod).
  destruct (producers w !! b) as [[r|]|] eqn:Hb; try done.
  destruct (heap w !! b) as [q|] eqn:Hq; try done.
  destruct (chan_send (resultChan q) r); simplify_eq.
  assert (Hne : a ≠ b).
  { intros ->. by apply (Hprod r). }
  exists p. cbn. by rewrite !list_lookup_insert_ne.
Qed.

Lemma Await_at_never_settles (pick : await_case) (a : nat) (ctx : Context)
      (w w' : world T) res :
  never_settles w a →
  Await_at zero pick a ctx w = Some (w', res) →
  res = (zero, ctx_Err ctx) ∧ is_Some (ctx_Err ctx)
  ∧ ∀ b, never_settles w b → never_settles w' b.
Proof.
  unfold Await_at. intros (p & Hp & Hu & _) HA. rewrite Hp in HA.
  destruct (Await zero pick p ctx) as [[p' r]|] eqn:HAw; simplify_eq.
  destruct (Await_unsettled _ _ _ _ _ _ Hu HAw) as (-> & -> & Hsome).
  split; [done|]. split; [done|].
  intros b (q & Hq & Huq & Hprod). exists q. cbn.
  by rewrite list_insert_id.
Qed.

Lemma Race_step_pending (ctx : Context) (e : event) (s s' : state) :
  inv promises s → inv_pending zero ctx promises s →
  step zero ctx promises e s = Some s' → inv_pending zero ctx promises s'.
Proof.
  intros [Hobs Hopen Hret] [Hin Hgot Hclosed] Hstep.
  destruct e as [a|idx pick|idx]; unfold step in Hstep.
  - destruct (settle a (the_world s)) as [w|] eqn:Hs; simplify_eq.
    constructor; cbn; try done.
    intros b Hb. eapply settle_never_settles; [done|]. by apply Hin.
  - destruct (observers s !! idx) as [[]|] eqn:Hidx; try done.
    destruct (promises !! idx) as [a|] eqn:Ha; try done.
    destruct (Await_at zero pick a ctx (the_world s)) as [[w [val err]]|] eqn:HA;
      simplify_eq.
    assert (Hain : a ∈ promises) by by eapply list_elem_of_lookup_2.
    destruct (Await_at_never_settles _ _ _ _ _ _ (Hin a Hain) HA)
      as (Hres & Hsome & Hkeep).
    constructor; cbn; try done.
    + intros b Hb. apply Hkeep. by apply Hin.
    + intros idx' val' err' Hidx'. destruct (decide (idx' = idx)) as [->|Hne].
      * rewrite list_lookup_insert_eq in Hidx' by by eapply lookup_lt_Some.
        by simplify_eq.
      * rewrite list_lookup_insert_ne in Hidx' by done. by eapply Hgot.
  - assert (Hne : observers s ≠ []).
    { intros Hnil. rewrite Hnil in Hstep. done. }
    destruct (observers s !! idx) as [[|val err|]|] eqn:Hidx; try done.
    destruct (Hgot idx val err Hidx) as (-> & -> & [ec Hec]).
    assert (Hgot' : ∀ idx' val' err',
               <[idx := returned]> (observers s) !! idx' = Some (got val' err') →
               val' = zero ∧ err' = ctx_Err ctx ∧ is_Some (ctx_Err ctx)).
    { intros idx' val' err' Hidx'. destruct (decide (idx' = idx)) as [->|Hne'].
      - rewrite list_lookup_insert_eq in Hidx' by by eapply lookup_lt_Some. done.
      - rewrite list_lookup_insert_ne in Hidx' by done. by eapply Hgot. }
    destruct (once_guard s) eqn:Hg.
    + simplify_eq. by constructor.
    + rewrite (Hopen eq_refl Hne), Hec in Hstep. cbn in Hstep. simplify_eq.
      constructor; cbn; try done. intros _. by exists ec.
Qed.

Lemma Race_run_pending (ctx : Context) (sched : list event) (s s' : state) :
  inv promises s → inv_pending zero ctx promises s →
  run zero ctx promises sched s = Some s' →
  inv promises s' ∧ inv_pending zero ctx promises s'.
Proof.
  revert s. induction sched as [|e sched IH]; intros s Hinv Hp Hrun; cbn in Hrun.
  - by simplify_eq.
  - destruct (step zero ctx promises e s) as [s1|] eqn:Hstep; [|done].
    eapply IH; [| |done].
    + by eapply Race_step_inv.
    + by eapply Race_step_pending.
Qed.

(** Without a token no observer gets past its [Await]. *)
Lemma Race_run_blocked (sched : list event) (s s' : state) :
  (∀ a, a ∈ promises → never_settles (the_world s) a) →
  observers s = replicate (length promises) at_Await →
  run zero context_Background promises sched s = Some s' →
  observers s' = observers s ∧ out s' = out s.
Proof.
  revert s. induction sched as [|e sched IH]; intros s Hin Hobs Hrun; cbn in Hrun.
  - by simplify_eq.
  - destruct (step zero context_Background promises e s) as [s1|] eqn:Hstep; [|done].
    assert ((∀ a, a ∈ promises → never_settles (the_world s1) a)
            ∧ observers s1 = observers s ∧ out s1 = out s) as (Hin1 & Hobs1 & Hout1).
    { destruct e as [a|idx pick|idx]; unfold step in Hstep.
      - destruct (settle a (the_world s)) as [w|] eqn:Hs; simplify_eq.
        split; [|done]. cbn. intros b Hb.
        eapply settle_never_settles; [done|]. by apply Hin.
      - destruct (observers s !! idx) as [[]|] eqn:Hidx; try done.
        destruct (promises !! idx) as [a|] eqn:Ha; try done.
        destruct (Await_at zero pick a context_Background (the_world s))
          as [[w [val err]]|] eqn:HA; simplify_eq.
        assert (Hain : a ∈ promises) by by eapply list_elem_of_lookup_2.
        destruct (Await_at_never_settles _ _ _ _ _ _ (Hin a Hain) HA)
          as (_ & [? Hsome] & _). done.
      - rewrite Hobs in Hstep.
        destruct (replicate (length promises) (at_Await (T:=T)) !! idx) as [c|] eqn:Hidx;
          [|done].
        apply lookup_replicate in Hidx as [-> _]. done. }
    destruct (IH s1 Hin1) as [Hobs' Hout']; [by rewrite Hobs1|done|].
    split; congruence.
Qed.

Lemma Race_progress_pending (ec : error) (s : state) :
  inv promises s → inv_pending zero (context_WithCancel (Some ec)) promises s →
  quiescent s
  ∨ ∃ e s', step zero (context_WithCancel (Some ec)) promises e s = Some s'.
Proof.
  intros [Hobs Hopen Hret] [Hin Hgot Hclosed].
  destruct (Race_observers_cases (observers s)) as [Hall|(idx & c & Hidx & Hc)];
    [by left|right].
  assert (Hne : observers s ≠ []).
  { intros Hnil. by rewrite Hnil in Hidx. }
  assert (Hlt : idx < length promises).
  { rewrite <- Hobs. by eapply lookup_lt_Some. }
  destruct (lookup_lt_is_Some_2 promises idx Hlt) as [a Ha].
  destruct c as [|val err|]; [| |done].
  - assert (Hain : a ∈ promises) by by eapply list_elem_of_lookup_2.
    destruct (Hin a Hain) as (p & Hp & _).
    exists (ev_Await idx case_ctx_done). unfold step, Await_at.
    rewrite Hidx, Ha, Hp. cbn. by eexists.
  - exists (ev_body idx). unfold step. rewrite Hidx.
    destruct (once_guard s) eqn:Hg; [by eexists|].
    rewrite (Hopen eq_refl Hne), Race_settle_fresh. by eexists.
Qed.

Lemma Race_completes_pending (ec : error) (n : nat) :
  ∀ s, measure s < n → inv promises s →
       inv_pending zero (context_WithCancel (Some ec)) promises s →
       ∃ sched s', run zero (context_WithCancel (Some ec)) promises sched s = Some s'
                   ∧ quiescent s'.
Proof.
  induction n as [|n IH]; intros s Hm Hinv Hp; [lia|].
  destruct (Race_progress_pending ec s Hinv Hp) as [Hq|(e & s' & Hstep)].
  - by exists [], s.
  - destruct (IH s') as (sched & s'' & Hrun & Hq).
    + apply Race_step_measure in Hstep. lia.
    + by eapply Race_step_inv.
    + by eapply Race_step_pending.
    + exists (e :: sched), s''. cbn. by rewrite Hstep.
Qed.

(** A [Race] over inputs none of which ever settles settles only through
    the token.  Under [context.Background()] no observer gets past its
    [Await] and the result stays pending, whatever else runs.  Under a
    token that has fired with error [ec], whatever the order in which the
    observers run, the result once settled is the rejection with [ec], and
    every run can be continued until all observers have returned. *)
Theorem Race_settles_only_through_the_token (w : world T) :
  promises ≠ [] →
  (∀ a, a ∈ promises → never_settles w a) →
  ∃ s0, start zero promises w = Some s0
        ∧ (∀ sched s,
             run zero context_Background promises sched s0 = Some s →
             observers s = replicate (length promises) at_Await
             ∧ out s = new_promise)
        ∧ (∀ ec sched s,
             run zero (context_WithCancel (Some ec)) promises sched s0 = Some s →
             (once (out s) = true ∨ quiescent s → rejected_with zero ec (out s))
             ∧ ∃ sched' s',
                 run zero (context_WithCancel (Some ec)) promises sched' s = Some s'
                 ∧ quiescent s').
Proof.
  intros Hne Hin.
  assert (Hs0 : start zero promises w
                = Some (mkState w (replicate (length promises) at_Await) false
                                new_promise)).
  { unfold start. destruct promises; [done|]. done. }
  eexists. split; [exact Hs0|]. split.
  - intros sched s Hrun.
    by destruct (Race_run_blocked sched
                  (mkState w (replicate (length promises) at_Await) false new_promise)
                  s Hin eq_refl Hrun) as [-> ->].
  - intros ec sched s Hrun.
    pose proof (Race_start_inv zero promises w _ Hs0) as Hinv0.
    assert (Hp0 : inv_pending zero (context_WithCancel (Some ec)) promises
                    (mkState w (replicate (length promises) at_Await) false
                             new_promise)).
    { constructor; cbn; try done.
      intros idx val err Hidx. by apply lookup_replicate in Hidx as [? _]. }
    destruct (Race_run_pending _ sched _ s Hinv0 Hp0 Hrun) as [Hinv Hp].
    split.
    + intros Hsettled.
      assert (Hobs : observers s ≠ []).
      { intros Hnil. pose proof (inv_observers _ _ Hinv) as Hlen.
        rewrite Hnil in Hlen. destruct promises; done. }
      assert (Hg : once_guard s = true).
      { destruct Hsettled as [Ho|Hq].
        - destruct (once_guard s) eqn:Hg; [done|].
          by rewrite (inv_open _ _ Hinv Hg Hobs) in Ho.
        - unfold quiescent in Hq.
          destruct (observers s) as [|c l] eqn:Hl; [done|].
          apply (inv_returned _ _ Hinv 0). rewrite Hl. cbn.
          f_equal. by apply Forall_inv in Hq. }
      destruct (invp_closed _ _ _ _ Hp Hg) as (e & He & Hout).
      cbn in He. by simplify_eq.
    + eapply (Race_completes_pending ec (S (measure s))); [lia|done|done].
Qed.

End RaceMoreFacts.

(** * Concrete runs, continued *)

(** A slow and a fast input: the observer of the fast one is first at the
    guard. *)
Lemma Race_first_settled_wins_witness :
  let w := mkWorld (replicate 2 new_promise)
             [Some (mkResult 1 None); Some (mkResult 2 None)] in
  let sched := [Race.ev_settle 1; Race.ev_Await 1 case_result] in
  ∃ s s', Race.run 0 context_Background [0; 1] sched
            (Race.mkState w (replicate 2 Race.at_Await) false new_promise) = Some s
          ∧ Race.step 0 context_Background [0; 1] (Race.ev_body 1) s = Some s'
          ∧ fulfilled_with 2 (Race.out s').
Proof.
  intros w sched.
  destruct (Race_first_settled_wins 0 [0; 1] w) as [_ H].
  eassert (Hrun : Race.run 0 context_Background [0; 1] sched
                    (Race.mkState w (replicate 2 Race.at_Await) false new_promise)
                  = Some _) by (vm_compute; reflexivity).
  destruct (H context_Background _ sched _ 1 2 None eq_refl Hrun eq_refl eq_refl)
    as (s' & Hstep & Hout & _).
  eexists _, s'. split; [exact Hrun|]. split; [exact Hstep|exact Hout].
Defined.

Lemma Race_settles_with_an_input_witness :
  let boom := errors_New "boom" in
  let w := mkWorld (replicate 2 new_promise)
             [Some (mkResult 1 None); Some (mkResult 5 (Some boom))] in
  let sched := [Race.ev_settle 1; Race.ev_Await 1 case_result; Race.ev_body 1;
                Race.ev_settle 0; Race.ev_Await 0 case_result; Race.ev_body 0] in
  ∃ s, Race.run 0 context_Background [0; 1] sched
         (Race.mkState w (replicate 2 Race.at_Await) false new_promise) = Some s
       ∧ ∃ idx r, [mkResult 1 None; mkResult 5 (Some boom)] !! idx = Some r
                  ∧ holds (Race.settlement 0 (Value r) (Err r)) (Race.out s).
Proof.
  intros boom w sched.
  destruct (Race_settles_with_an_input 0 [0; 1] w
              [mkResult 1 None; mkResult 5 (Some boom)]) as (s0 & Hs0 & Hruns).
  - discriminate.
  - apply (bool_decide_unpack _). reflexivity.
  - repeat constructor; (eexists; split; [reflexivity|left; split; reflexivity]).
  - vm_compute in Hs0. injection Hs0 as <-.
    edestruct (Hruns sched) as [Hsettled _]; [vm_compute; reflexivity|].
    eexists. split; [vm_compute; reflexivity|].
    apply Hsettled. left. reflexivity.
Defined.

Lemma Stats_within_bounds_witness :
  let f := Returns (1, None) in
  ∃ s, Pool.run 0 [Pool.ev_Submit f; Pool.ev_submit 0 Pool.case_taskQueue;
                   Pool.ev_Submit f; Pool.ev_submit 1 Pool.case_taskQueue]
         (Pool.NewWorkerPool (T:=nat) (-3)) = Some s
       ∧ PoolMore.Stats s = PoolMore.mkPoolStats 1 2 2.
Proof.
  intros f.
  eassert (Hrun : Pool.run 0 [Pool.ev_Submit f; Pool.ev_submit 0 Pool.case_taskQueue;
                              Pool.ev_Submit f; Pool.ev_submit 1 Pool.case_taskQueue]
                    (Pool.NewWorkerPool (T:=nat) (-3)) = Some _)
    by (vm_compute; reflexivity).
  destruct (Stats_within_bounds 0 (-3) _ _ Hrun) as (H1 & H2 & H3).
  eexists. split; [exact Hrun|]. reflexivity.
Defined.

Lemma worker_settles_its_task_witness :
  ∃ s s', Pool.run 0 [Pool.ev_Submit Panics; Pool.ev_submit 0 Pool.case_taskQueue;
                      Pool.ev_worker 0 Pool.case_taskQueue]
            (Pool.NewWorkerPool (T:=nat) 2) = Some s
          ∧ Pool.step 0 (Pool.ev_execute 0) s = Some s'
          ∧ Pool.promises s' !! 0
            = Some (mkPromise (mkChan [mkResult 0 (Some ErrTaskPanicked)] 1 false) false).
Proof.
  eassert (Hrun : Pool.run 0 [Pool.ev_Submit Panics;
                              Pool.ev_submit 0 Pool.case_taskQueue;
                              Pool.ev_worker 0 Pool.case_taskQueue]
                    (Pool.NewWorkerPool (T:=nat) 2) = Some _)
    by (vm_compute; reflexivity).
  destruct (worker_settles_its_task 0 2 _ _ 0 (Pool.mkTask Panics 0) Hrun
              eq_refl eq_refl) as [_ Hstep].
  eexists _, _. split; [exact Hrun|]. split; [exact Hstep|reflexivity].
Defined.

Lemma pool_runs_until_Close_witness :
  ∃ s, Pool.run 0 [Pool.ev_Submit Panics; Pool.ev_submit 0 Pool.case_taskQueue;
                   Pool.ev_worker 0 Pool.case_taskQueue; Pool.ev_execute 0;
                   Pool.ev_Submit (Returns (7, None))]
         (Pool.NewWorkerPool (T:=nat) 1) = Some s
       ∧ Pool.crashed s = false
       ∧ Pool.worker_pcs s = [Pool.worker_select]
       ∧ Pool.step 0 (Pool.ev_submit 1 Pool.case_done) s = None.
Proof.
  eassert (Hrun : Pool.run 0 [Pool.ev_Submit Panics;
                              Pool.ev_submit 0 Pool.case_taskQueue;
                              Pool.ev_worker 0 Pool.case_taskQueue; Pool.ev_execute 0;
                              Pool.ev_Submit (Returns (7, None))]
                    (Pool.NewWorkerPool (T:=nat) 1) = Some _)
    by (vm_compute; reflexivity).
  edestruct (pool_runs_until_Close 0 1) as (Hc & _ & _ & Hsub & _);
    [|exact Hrun|]; [repeat constructor|].
  eexists. split; [exact Hrun|].
  split; [exact Hc|]. split; [reflexivity|apply Hsub].
Defined.

Lemma Then_settles_witness :
  let boom := errors_New "boom" in
  let ok := mkPromise (mkChan [mkResult 4 None] 1 false) false in
  let ko := mkPromise (mkChan [mkResult 9 (Some boom)] 1 false) false in
  Then_goroutine 0 (λ _, Returns None) ok new_promise
  = Finished (new_promise, mkPromise (mkChan [mkResult 4 None] 1 false) true)
  ∧ Then_goroutine 0 (λ _, Panics) ko new_promise
    = Finished (new_promise, mkPromise (mkChan [mkResult 0 (Some boom)] 1 false) true).
Proof.
  intros boom ok ko.
  destruct (Then_settles 0 (λ _, Returns None) (mkResult 4 None) ok eq_refl)
    as (_ & H2 & _).
  destruct (Then_settles 0 (λ _, Panics) (mkResult 9 (Some boom)) ko eq_refl)
    as (H1 & _).
  exact (conj (H2 eq_refl eq_refl) (H1 boom eq_refl)).
Defined.

Lemma Map_settles_witness :
  let ok := mkPromise (mkChan [mkResult 4 None] 1 false) false in
  Map_goroutine 0 (λ v, Returns (v * 2, None)) ok new_promise
  = Finished (new_promise, mkPromise (mkChan [mkResult 8 None] 1 false) true).
Proof.
  intros ok.
  destruct (Map_settles 0 (λ v, Returns (v * 2, None)) (mkResult 4 None) ok eq_refl)
    as (_ & H2 & _).
  exact (H2 8 eq_refl eq_refl).
Defined.

Lemma Catch_settles_witness :
  let boom := errors_New "boom" in
  let ko := mkPromise (mkChan [mkResult 9 (Some boom)] 1 false) false in
  Catch_goroutine 0 (λ _, Returns (99, None)) ko new_promise
  = Finished (new_promise, mkPromise (mkChan [mkResult 99 None] 1 false) true).
Proof.
  intros boom ko.
  destruct (Catch_settles 0 (λ _, Returns (99, None)) (mkResult 9 (Some boom)) ko
              eq_refl) as (_ & H2 & _).
  exact (H2 boom 99 eq_refl eq_refl).
Defined.

Lemma Finally_settles_witness :
  let boom := errors_New "boom" in
  let ko := mkPromise (mkChan [mkResult 9 (Some boom)] 1 false) false in
  Finally_goroutine 0 (Returns ()) ko new_promise
  = Finished (new_promise, mkPromise (mkChan [mkResult 0 (Some boom)] 1 false) true).
Proof.
  intros boom ko.
  destruct (Finally_settles 0 (mkResult 9 (Some boom)) ko eq_refl) as (_ & H2 & _).
  exact (H2 boom eq_refl).
Defined.

Lemma Sequence_fired_token_witness :
  let w := mkWorld (replicate 2 (new_promise (T:=nat))) [None; None] in
  Sequence.Sequence 0 (context_WithCancel (Some context_Canceled)) (λ _, case_result)
    [0; 1] w
  = Finished (Sequence.mkLoop w [0; 0]
                (mkPromise (mkChan [mkResult [] (Some context_Canceled)] 1 false) true)
                [0]).
Proof.
  intros w.
  destruct (Sequence_fired_token 0 (λ _, case_result)
              (context_WithCancel (Some context_Canceled)) w) as [_ H].
  exact (H 0 [1] new_promise context_Canceled eq_refl eq_refl eq_refl).
Defined.

Lemma Sequence_waits_at_unsettled_input_witness :
  let w := mkWorld [mkPromise (mkChan [mkResult 1 None] 1 false) false; new_promise;
                    mkPromise (mkChan [mkResult 3 None] 1 false) false]
             [None; None; None] in
  Sequence.Sequence 0 context_Background (λ _, case_result) [0; 1; 2] w = Blocked.
Proof.
  intros w.
  apply (Sequence_waits_at_unsettled_input 0 (λ _, case_result) context_Background w
           [0] [mkResult 1 None] 1 [2] new_promise).
  - reflexivity.
  - apply (bool_decide_unpack _). reflexivity.
  - repeat constructor. eexists. split; reflexivity.
  - repeat constructor.
  - reflexivity.
  - reflexivity.
Defined.

Lemma AggregateError_Error_text_witness :
  AggregateError_Error (NewAggregateError [errors_New "a"; ErrPoolClosed])
  = "aggregate error: [0] a; [1] worker pool is closed"%string.
Proof.
  destruct (AggregateError_Error_text [errors_New "a"; ErrPoolClosed]) as [_ H].
  rewrite H; [reflexivity|discriminate].
Defined.

Lemma Close_waits_for_the_workers_witness :
  ∃ s, Pool.run 0 [Pool.ev_Submit (Returns (1, None));
                   Pool.ev_submit 0 Pool.case_taskQueue;
                   Pool.ev_worker 0 Pool.case_taskQueue;
                   Pool.ev_Close; Pool.ev_Close]
         (Pool.NewWorkerPool (T:=nat) 1) = Some s
       ∧ Pool.worker_pcs s = [Pool.worker_execute (Pool.mkTask (Returns (1, None)) 0)]
       ∧ Pool.step 0 Pool.ev_Close s = None.
Proof.
  eassert (Hrun : Pool.run 0 [Pool.ev_Submit (Returns (1, None));
                              Pool.ev_submit 0 Pool.case_taskQueue;
                              Pool.ev_worker 0 Pool.case_taskQueue;
                              Pool.ev_Close; Pool.ev_Close]
                    (Pool.NewWorkerPool (T:=nat) 1) = Some _)
    by (vm_compute; reflexivity).
  destruct (Close_waits_for_the_workers 0 1 _ _ Hrun) as [_ Hwait].
  eexists. split; [exact Hrun|]. split; [reflexivity|].
  apply Hwait; [reflexivity|]. eexists 0, _. split; [reflexivity|discriminate].
Defined.

Lemma All_rejects_when_an_input_does_witness :
  let boom := errors_New "boom" in
  let rs := [mkResult 1 None; mkResult 5 (Some boom); mkResult 3 None] in
  let w := mkWorld (replicate 3 new_promise)
             [Some (mkResult 1 None); Some (mkResult 5 (Some boom));
              Some (mkResult 3 None)] in
  let sched :=
    [All.ev_settle 0; All.ev_Await 0 case_result; All.ev_body 0; All.ev_Done 0;
     All.ev_settle 1; All.ev_Await 1 case_result; All.ev_body 1] in
  ∃ s, All.run 0 context_Background [0; 1; 2] sched
         (All.mkState w (replicate 3 All.at_Await) (replicate 3 0) false 3
                      waiter_Wait new_promise)
       = Some s
       ∧ ∃ idx r e, rs !! idx = Some r ∧ Err r = Some e
                    ∧ rejected_with [] e (All.out s).
Proof.
  intros boom rs w sched.
  destruct (All_rejects_when_an_input_does 0 [0; 1; 2] rs 1
              (mkResult 5 (Some boom)) boom) with (w := w) as (s0 & Hs0 & Hruns).
  - apply (bool_decide_unpack _). reflexivity.
  - reflexivity.
  - reflexivity.
  - repeat constructor; (eexists; split; [reflexivity|left; split; reflexivity]).
  - vm_compute in Hs0. injection Hs0 as <-.
    edestruct (Hruns sched) as [Hsettled _]; [vm_compute; reflexivity|].
    eexists. split; [vm_compute; reflexivity|].
    apply Hsettled. left. reflexivity.
Defined.

Lemma Any_fulfills_when_an_input_does_witness :
  let boom := errors_New "boom" in
  let rs := [mkResult 0 (Some boom); mkResult 7 None] in
  let w := mkWorld (replicate 2 new_promise)
             [Some (mkResult 0 (Some boom)); Some (mkResult 7 None)] in
  let sched :=
    [Any.ev_settle 0; Any.ev_Await 0 case_result; Any.ev_body 0;
     Any.ev_settle 1; Any.ev_Await 1 case_result; Any.ev_body 1;
     Any.ev_body 0] in
  ∃ s, Any.run 0 context_Background [0; 1] sched
         (Any.mkState w (replicate 2 Any.at_Await) [] 0 false new_promise)
       = Some s
       ∧ ∃ idx r, rs !! idx = Some r ∧ Err r = None
                  ∧ fulfilled_with (Value r) (Any.out s).
Proof.
  intros boom rs w sched.
  destruct (Any_fulfills_when_an_input_does 0 [0; 1] rs 1 (mkResult 7 None))
    with (w := w) as (s0 & Hs0 & Hruns).
  - apply (bool_decide_unpack _). reflexivity.
  - reflexivity.
  - reflexivity.
  - repeat constructor; (eexists; split; [reflexivity|left; split; reflexivity]).
  - vm_compute in Hs0. injection Hs0 as <-.
    edestruct (Hruns sched) as [Hsettled _]; [vm_compute; reflexivity|].
    eexists. split; [vm_compute; reflexivity|].
    apply Hsettled. right. repeat constructor.
Defined.

Lemma Race_settles_only_through_the_token_witness :
  let w := mkWorld (replicate 2 new_promise) [None; None] in
  let sched := [Race.ev_Await 1 case_ctx_done; Race.ev_body 1] in
  ∃ s, Race.run 0 (context_WithCancel (Some context_Canceled)) [0; 1] sched
         (Race.mkState w (replicate 2 Race.at_Await) false new_promise) = Some s
       ∧ rejected_with 0 context_Canceled (Race.out s).
Proof.
  intros w sched.
  destruct (Race_settles_only_through_the_token 0 [0; 1] w) as (s0 & Hs0 & _ & Hruns).
  - discriminate.
  - intros a Ha. apply elem_of_cons in Ha as [->|Ha];
      [|apply elem_of_cons in Ha as [->|Ha]; [|by apply elem_of_nil in Ha]];
      (eexists; split; [reflexivity|split; [reflexivity|intros r; discriminate]]).
  - vm_compute in Hs0. injection Hs0 as <-.
    edestruct (Hruns context_Canceled sched) as [Hsettled _]; [vm_compute; reflexivity|].
    eexists. split; [vm_compute; reflexivity|].
    apply Hsettled. left. reflexivity.
Defined.

(** C6 as worded fails in two ways.  One promise, fulfilled with [1], passed
    twice to [All]: its settlement is received by one observer, the other
    one stays at its [Await], no goroutine can take a step any more and the
    result is never settled.  And with a token that has fired an observer
    can take the token's error although its input is fulfilled, and [All]
    rejects. *)
Lemma All_fulfilled_inputs_without_values :
  let p := mkPromise (mkChan [mkResult 1 None] 1 false) false in
  let w := mkWorld [p] [None] in
  (∃ s0 s, All.start 0 [0; 0] w = Some s0
           ∧ All.run 0 context_Background [0; 0]
               [All.ev_Await 0 case_result; All.ev_body 0; All.ev_Done 0] s0
             = Some s
           ∧ All.observers s = [All.returned; All.at_Await]
           ∧ unsettled (All.out s)
           ∧ ∀ e, All.step 0 context_Background [0; 0] e s = None)
  ∧ (∃ s0 s, All.start 0 [0] w = Some s0
             ∧ All.run 0 (context_WithCancel (Some context_Canceled)) [0]
                 [All.ev_Await 0 case_ctx_done; All.ev_body 0] s0
               = Some s
             ∧ holds (mkResult 1 None) p
             ∧ rejected_with [] context_Canceled (All.out s)).
Proof.
  intros p w. split.
  - eexists _, _. split; [reflexivity|]. split; [vm_compute; reflexivity|].
    split_and!; [reflexivity..|].
    intros [[|a]|[|[|idx]] [|]|[|[|idx]]|[|[|idx]]|]; reflexivity.
  - eexists _, _. split; [reflexivity|]. split; [vm_compute; reflexivity|].
    split; reflexivity.
Qed.

